(** * POS tagger/lemmatiser model ([src/pos/model.py]): a shallow embedding

    The development follows the layout of [model.py]: Python exceptions and
    a small error monad, tensors as shape-carrying nested lists, the
    vocabulary map, the decoders ([Tagger], [GRUDecoder]), the [Encoder]
    and the pack/unpack helpers.  Neural sub-networks (linear layers,
    GRU/LSTM cells, dropout) are abstract functions; everything the model
    code itself does with shapes, indices, dictionaries and control flow
    is written out. *)

From stdpp Require Import base option list gmap strings pretty.
From Stdlib Require Import ZArith.
From Stdlib Require QArith.

Set Default Proof Using "Type".
Open Scope nat_scope.

(** ** Python exceptions and the error monad *)

Inductive PyError : Type :=
| IndexError      (* list / tensor index out of range, empty reduction *)
| KeyError        (* missing dictionary key *)
| RuntimeError    (* raised by the tensor library *)
| ValueError (msg : string)   (* raised by the model code or a constructor *)
| ZeroDivisionError
| AssertionError
| AttributeError.

Inductive result (A : Type) : Type :=
| Ok (a : A)
| Raise (e : PyError).
Arguments Ok {A} a.
Arguments Raise {A} e.

Definition bind {A B} (m : result A) (k : A → result B) : result B :=
  match m with
  | Ok a => k a
  | Raise e => Raise e
  end.

Notation "'let!' x ':=' m 'in' k" := (bind m (λ x, k))
  (at level 10, x pattern, m at level 100, k at level 200).

(** [d[k]] on a Python dict and [l[i]] on a Python list (non-negative [i]). *)
Definition dict_get `{Countable K} {V} (d : gmap K V) (k : K) : result V :=
  match d !! k with
  | Some v => Ok v
  | None => Raise KeyError
  end.

Definition list_get {A} (l : list A) (i : nat) : result A :=
  match l !! i with
  | Some a => Ok a
  | None => Raise IndexError
  end.

(** [[f(x) for x in xs]] where evaluating [f] may raise. *)
Fixpoint for_each {A B} (f : A → result B) (xs : list A) : result (list B) :=
  match xs with
  | [] => Ok []
  | x :: xs' =>
      let! y := f x in
      let! ys := for_each f xs' in
      Ok (y :: ys)
  end.

(** [[f(x) for x in xs if c(x)]]: the condition is evaluated for every
    element, the body only for the elements that pass. *)
Fixpoint comprehension {A B} (c : A → result bool) (f : A → result B)
    (xs : list A) : result (list B) :=
  match xs with
  | [] => Ok []
  | x :: xs' =>
      let! keep := c x in
      if keep : bool then
        let! y := f x in
        let! ys := comprehension c f xs' in
        Ok (y :: ys)
      else comprehension c f xs'
  end.

(** [enumerate(xs)]. *)
Definition enumerate {A} (xs : list A) : list (nat * A) := imap pair xs.

(** ** Scalars

    Tensor entries are floating-point numbers in the program.  The model
    code only adds, squares and compares them, so the embedding is
    parametric in the scalar type. *)

Class Scalar (T : Type) := {
  szero : T;
  sadd : T → T → T;
  ssquare : T → T;          (* [torch.pow(x, 2)] *)
  sltb : T → T → bool;      (* strict comparison used by [argmax] *)
  snonzero : T → bool;      (* [x != 0.0] *)
}.

#[export] Instance Z_scalar : Scalar Z := {|
  szero := 0%Z;
  sadd := Z.add;
  ssquare := λ x, (x * x)%Z;
  sltb := Z.ltb;
  snonzero := λ x, negb (x =? 0)%Z;
|}.

(** ** Tensors

    A tensor carries its shape next to its entries, so that [t.shape[k]]
    is defined for tensors without rows as well; [tolist] is the nested
    list that [Tensor.tolist()] returns. *)

Record Tensor (D : Type) : Type := mkTensor {
  shape : list nat;
  tolist : D;
}.
Arguments mkTensor {D} shape tolist.
Arguments shape {D} t.
Arguments tolist {D} t.

Abbreviation Tensor1 T := (Tensor (list T)).
Abbreviation Tensor2 T := (Tensor (list (list T))).
Abbreviation Tensor3 T := (Tensor (list (list (list T)))).

Definition rows2 {T} (n m : nat) (d : list (list T)) : Prop :=
  length d = n ∧ Forall (λ v, length v = m) d.

Definition rows3 {T} (b s f : nat) (d : list (list (list T))) : Prop :=
  length d = b ∧ Forall (rows2 s f) d.

Definition shaped1 {T} (n : nat) (t : Tensor1 T) : Prop :=
  shape t = [n] ∧ length (tolist t) = n.

Definition shaped2 {T} (n m : nat) (t : Tensor2 T) : Prop :=
  shape t = [n; m] ∧ rows2 n m (tolist t).

Definition shaped3 {T} (b s f : nat) (t : Tensor3 T) : Prop :=
  shape t = [b; s; f] ∧ rows3 b s f (tolist t).

(** [numel]: the number of entries. *)
Definition numel {D} (t : Tensor D) : nat := foldr Nat.mul 1 (shape t).

(** Python's truth value of an [int]. *)
Definition truthy (n : nat) : bool := negb (n =? 0).

(** [for _ in range(n): s = body(s)]. *)
Fixpoint for_range {S} (n : nat) (body : S → result S) (s : S) : result S :=
  match n with
  | 0 => Ok s
  | S n' => let! s' := body s in for_range n' body s'
  end.

(** Row-major regrouping of a flat list into [count] rows of [k] entries. *)
Definition regroup {A} (count k : nat) (l : list A) : list (list A) :=
  (λ i, take k (drop (i * k) l)) <$> seq 0 count.

(** An index into a dimension of [size] entries; negative indices count
    from the end. *)
Definition tensor_index (k : Z) (size : nat) : result nat :=
  if decide (0 ≤ k < Z.of_nat size)%Z then Ok (Z.to_nat k)
  else if decide (- Z.of_nat size ≤ k < 0)%Z then
    Ok (Z.to_nat (Z.of_nat size + k))
  else Raise IndexError.

Section tensor_ops.
Context {A : Type}.

(** [t[:, k]] on a 2-d tensor. *)
Definition column (t : Tensor2 A) (k : Z) : result (Tensor1 A) :=
  match shape t with
  | [n; m] =>
      let! k := tensor_index k m in
      let! col := for_each (λ row, list_get row k) (tolist t) in
      Ok (mkTensor [n] col)
  | _ => Raise IndexError
  end.

(** [t[:, k, :]] on a 3-d tensor. *)
Definition select_dim1 (t : Tensor3 A) (k : Z) : result (Tensor2 A) :=
  match shape t with
  | [n; s; f] =>
      let! k := tensor_index k s in
      let! d := for_each (λ m, list_get m k) (tolist t) in
      Ok (mkTensor [n; f] d)
  | _ => Raise IndexError
  end.

(** [torch.cat((a, b), dim=1)] on 2-d tensors. *)
Definition cat2_dim1 (a b : Tensor2 A) : result (Tensor2 A) :=
  match shape a, shape b with
  | [n; f], [n'; f'] =>
      if decide (n = n') then
        Ok (mkTensor [n; f + f'] (zip_with app (tolist a) (tolist b)))
      else Raise RuntimeError
  | _, _ => Raise RuntimeError
  end.

(** [torch.cat((a, b), dim=1)] on 3-d tensors. *)
Definition cat_dim1 (a b : Tensor3 A) : result (Tensor3 A) :=
  match shape a, shape b with
  | [n; s; f], [n'; s'; f'] =>
      if decide (n = n' ∧ f = f') then
        Ok (mkTensor [n; s + s'; f] (zip_with app (tolist a) (tolist b)))
      else Raise RuntimeError
  | _, _ => Raise RuntimeError
  end.

(** [torch.cat((a, b), dim=2)] on 3-d tensors. *)
Definition cat_pair_dim2 (a b : Tensor3 A) : result (Tensor3 A) :=
  match shape a, shape b with
  | [n; s; f], [n'; s'; f'] =>
      if decide (n = n' ∧ s = s') then
        Ok (mkTensor [n; s; f + f']
              (zip_with (zip_with app) (tolist a) (tolist b)))
      else Raise RuntimeError
  | _, _ => Raise RuntimeError
  end.

(** [torch.cat(ts, dim=2)] on a list of 3-d tensors; the list must not be
    empty. *)
Fixpoint cat_dim2_onto (acc : Tensor3 A) (ts : list (Tensor3 A))
    : result (Tensor3 A) :=
  match ts with
  | [] => Ok acc
  | t :: ts' => let! acc' := cat_pair_dim2 acc t in cat_dim2_onto acc' ts'
  end.

Definition cat_dim2 (ts : list (Tensor3 A)) : result (Tensor3 A) :=
  match ts with
  | [] => Raise RuntimeError
  | t :: ts' => cat_dim2_onto t ts'
  end.

(** [t.unsqueeze(1)] on a 2-d tensor. *)
Definition unsqueeze1 (t : Tensor2 A) : result (Tensor3 A) :=
  match shape t with
  | [n; f] => Ok (mkTensor [n; 1; f] ((λ v, [v]) <$> tolist t))
  | _ => Raise IndexError
  end.

(** [t.reshape(shape=(-1, f))] on a 3-d tensor: the inferred dimension must
    exist and be unique. *)
Definition reshape_rows (t : Tensor3 A) (f : nat) : result (Tensor2 A) :=
  if decide (f = 0) then Raise RuntimeError
  else if decide (numel t mod f = 0) then
    let n := numel t / f in
    Ok (mkTensor [n; f] (regroup n f (concat (concat (tolist t)))))
  else Raise RuntimeError.

(** [t.reshape((1, n, f))] on a 2-d tensor of shape [(n, f)]. *)
Definition reshape_hidden (t : Tensor2 A) : result (Tensor3 A) :=
  match shape t with
  | [n; f] => Ok (mkTensor [1; n; f] [tolist t])
  | _ => Raise RuntimeError
  end.

(** [t.view(size=(b, -1, c))] on a 2-d tensor. *)
Definition view_sentences (t : Tensor2 A) (b c : nat) : result (Tensor3 A) :=
  if decide (b * c = 0) then Raise RuntimeError
  else if decide (numel t mod (b * c) = 0) then
    let s := numel t / (b * c) in
    Ok (mkTensor [b; s; c]
          (regroup b s (regroup (b * s) c (concat (tolist t)))))
  else Raise RuntimeError.

(** [t.shape[k]]. *)
Definition shape_at {D} (t : Tensor D) (k : nat) : result nat :=
  list_get (shape t) k.
End tensor_ops.

Section argmax.
Context {T : Type} `{Scalar T}.

(** Index of the first maximal entry. *)
Fixpoint argmax_from (best_i : nat) (best : T) (i : nat) (v : list T) : nat :=
  match v with
  | [] => best_i
  | x :: v' =>
      if sltb best x then argmax_from i x (S i) v'
      else argmax_from best_i best (S i) v'
  end.

Definition argmax (v : list T) : nat :=
  match v with
  | [] => 0
  | x :: v' => argmax_from 0 x 1 v'
  end.

(** [t.argmax(dim=2)] on a 3-d tensor: reducing an empty dimension raises. *)
Definition argmax_dim2 (t : Tensor3 T) : result (Tensor2 nat) :=
  match shape t with
  | [b; s; f] =>
      if decide (f = 0) then Raise IndexError
      else Ok (mkTensor [b; s] (map (map argmax) (tolist t)))
  | _ => Raise IndexError
  end.

(** [t.argmax(dim=1)] on a 2-d tensor. *)
Definition argmax_dim1 (t : Tensor2 T) : result (Tensor1 nat) :=
  match shape t with
  | [n; f] =>
      if decide (f = 0) then Raise IndexError
      else Ok (mkTensor [n] (map argmax (tolist t)))
  | _ => Raise IndexError
  end.

(** [bool(t)]: defined for one-entry tensors only. *)
Definition tensor_bool (t : Tensor3 T) : result bool :=
  match concat (concat (tolist t)) with
  | [x] => Ok (snonzero x)
  | _ => Raise RuntimeError
  end.
End argmax.

(** ** Sentences, vocabulary and the batch dictionary *)

Abbreviation Sentence := (list string).
Abbreviation Sentences := (list (list string)).

(** [core.VocabMap]: the class lives in [core.py]; the model uses its two
    dictionaries, its length and the reserved symbols and indices. *)
Record VocabMap : Type := {
  w2i : gmap string nat;
  i2w : gmap nat string;
  vocab_len : nat;          (* [len(vocab_map)] *)
  PAD_ID : nat;
  UNK_ID : nat;
  SOS_ID : nat;
  EOS_ID : nat;
  EOS : string;
}.

(** [i2w] has an entry for every index below [len(vocab_map)]. *)
Definition i2w_total (vm : VocabMap) : Prop :=
  ∀ i, i < vocab_len vm → is_Some (i2w vm !! i).

(** The batch dictionary, keyed by [BATCH_KEYS]; an absent key is [None]. *)
Record Batch : Type := {
  TOKENS : option Sentences;
  LENGTHS : option (list nat);
  LEMMAS : option Sentences;
  FULL_TAGS : option Sentences;
  TARGET_LEMMAS : option (Tensor2 nat);
  TARGET_FULL_TAGS : option (Tensor2 nat);
}.

(** [batch[KEY]]. *)
Definition batch_get {A} (field : option A) : result A :=
  match field with
  | Some a => Ok a
  | None => Raise KeyError
  end.

(** [self.name] for an attribute that [__init__] sets on some paths only. *)
Definition attribute {A} (field : option A) : result A :=
  match field with
  | Some a => Ok a
  | None => Raise AttributeError
  end.

(** [KEY in batch]. *)
Definition has_key {A} (field : option A) : bool :=
  match field with
  | Some _ => true
  | None => false
  end.

(** The predicted lemma of a character-index sequence, as the specification
    words it: drop the PAD, UNK and SOS indices, read the remaining indices
    as symbols, cut at the first EOS (exclusive), join. *)
Definition symbol (vm : VocabMap) (i : nat) : string :=
  default EmptyString (i2w vm !! i).

Definition kept_symbols (vm : VocabMap) (char_idxs : list nat) : list string :=
  symbol vm <$>
    filter (λ i, i ≠ PAD_ID vm ∧ i ≠ UNK_ID vm ∧ i ≠ SOS_ID vm) char_idxs.

Fixpoint truncate_at (eos : string) (chars : list string) : list string :=
  match chars with
  | [] => []
  | c :: chars' => if decide (c = eos) then [] else c :: truncate_at eos chars'
  end.

Definition predicted_lemma (vm : VocabMap) (char_idxs : list nat) : string :=
  String.concat EmptyString (truncate_at (EOS vm) (kept_symbols vm char_idxs)).

(** ** Tagger: the classification head *)

Module Tagger.
Section tagger.
Context {T : Type} `{Scalar T}.

Record t : Type := mk {
  vocab_map : VocabMap;
  weight : nat;
}.

Definition output_dim (self : t) : nat := vocab_len (vocab_map self).

(** The inner generator of [postprocess]: the tags of one sentence. *)
Definition sentence_tags (self : t) (lengths : list nat)
    (sent_idx : nat) (sent : list nat) : result (list string) :=
  comprehension
    (λ '(token_count, _),
       let! n := list_get lengths sent_idx in
       Ok (bool_decide (token_count < n)))
    (λ '(_, tag_idx), dict_get (i2w (vocab_map self)) tag_idx)
    (enumerate sent).

Definition postprocess (self : t) (batch : Tensor3 T) (lengths : list nat)
    : result (list (list string)) :=
  let! idxs := argmax_dim2 batch in
  for_each (λ '(sent_idx, sent), sentence_tags self lengths sent_idx sent)
           (enumerate (tolist idxs)).

(** *** A call of [postprocess] on the caller's objects

    The mutable objects the method can reach: [self] with its vocabulary
    and the two arguments.  The method is written once more as a sequence
    of steps on this store, one step per operation the source performs on
    one of the objects; a step returns its value, or the exception, and
    the store it leaves behind. *)
Record Store : Type := {
  store_self : t;
  store_batch : Tensor3 T;
  store_lengths : list nat;
}.

Definition Call (A : Type) : Type := Store → result A * Store.

Definition call_ret {A} (a : A) : Call A := λ σ, (Ok a, σ).

Definition call_bind {A B} (m : Call A) (k : A → Call B) : Call B :=
  λ σ, match m σ with
       | (Ok a, σ') => k a σ'
       | (Raise e, σ') => (Raise e, σ')
       end.

(** [batch.argmax(dim=2).tolist()]: [argmax] allocates its result and
    [tolist] copies it into a fresh list. *)
Definition call_argmax_tolist : Call (list (list nat)) :=
  λ σ, (let! idxs := argmax_dim2 (store_batch σ) in Ok (tolist idxs), σ).

(** [lengths[sent_idx]]. *)
Definition call_lengths_getitem (sent_idx : nat) : Call nat :=
  λ σ, (list_get (store_lengths σ) sent_idx, σ).

(** [self.vocab_map.i2w[tag_idx]]. *)
Definition call_i2w_getitem (tag_idx : nat) : Call string :=
  λ σ, (dict_get (i2w (vocab_map (store_self σ))) tag_idx, σ).

(** Comprehensions whose condition and body are steps. *)
Fixpoint call_for_each {A B} (f : A → Call B) (xs : list A)
    : Call (list B) :=
  match xs with
  | [] => call_ret []
  | x :: xs' =>
      call_bind (f x) (λ y,
      call_bind (call_for_each f xs') (λ ys,
      call_ret (y :: ys)))
  end.

Fixpoint call_comprehension {A B} (c : A → Call bool) (f : A → Call B)
    (xs : list A) : Call (list B) :=
  match xs with
  | [] => call_ret []
  | x :: xs' =>
      call_bind (c x) (λ keep : bool,
      if keep then
        call_bind (f x) (λ y,
        call_bind (call_comprehension c f xs') (λ ys,
        call_ret (y :: ys)))
      else call_comprehension c f xs')
  end.

(** [postprocess], step by step. *)
Definition call_postprocess : Call (list (list string)) :=
  call_bind call_argmax_tolist (λ idxs,
  call_for_each
    (λ '(sent_idx, sent),
       call_comprehension
         (λ '(token_count, _),
            call_bind (call_lengths_getitem sent_idx) (λ n,
            call_ret (bool_decide (token_count < n))))
         (λ '(_, tag_idx), call_i2w_getitem tag_idx)
         (enumerate sent))
    (enumerate idxs)).
End tagger.
End Tagger.

(** ** GRUDecoder: the character-generation head *)

Module GRUDecoder.
Section decoder.
Context {T : Type} `{Scalar T}.

(** [data.map_to_chars_batch(sentences, w2i, add_sos=...)]; the last
    argument is [None] where the call leaves [add_sos] to its default. *)
Variable map_to_chars_batch :
  Sentences → gmap string nat → option bool → result (Tensor2 nat).

(** The decoder and its sub-modules.  [dropout] draws from the tensor
    library's generator, identified here by the number of the call. *)
Record t : Type := mk {
  vocab_map : VocabMap;
  teacher_forcing : T;
  hidden_dim : nat;
  weight : nat;
  embedding : Tensor1 nat → result (Tensor2 T);
  dropout : nat → Tensor2 T → Tensor2 T;
  rnn : Tensor3 T → Tensor3 T → result (Tensor3 T * Tensor3 T);
  fc_out : Tensor3 T → result (Tensor3 T);
}.

Definition output_dim (self : t) : nat := vocab_len (vocab_map self).

Definition illegal_chars_output (self : t) : gset nat :=
  {[ SOS_ID (vocab_map self); PAD_ID (vocab_map self);
     UNK_ID (vocab_map self) ]}.

(** [chars.index(x)]. *)
Fixpoint list_index (x : string) (chars : list string) : result nat :=
  match chars with
  | [] => Raise (ValueError "x not in list")
  | c :: chars' =>
      if decide (c = x) then Ok 0
      else let! k := list_index x chars' in Ok (S k)
  end.

Definition map_lemma_from_char_idx (self : t) (char_idxs : list nat)
    : result string :=
  let! chars :=
    comprehension
      (λ char_idx, Ok (bool_decide (char_idx ∉ illegal_chars_output self)))
      (λ char_idx, dict_get (i2w (vocab_map self)) char_idx)
      char_idxs in
  let! chars :=
    if bool_decide (EOS (vocab_map self) ∈ chars) then
      let! eos_idx := list_index (EOS (vocab_map self)) chars in
      Ok (take eos_idx chars)
    else Ok chars in
  Ok (String.concat EmptyString chars).

Definition map_sentence_chars (self : t) (sent : list (list nat))
    (sent_length : nat) : result (list string) :=
  for_each
    (λ tok_num,
       let! idxs := list_get sent tok_num in
       map_lemma_from_char_idx self idxs)
    (seq 0 sent_length).

Definition postprocess (self : t) (batch : Tensor3 T) (lengths : list nat)
    : result (list (list string)) :=
  let! char_preds := argmax_dim2 batch in
  let! last := shape_at char_preds 1 in
  let! sent_char_preds := view_sentences char_preds (length lengths) last in
  let as_list := tolist sent_char_preds in
  for_each (λ '(sent, sent_length), map_sentence_chars self sent sent_length)
           (zip as_list lengths).

(** [add_targets] mutates the batch dictionary; here it returns the new
    dictionary. *)
Definition add_targets (self : t) (batch : Batch) : result Batch :=
  match LEMMAS batch with
  | Some lemmas =>
      let! target :=
        map_to_chars_batch lemmas (w2i (vocab_map self)) (Some false) in
      Ok {| TOKENS := TOKENS batch; LENGTHS := LENGTHS batch;
            LEMMAS := LEMMAS batch; FULL_TAGS := FULL_TAGS batch;
            TARGET_LEMMAS := Some target;
            TARGET_FULL_TAGS := TARGET_FULL_TAGS batch |}
  | None => Ok batch
  end.

(** [random.random()]: the generator is a sequence of samples and a
    position in it. *)
Record Rng : Type := {
  samples : nat → T;
  position : nat;
}.

Definition random (g : Rng) : T * Rng :=
  (samples g (position g),
   {| samples := samples g; position := S (position g) |}).

Definition _get_char_input_next_timestep (vocab_map : VocabMap)
    (batch : Batch) (previous_predictions : option (Tensor3 T))
    (teacher_forcing : T) (g : Rng) : result (Tensor1 nat * Rng) :=
  match previous_predictions with
  | None =>
      let! tokens := batch_get (TOKENS batch) in
      let! chars := map_to_chars_batch tokens (w2i vocab_map) None in
      let! first := column chars 0%Z in
      Ok (first, g)
  | Some previous_predictions =>
      let! steps := shape_at previous_predictions 1 in
      let previous_timestep := (Z.of_nat steps - 1)%Z in
      let own_prediction g :=
        let! last := select_dim1 previous_predictions previous_timestep in
        let! best := argmax_dim1 last in
        Ok (best, g) in
      if has_key (TARGET_LEMMAS batch) then
        let '(r, g) := random g in
        if sltb r teacher_forcing then
          let! target := batch_get (TARGET_LEMMAS batch) in
          let! gold := column target previous_timestep in
          Ok (gold, g)
        else own_prediction g
      else own_prediction g
  end.

(** The variables of the generation loop. *)
Record Loop : Type := {
  predictions : option (Tensor3 T);
  hidden : Tensor3 T;
  rng : Rng;
  dropout_calls : nat;
}.

(** One iteration of the loop over the target characters. *)
Definition decode_step (self : t) (batch : Batch) (context : Tensor2 T)
    (st : Loop) : result Loop :=
  let! (next_char_input, g) :=
    _get_char_input_next_timestep (vocab_map self) batch (predictions st)
      (teacher_forcing self) (rng st) in
  let! embedded := embedding self next_char_input in
  let emb_chars := dropout self (dropout_calls st) embedded in
  let! joined := cat2_dim1 emb_chars context in
  let! gru_in := unsqueeze1 joined in
  let! (output, hidden') := rnn self gru_in (hidden st) in
  let! fc_in := cat_pair_dim2 gru_in output in
  let! prediction := fc_out self fc_in in
  let! predictions' :=
    match predictions st with
    | None => Ok prediction
    | Some predictions => cat_dim1 predictions prediction
    end in
  Ok {| predictions := Some predictions'; hidden := hidden'; rng := g;
        dropout_calls := S (dropout_calls st) |}.

(** [decode] up to the first [n] iterations of its loop, with the loop
    variables. *)
Definition decode_iterations (self : t) (encoded : Tensor3 T) (batch : Batch)
    (g : Rng) (n : nat) : result Loop :=
  let! width := shape_at encoded 2 in
  let! context := reshape_rows encoded width in
  let! hidden := reshape_hidden context in
  let st := {| predictions := None; hidden := hidden; rng := g;
               dropout_calls := 0 |} in
  for_range n (decode_step self batch context) st.

(** [decode] up to the end of its loop: one iteration per target character
    when the targets are in the batch, none otherwise. *)
Definition decode_loop (self : t) (encoded : Tensor3 T) (batch : Batch)
    (g : Rng) : result Loop :=
  if has_key (TARGET_LEMMAS batch) then
    let! target := batch_get (TARGET_LEMMAS batch) in
    let! steps := shape_at target 1 in
    decode_iterations self encoded batch g steps
  else decode_iterations self encoded batch g 0.

Definition decode (self : t) (encoded : Tensor3 T) (batch : Batch)
    (g : Rng) : result (option (Tensor3 T)) :=
  let! st := decode_loop self encoded batch g in
  Ok (predictions st).

(** [Decoder.forward]. *)
Definition forward (self : t) (encoded : Tensor3 T) (batch : Batch)
    (g : Rng) : result (option (Tensor3 T)) :=
  let! batch := add_targets self batch in
  decode self encoded batch g.
(** The input the decoder feeds to its embedding at the iteration that
    follows the loop state [st]. *)
Definition next_input (self : t) (batch : Batch) (st : Loop)
    : result (Tensor1 nat) :=
  let! (chars, _) :=
    _get_char_input_next_timestep (vocab_map self) batch (predictions st)
      (teacher_forcing self) (rng st) in
  Ok chars.

(** Every entry of an index tensor is a valid index into [V] symbols. *)
Definition below (V : nat) (t : Tensor1 nat) : Prop :=
  Forall (λ i, i < V) (tolist t).

Definition rows_below (V : nat) (t : Tensor2 nat) : Prop :=
  Forall (Forall (λ i, i < V)) (tolist t).

(** The sub-modules accept [N] tokens with contexts of width [E] and
    produce logits over [V] characters: the character embedding of width
    [emb_dim], the GRU with input width [emb_dim + E] and hidden width [E],
    and the output projection. *)
Record layers_shaped (self : t) (N E V emb_dim : nat) : Prop := {
  embedding_shaped : ∀ chars,
    shaped1 N chars → below V chars →
    ∃ e, embedding self chars = Ok e ∧ shaped2 N emb_dim e;
  dropout_shaped : ∀ k x,
    shaped2 N emb_dim x → shaped2 N emb_dim (dropout self k x);
  rnn_shaped : ∀ x h,
    shaped3 N 1 (emb_dim + E) x → shaped3 1 N E h →
    ∃ o h', rnn self x h = Ok (o, h') ∧ shaped3 N 1 E o ∧ shaped3 1 N E h';
  fc_out_shaped : ∀ x,
    shaped3 N 1 (emb_dim + E + E) x →
    ∃ p, fc_out self x = Ok p ∧ shaped3 N 1 V p;
}.

(** A training batch for [decode]: encoder output for [b * s] tokens with
    contexts of width [E], gold target characters of shape
    [(b * s, steps)], source tokens whose character matrix has a row per
    token, and sub-modules of matching widths. *)
Record training_batch (self : t) (encoded : Tensor3 T) (batch : Batch)
    (target : Tensor2 nat) (b s E V steps emb_dim : nat) : Prop := {
  encoded_shaped : shaped3 b s E encoded;
  context_width : 0 < E;
  vocabulary_size : 0 < V;
  target_present : TARGET_LEMMAS batch = Some target;
  target_shaped : shaped2 (b * s) steps target;
  target_below : rows_below V target;
  token_chars : ∃ tokens chars C,
    TOKENS batch = Some tokens
    ∧ map_to_chars_batch tokens (w2i (vocab_map self)) None = Ok chars
    ∧ shaped2 (b * s) C chars ∧ 0 < C ∧ rows_below V chars;
  layers : layers_shaped self (b * s) E V emb_dim;
}.

(** What holds of the loop variables after [k] iterations started with the
    generator [g]: one dropout call per iteration, one sample drawn per
    iteration after the first, and [k] timesteps of logits. *)
Definition after_iterations (g : Rng) (N E V k : nat) (st : Loop) : Prop :=
  dropout_calls st = k
  ∧ samples (rng st) = samples g
  ∧ position (rng st) = position g + (k - 1)
  ∧ shaped3 1 N E (hidden st)
  ∧ match predictions st with
    | None => k = 0
    | Some p => 0 < k ∧ shaped3 N k V p
    end.
End decoder.
End GRUDecoder.

(** ** Character indices of a batch ([data.py]) *)

Module Data.

(** Modelled from the spec: the reserved symbols of [core.py], which is
    not among the sources; the spec names them PAD, UNK, SOS and EOS. *)
Definition PAD : string := "<pad>".
Definition UNK : string := "<unk>".
Definition SOS : string := "<s>".
Definition EOS : string := "</s>".

(** The characters of a token, each as a one-character symbol. *)
Fixpoint chars_of (token : string) : list string :=
  match token with
  | EmptyString => []
  | String c rest => String c EmptyString :: chars_of rest
  end.

(** Modelled from the spec: the per-token part of [map_to_chars_batch]
    ([data.py] is not among the sources).  Characters are looked up with the
    UNK fallback of section 4.1 (preprocessing defaults to UNK and never
    raises on a symbol); section 8 counts a gold lemma as its characters
    plus EOS; a start symbol is what the option [add_sos] of the callers in
    [model.py] names. *)
Definition token_to_index (w2i : gmap string nat) (add_eos add_sos : bool)
    (token : string) : result (list nat) :=
  let! sos_l := if add_sos then let! i := dict_get w2i SOS in Ok [i]
                else Ok [] in
  let! eos_l := if add_eos then let! i := dict_get w2i EOS in Ok [i]
                else Ok [] in
  let! chars :=
    for_each (λ c, match w2i !! c with
                   | Some i => Ok i
                   | None => dict_get w2i UNK
                   end) (chars_of token) in
  Ok (sos_l ++ chars ++ eos_l).

(** Right-padding of a row to [n] entries. *)
Definition pad_to {A} (n : nat) (pad : A) (row : list A) : list A :=
  row ++ replicate (n - length row) pad.

(** Modelled from the spec: [map_to_chars_batch] of [data.py], which is not
    among the sources.  Section 4.2: every token becomes a fixed-length
    character-index sequence, padded with 0, batch first; the tokens of all
    sentences are laid out as the rows of one [(b * seq, chars)] tensor, as
    [CharacterAsWordEmbedding.embed] and [GRUDecoder.postprocess] read it.
    Section 4.5: the character sequence of a source token starts with the
    token's first character, not with a start symbol, so a call that leaves
    [add_sos] out adds none. *)
Definition map_to_chars_batch (sentences : Sentences)
    (w2i : gmap string nat) (add_sos : option bool)
    : result (Tensor2 nat) :=
  let add_sos := default false add_sos in
  let! sents :=
    for_each (for_each (token_to_index w2i true add_sos)) sentences in
  if decide (sents = []) then Raise (ValueError "max() arg is empty")
  else
    let max_words := max_list (length <$> sents) in
    let max_chars := max_list (length <$> concat sents) in
    let empty_token := replicate max_chars 0 in
    Ok (mkTensor [length sents * max_words; max_chars]
          (concat ((λ sent, pad_to max_words empty_token
                              (pad_to max_chars 0 <$> sent)) <$> sents))).
End Data.

(** ** ClassingWordEmbedding: the trainable word embedding *)

Module ClassingWordEmbedding.

(** An entry of a weight table, by the initialiser that wrote it last:
    the zero fill of the padding row, the [k]-th draw of [init.normal_], or
    the [k]-th draw of the uniform distribution on [[-a, a]] with
    [a = sqrt(6 / (fan_in + fan_out))] that [xavier_uniform_] uses. *)
Inductive Weight : Type :=
| W_zero
| W_normal (k : nat)
| W_xavier (fan_in fan_out k : nat).

(** [nn.Embedding(num_embeddings, embedding_dim, padding_idx=padding_idx)]:
    normal initialisation, then the padding row is filled with zeros. *)
Definition nn_Embedding (num_embeddings embedding_dim padding_idx : nat)
    : result (list (list Weight)) :=
  if decide (0 < padding_idx ∧ ¬ padding_idx < num_embeddings)
  then Raise AssertionError
  else
    let weight :=
      (λ r, (λ c, W_normal (r * embedding_dim + c)) <$> seq 0 embedding_dim)
        <$> seq 0 num_embeddings in
    if decide (padding_idx < num_embeddings) then
      Ok (<[padding_idx := replicate embedding_dim W_zero]> weight)
    else Raise IndexError.

(** [nn.init.xavier_uniform_(tensor)] on a 2-d tensor with [cols] columns:
    every entry is overwritten in place. *)
Definition xavier_uniform_ (cols : nat) (tensor : list (list Weight))
    : result (list (list Weight)) :=
  let fan_in := cols in
  let fan_out := length tensor in
  if decide (fan_in + fan_out = 0) then Raise ZeroDivisionError
  else
    Ok (imap (λ r row,
                imap (λ c _, W_xavier fan_in fan_out (r * cols + c)) row)
             tensor).

Record t : Type := mk {
  vocab_map : VocabMap;
  pass_to_bilstm : bool;
  weight : list (list Weight);      (* [self.embedding.weight] *)
}.

(** [__init__]: [weight[1:, :]] is a view of the table, so the Xavier
    initialisation is written into rows [1..] of the table itself. *)
Definition init (vocab_map : VocabMap) (embedding_dim padding_idx : nat)
    (pass_to_bilstm : bool) : result t :=
  let! weight :=
    nn_Embedding (vocab_len vocab_map) embedding_dim padding_idx in
  let! tail := xavier_uniform_ embedding_dim (drop 1 weight) in
  Ok (mk vocab_map pass_to_bilstm (take 1 weight ++ tail)).

Definition to_bilstm (self : t) : bool := pass_to_bilstm self.

(** [embedding(input)] ([F.embedding]): the rows of the table at the
    indices of [input], in a tensor with one more dimension; an index
    beyond the table raises. *)
Definition nn_Embedding_forward {W} (weight : list (list W))
    (embedding_dim : nat) (input : Tensor2 nat) : result (Tensor3 W) :=
  let! rows := for_each (for_each (list_get weight)) (tolist input) in
  Ok (mkTensor (shape input ++ [embedding_dim]) rows).

(** [output_dim]: [self.embedding.weight.data.shape[1]].  The table is
    held by its rows; a table that [nn_Embedding] returned has the padding
    row. *)
Definition output_dim (self : t) : nat :=
  match weight self with
  | row :: _ => length row
  | [] => 0
  end.

(** [embed]: the lengths are not used. *)
Definition embed (self : t) (batch : Tensor2 nat) (lengths : list nat)
    : result (Tensor3 Weight) :=
  nn_Embedding_forward (weight self) (output_dim self) batch.
End ClassingWordEmbedding.

(** ** PretrainedEmbedding: a word embedding over a given table *)

Module PretrainedEmbedding.
Section pretrained.
Context {T : Type}.

Record t : Type := mk {
  vocab_map : VocabMap;
  pass_to_bilstm : bool;
  weight : Tensor2 T;        (* [self.embedding.weight] *)
  requires_grad : bool;      (* [self.embedding.weight.requires_grad] *)
}.

(** [nn.Embedding.from_pretrained(embeddings, freeze=freeze,
    padding_idx=padding_idx)]: the table is the given tensor, which must be
    2-d; it is not initialised, so no row is filled with zeros. *)
Definition from_pretrained (embeddings : Tensor2 T) (freeze : bool)
    (padding_idx : nat) : result (Tensor2 T * bool) :=
  match shape embeddings with
  | [rows; cols] =>
      if decide (0 < padding_idx ∧ ¬ padding_idx < rows)
      then Raise AssertionError
      else Ok (embeddings, negb freeze)
  | _ => Raise AssertionError
  end.

(** [__init__]: the parent builds a table of width 1 over the vocabulary,
    which is then replaced. *)
Definition init (vocab_map : VocabMap) (embeddings : Tensor2 T)
    (freeze : bool) (padding_idx : nat) (pass_to_bilstm : bool) : result t :=
  let! parent :=
    ClassingWordEmbedding.init vocab_map 1 padding_idx pass_to_bilstm in
  let! (weight, requires_grad) :=
    from_pretrained embeddings freeze padding_idx in
  Ok (mk (ClassingWordEmbedding.vocab_map parent)
         (ClassingWordEmbedding.pass_to_bilstm parent) weight requires_grad).

(** The inherited [output_dim] and [embed]. *)
Definition output_dim (self : t) : result nat := shape_at (weight self) 1.

Definition embed (self : t) (batch : Tensor2 nat) (lengths : list nat)
    : result (Tensor3 T) :=
  let! embedding_dim := shape_at (weight self) 1 in
  ClassingWordEmbedding.nn_Embedding_forward (tolist (weight self))
    embedding_dim batch.
End pretrained.
End PretrainedEmbedding.

(** ** CharacterAsWordEmbedding: a token embedded through its characters *)

(** [t.reshape(b, -1, c)] on a 2-d tensor: the entries in row-major order,
    as [view] gives them; [reshape] copies where [view] would reject the
    memory layout of a slice. *)
Definition reshape_sentences {A} (t : Tensor2 A) (b c : nat)
    : result (Tensor3 A) :=
  view_sentences t b c.

Module CharacterAsWordEmbedding.
Section characters.
Context {T : Type}.

Record t : Type := mk {
  vocab_map : VocabMap;
  pass_to_bilstm : bool;
  character_embedding : Tensor2 nat → result (Tensor3 T);
  char_bilstm : Tensor3 T → result (Tensor3 T);  (* [out]; states dropped *)
  _output_dim : nat;
}.

(** [embed]: one row of [batch] per token slot, one column per character
    position. *)
Definition embed (self : t) (batch : Tensor2 nat) (lengths : list nat)
    : result (Tensor3 T) :=
  let! char_embs := character_embedding self batch in
  let! out := char_bilstm self char_embs in
  let! last_timestep := select_dim1 out (-1)%Z in
  let! last_dim := tensor_index (-1)%Z (length (shape out)) in
  let! features := shape_at out last_dim in
  reshape_sentences last_timestep (length lengths) features.

Definition to_bilstm (self : t) : bool := pass_to_bilstm self.

Definition output_dim (self : t) : nat := _output_dim self.
End characters.
End CharacterAsWordEmbedding.

(** ** Packed sequences ([torch.nn.utils.rnn])

    A packed sequence is represented by what it holds: the sequences of the
    batch without their padding, in batch order, and the feature width.
    The time-major layout and the sort permutation that the library keeps
    inside the object are not observable through the two functions
    below. *)

Record PackedSequence (T : Type) : Type := {
  sequences : list (list (list T));
  features : nat;
}.
Arguments sequences {T} p.
Arguments features {T} p.

Section packing.
Context {T : Type} `{Scalar T}.

(** [pack_padded_sequence(input, lengths, batch_first=True,
    enforce_sorted=False)] on one length per sequence, which is how
    [pack_sequence] calls it and what the data pipeline guarantees the
    encoder (section 6): the input is not empty and every length is
    positive and within the padded length.  With another number of lengths
    the library first selects the rows by the sorted lengths; here that
    call is an error and nothing is proved from it. *)
Definition pack_padded_sequence (input : Tensor3 T) (lengths : list nat)
    : result (PackedSequence T) :=
  match shape input with
  | [b; s; f] =>
      if decide (numel input ≠ 0 ∧ length lengths = b
                 ∧ Forall (λ n, 0 < n ∧ n ≤ s) lengths)
      then Ok {| sequences := zip_with take lengths (tolist input);
                 features := f |}
      else Raise RuntimeError
  | _ => Raise RuntimeError
  end.

(** [pad_packed_sequence(packed, batch_first=True)]: pads with zeros up to
    the longest sequence and returns the lengths as well. *)
Definition pad_packed_sequence (packed : PackedSequence T)
    : Tensor3 T * Tensor1 nat :=
  let lengths := length <$> sequences packed in
  let max_len := max_list lengths in
  let zeros := replicate (features packed) szero in
  (mkTensor [length (sequences packed); max_len; features packed]
     ((λ sq, sq ++ replicate (max_len - length sq) zeros)
        <$> sequences packed),
   mkTensor [length lengths] lengths).

(** [torch.sum(torch.pow(t, 2), dim=2)]. *)
Definition sum_squares (v : list T) : T := foldr sadd szero (ssquare <$> v).

Definition sum_pow2_dim2 (t : Tensor3 T) : Tensor2 T :=
  mkTensor (take 2 (shape t)) (map (map sum_squares) (tolist t)).

(** [torch.sum(t != 0.0, dim=1)]. *)
Definition count_nonzero_dim1 (t : Tensor2 T) : Tensor1 nat :=
  mkTensor (take 1 (shape t))
           ((λ row, length (filter (λ x, snonzero x = true) row))
              <$> tolist t).

Definition pack_sequence (padded_sequence : Tensor3 T)
    : result (PackedSequence T * Tensor1 nat) :=
  let lengths := sum_pow2_dim2 padded_sequence in
  let lengths := count_nonzero_dim1 lengths in
  let! packed := pack_padded_sequence padded_sequence (tolist lengths) in
  Ok (packed, lengths).

Definition unpack_sequence (packed_sequence : PackedSequence T) : Tensor3 T :=
  (pad_packed_sequence packed_sequence).1.

(** What the scalar operations do on zero. *)
Class ZeroLaws : Prop := {
  square_zero : ssquare szero = szero;
  add_zero : sadd szero szero = szero;
  nonzero_zero : snonzero szero = false;
}.

(** A feature vector with an entry other than zero. *)
Definition nonzero_vector (v : list T) : Prop :=
  Exists (λ x, snonzero x = true) v.

(** A batch-first tensor with [f] features whose sequence [i] has
    [lens[i]] true timesteps, each satisfying [true_timestep], followed by
    zero vectors only. *)
Definition right_padded (true_timestep : list T → Prop) (f : nat)
    (x : Tensor3 T) (lens : list nat) : Prop :=
  ∀ i sq n j v,
    tolist x !! i = Some sq → lens !! i = Some n → sq !! j = Some v →
    if decide (j < n) then true_timestep v else v = replicate f szero.

(** A timestep that [pack_sequence] counts: its sum of squares, as
    computed, is not zero. *)
Definition counted (v : list T) : Prop := snonzero (sum_squares v) = true.
End packing.

(** ** Encoder *)

(** The names of the embedding and decoder modules. *)
Inductive Modules : Type :=
| Pretrained | Trained | MorphLex | CharactersToTokens | BiLSTM | BERT
| TaggerModule | Lemmatizer.

(** [name in s] on strings. *)
Fixpoint contains (sub s : string) : bool :=
  String.prefix sub s ||
  match s with
  | EmptyString => false
  | String _ s' => contains sub s'
  end.

(** What [nn.LSTM(input_size, hidden_size, num_layers,
    bidirectional=True).named_parameters()] yields, each parameter with
    its shape: per layer and direction the input and the recurrent weights
    of the four gates and their two biases; a layer after the first reads
    both directions of the layer below. *)
Definition lstm_named_parameters (input_size hidden_size num_layers : nat)
    : list (string * list nat) :=
  layer ← seq 0 num_layers;
  suffix ← [EmptyString; "_reverse"];
  let layer_input := if layer =? 0 then input_size else 2 * hidden_size in
  (λ '(kind, shape), (kind +:+ "_l" +:+ pretty layer +:+ suffix, shape))
    <$> [("weight_ih", [4 * hidden_size; layer_input]);
         ("weight_hh", [4 * hidden_size; hidden_size]);
         ("bias_ih", [4 * hidden_size]);
         ("bias_hh", [4 * hidden_size])].

(** [nn.init.xavier_uniform_(param)] on a parameter of the given shape, as
    far as it can raise: the fans are the first two sizes, each times the
    product of the others, and the bound of the distribution divides by
    their sum. *)
Definition xavier_uniform_fans (shape : list nat) : result unit :=
  match shape with
  | fan_out :: fan_in :: rest =>
      let receptive_field := foldr Nat.mul 1 rest in
      if decide (fan_in * receptive_field + fan_out * receptive_field = 0)
      then Raise ZeroDivisionError
      else Ok tt
  | _ =>
      Raise (ValueError "Fan in and fan out can not be computed for tensor with fewer than 2 dimensions")
  end.

Module Encoder.
Section encoder.
Context {T : Type} `{Scalar T}.

(** The [Embedding] interface: what the encoder uses of an embedding. *)
Record Embedding : Type := {
  output_dim : nat;
  to_bilstm : bool;
  emb_forward : Sentences → list nat → result (Tensor3 T);
}.

(** The shared recurrent layer: its configuration and its forward pass
    on a packed sequence. *)
Record LSTM : Type := {
  input_size : nat;
  hidden_size : nat;
  num_layers : nat;
  lstm_forward : PackedSequence T → result (PackedSequence T);
}.

(** [nn.LSTM(input_size, hidden_size, num_layers, dropout=lstm_dropouts,
    batch_first=True, bidirectional=True)]: the library's constructor at
    the dropout rate of the call, which may reject its arguments. *)
Variable nn_LSTM : nat → nat → nat → result LSTM.

(** [nn.Dropout(p=input_dropouts)]. *)
Variable nn_Dropout : Tensor3 T → Tensor3 T.

Record t : Type := mk {
  embeddings : list (Modules * Embedding);   (* in insertion order *)
  use_bilstm : bool;
  bilstm : option LSTM;
  encoder_output_dim : nat;                  (* [self.output_dim] *)
}.

Definition values (embeddings : list (Modules * Embedding)) : list Embedding :=
  snd <$> embeddings.

(** The message of the configuration error. *)
Definition not_using_bilstm : string :=
  "Not using BiLSTM but Embedding is set to use BiLSTM".

(** The initialisation loop over the parameters of the recurrent layer:
    [constant_] on the biases, [xavier_uniform_] on the weights. *)
Definition init_lstm_parameters (parameters : list (string * list nat))
    : result unit :=
  let! _ :=
    for_each (λ '(name, shape),
                if contains "bias" name then Ok tt
                else if contains "weight" name then xavier_uniform_fans shape
                else Raise (ValueError "Unknown parameter in lstm={name}"))
             parameters in
  Ok tt.

(** [__init__] up to the recurrent layer (lines 507 to 541); [noise] is
    stored only.  This is all of [__init__] at the default
    [input_dropouts], which [nn.Dropout] accepts. *)
Definition init (embeddings : list (Modules * Embedding))
    (main_lstm_dim main_lstm_layers : nat) : result t :=
  let use_bilstm := negb (main_lstm_layers =? 0) in
  let encoder_out_dim :=
    sum_list (output_dim <$> filter (λ emb, to_bilstm emb = false)
                                    (values embeddings)) in
  let bilstm_in_dim :=
    sum_list (output_dim <$> filter (λ emb, to_bilstm emb = true)
                                    (values embeddings)) in
  if truthy bilstm_in_dim && negb use_bilstm
  then Raise (ValueError not_using_bilstm)
  else if use_bilstm then
    let! lstm := nn_LSTM bilstm_in_dim main_lstm_dim main_lstm_layers in
    let! _ :=
      init_lstm_parameters
        (lstm_named_parameters (input_size lstm) (hidden_size lstm)
           (num_layers lstm)) in
    Ok (mk embeddings use_bilstm (Some lstm)
           (encoder_out_dim + main_lstm_dim * 2))
  else Ok (mk embeddings use_bilstm None encoder_out_dim).

(** [nn.Dropout(p=input_dropouts)], as far as it can raise: the rate has
    to lie between 0 and 1. *)
Definition dropout_out_of_range : string :=
  "dropout probability has to be between 0 and 1, but got {p}".

Definition nn_Dropout_init (p : QArith_base.Q) : result unit :=
  if QArith_base.Qle_bool (QArith_base.Qmake 0 1) p
     && QArith_base.Qle_bool p (QArith_base.Qmake 1 1)
  then Ok tt
  else Raise (ValueError dropout_out_of_range).

(** [__init__] with its [input_dropouts]: the dropout layer is built last
    (line 542). *)
Definition init_with_dropouts (embeddings : list (Modules * Embedding))
    (main_lstm_dim main_lstm_layers : nat) (input_dropouts : QArith_base.Q)
    : result t :=
  let! self := init embeddings main_lstm_dim main_lstm_layers in
  let! _ := nn_Dropout_init input_dropouts in
  Ok self.

(** [torch.cat(ts, dim=2)] guarded by [if ts:]. *)
Definition cat_if_any (ts : list (Tensor3 T)) : result (option (Tensor3 T)) :=
  match ts with
  | [] => Ok None
  | _ => let! c := cat_dim2 ts in Ok (Some c)
  end.

(** The truth value of [embs] in [if embs:]. *)
Definition optional_tensor_bool (embs : option (Tensor3 T)) : result bool :=
  match embs with
  | None => Ok false
  | Some e => tensor_bool e
  end.

(** [forward]. *)
Definition forward (self : t) (batch : Sentences) (lengths : list nat)
    : result (option (Tensor3 T)) :=
  let! list_to_bilstm :=
    comprehension (λ emb, Ok (to_bilstm emb))
                  (λ emb, emb_forward emb batch lengths)
                  (values (embeddings self)) in
  let! embs_to_bilstm := cat_if_any list_to_bilstm in
  let! list_embs :=
    comprehension (λ emb, Ok (negb (to_bilstm emb)))
                  (λ emb, emb_forward emb batch lengths)
                  (values (embeddings self)) in
  let! embs := cat_if_any list_embs in
  match use_bilstm self, embs_to_bilstm with
  | true, Some embs_to_bilstm =>
      let! packed := pack_padded_sequence embs_to_bilstm lengths in
      let! lstm := attribute (bilstm self) in
      let! packed_out := lstm_forward lstm packed in
      let bilstm_out := (pad_packed_sequence packed_out).1 in
      let bilstm_out := nn_Dropout bilstm_out in
      let! both := optional_tensor_bool embs in
      if both then
        let! embs := batch_get embs in
        let! embs := cat_dim2 [embs; bilstm_out] in
        Ok (Some embs)
      else Ok (Some bilstm_out)
  | _, _ => Ok embs
  end.
End encoder.
End Encoder.

(** ** Example inputs *)

Module Examples.

Definition symbols_of (names : list string) : gmap nat string :=
  list_to_map (zip (seq 0 (length names)) names).

Definition indices_of (names : list string) : gmap string nat :=
  list_to_map (zip names (seq 0 (length names))).

Definition vocab_of (names : list string) : VocabMap :=
  {| w2i := indices_of names; i2w := symbols_of names;
     vocab_len := length names;
     PAD_ID := 0; UNK_ID := 1; SOS_ID := 2; EOS_ID := 3; EOS := Data.EOS |}.

(** The tag vocabulary and the logits of the scenario of section 8. *)
Definition tag_vocab : VocabMap :=
  vocab_of [Data.PAD; Data.UNK; Data.SOS; Data.EOS; "fn"; "sfg3en"; "no"].

Definition one_hot (V k : nat) : list Z :=
  (λ i, if decide (i = k) then 1%Z else 0%Z) <$> seq 0 V.

Definition tag_logits : Tensor3 Z :=
  mkTensor [2; 3; 7]
    [[one_hot 7 4; one_hot 7 5; one_hot 7 6];
     [one_hot 7 4; one_hot 7 0; one_hot 7 0]].

Definition tagger : Tagger.t := Tagger.mk tag_vocab 1.

(** A character vocabulary. *)
Definition char_vocab : VocabMap :=
  vocab_of [Data.PAD; Data.UNK; Data.SOS; Data.EOS; "a"; "b"].

(** Character logits for two sentences of one token slot and two
    characters: "a" followed by EOS, and "b" twice. *)
Definition lemma_logits : Tensor3 Z :=
  mkTensor [2; 2; 6]
    [[one_hot 6 4; one_hot 6 3]; [one_hot 6 5; one_hot 6 5]].

(** A character decoder with the simplest sub-modules of the right
    widths: embeddings of width 1, a GRU that keeps its hidden state and
    logits that always prefer index 0. *)
Definition decoder : GRUDecoder.t (T:=Z) :=
  {| GRUDecoder.vocab_map := char_vocab;
     GRUDecoder.teacher_forcing := 1%Z;
     GRUDecoder.hidden_dim := 1;
     GRUDecoder.weight := 1;
     GRUDecoder.embedding := λ chars,
       Ok (mkTensor [length (tolist chars); 1]
             ((λ i, [Z.of_nat i]) <$> tolist chars));
     GRUDecoder.dropout := λ _ x, x;
     GRUDecoder.rnn := λ x h,
       Ok (mkTensor [length (tolist x); 1; 1] ((λ _, [[0%Z]]) <$> tolist x),
           h);
     GRUDecoder.fc_out := λ x,
       Ok (mkTensor [length (tolist x); 1; 6]
             ((λ _, [one_hot 6 0]) <$> tolist x)) |}.

Definition encoded : Tensor3 Z := mkTensor [1; 1; 1] [[[0%Z]]].

(** The gold lemma "ab" followed by EOS, without a start symbol. *)
Definition gold : Tensor2 nat := mkTensor [1; 3] [[4; 5; 3]].

Definition training : Batch :=
  {| TOKENS := Some [["ab"]]; LENGTHS := Some [1]; LEMMAS := Some [["ab"]];
     FULL_TAGS := None; TARGET_LEMMAS := Some gold;
     TARGET_FULL_TAGS := None |}.

Definition inference : Batch :=
  {| TOKENS := Some [["ab"]]; LENGTHS := Some [1]; LEMMAS := None;
     FULL_TAGS := None; TARGET_LEMMAS := None; TARGET_FULL_TAGS := None |}.

(** A generator whose samples alternate between 0 and 1. *)
Definition coin : GRUDecoder.Rng (T:=Z) :=
  {| GRUDecoder.samples := λ k, if Nat.even k then 0%Z else 1%Z;
     GRUDecoder.position := 0 |}.

(** An embedding of the given width: every token is a vector of ones,
    sentences are padded with zeros to the longest one. *)
Definition embedding_of (width : nat) (routed : bool)
    : Encoder.Embedding (T:=Z) :=
  {| Encoder.output_dim := width;
     Encoder.to_bilstm := routed;
     Encoder.emb_forward := λ batch _,
       let longest := max_list (length <$> batch) in
       Ok (mkTensor [length batch; longest; width]
             ((λ sentence : list string,
                 Data.pad_to longest (replicate width 0%Z)
                   ((λ _, replicate width 1%Z) <$> sentence)) <$> batch)) |}.

(** A constructor of the recurrent layer that accepts every
    configuration, and one that rejects every configuration. *)
Definition accepting_LSTM (input_size hidden_size num_layers : nat)
    : result (Encoder.LSTM (T:=Z)) :=
  Ok {| Encoder.input_size := input_size;
        Encoder.hidden_size := hidden_size;
        Encoder.num_layers := num_layers;
        Encoder.lstm_forward := λ packed,
          Ok {| sequences :=
                  (λ sq : list (list Z),
                     (λ _, replicate (2 * hidden_size) 1%Z) <$> sq)
                    <$> sequences packed;
                features := 2 * hidden_size |} |}.

Definition rejecting_LSTM (input_size hidden_size num_layers : nat)
    : result (Encoder.LSTM (T:=Z)) :=
  Raise (ValueError "hidden_size must be greater than zero").

Definition no_dropout (t : Tensor3 Z) : Tensor3 Z := t.

(** One embedding routed to the recurrent layer and one that is not. *)
Definition mixed_embeddings : list (Modules * Encoder.Embedding (T:=Z)) :=
  [(Trained, embedding_of 2 true); (BERT, embedding_of 3 false)].

(** One embedding, not routed to the recurrent layer. *)
Definition direct_embeddings : list (Modules * Encoder.Embedding (T:=Z)) :=
  [(BERT, embedding_of 3 false)].

(** A routed embedding of width 5, and one of width 0. *)
Definition routed_embeddings : list (Modules * Encoder.Embedding (T:=Z)) :=
  [(Trained, embedding_of 5 true)].

Definition empty_routed_embeddings
    : list (Modules * Encoder.Embedding (T:=Z)) :=
  [(Trained, embedding_of 0 true)].

(** One sequence with one true timestep and one padded timestep. *)
Definition padded_everywhere : Tensor3 Z :=
  mkTensor [1; 2; 1] [[[1%Z]; [0%Z]]].

(** One sequence that is padding only. *)
Definition all_padding : Tensor3 Z := mkTensor [1; 1; 1] [[[0%Z]]].

(** Two sequences of one and two true timesteps. *)
Definition padded_batch : Tensor3 Z :=
  mkTensor [2; 2; 1] [[[1%Z]; [0%Z]]; [[2%Z]; [3%Z]]].
End Examples.

(** ** Further example inputs *)

Module MoreExamples.
Import Examples.

(** A sentence of three token slots whose second arg-max is index 9,
    beyond the tag vocabulary of seven symbols. *)
Definition stray_logits : Tensor3 Z :=
  mkTensor [1; 3; 10] [[one_hot 10 4; one_hot 10 9; one_hot 10 9]].

(** A character vocabulary without a symbol for index 5. *)
Definition gappy_vocab : VocabMap :=
  {| w2i := indices_of [Data.PAD; Data.UNK; Data.SOS; Data.EOS; "a"];
     i2w := symbols_of [Data.PAD; Data.UNK; Data.SOS; Data.EOS; "a"];
     vocab_len := 6;
     PAD_ID := 0; UNK_ID := 1; SOS_ID := 2; EOS_ID := 3; EOS := Data.EOS |}.

Definition gappy_decoder : GRUDecoder.t (T:=Z) :=
  {| GRUDecoder.vocab_map := gappy_vocab;
     GRUDecoder.teacher_forcing := 0%Z;
     GRUDecoder.hidden_dim := 1;
     GRUDecoder.weight := 1;
     GRUDecoder.embedding := GRUDecoder.embedding decoder;
     GRUDecoder.dropout := GRUDecoder.dropout decoder;
     GRUDecoder.rnn := GRUDecoder.rnn decoder;
     GRUDecoder.fc_out := GRUDecoder.fc_out decoder |}.

(** The character decoder with teacher forcing off. *)
Definition free_decoder : GRUDecoder.t (T:=Z) :=
  {| GRUDecoder.vocab_map := char_vocab;
     GRUDecoder.teacher_forcing := 0%Z;
     GRUDecoder.hidden_dim := 1;
     GRUDecoder.weight := 1;
     GRUDecoder.embedding := GRUDecoder.embedding decoder;
     GRUDecoder.dropout := GRUDecoder.dropout decoder;
     GRUDecoder.rnn := GRUDecoder.rnn decoder;
     GRUDecoder.fc_out := GRUDecoder.fc_out decoder |}.

(** Another gold lemma of the same length, and the training batch with
    it; the training batch without its tokens. *)
Definition other_gold : Tensor2 nat := mkTensor [1; 3] [[5; 5; 3]].

Definition other_training : Batch :=
  {| TOKENS := Some [["ab"]]; LENGTHS := Some [1]; LEMMAS := Some [["bb"]];
     FULL_TAGS := None; TARGET_LEMMAS := Some other_gold;
     TARGET_FULL_TAGS := None |}.

Definition tokenless : Batch :=
  {| TOKENS := None; LENGTHS := Some [1]; LEMMAS := None;
     FULL_TAGS := None; TARGET_LEMMAS := Some gold;
     TARGET_FULL_TAGS := None |}.

(** A recurrent layer of hidden width 4, and encoders that hold it: over
    the routed embedding, and over a routed and a direct embedding. *)
Definition recurrent_layer (input_size : nat) : Encoder.LSTM (T:=Z) :=
  {| Encoder.input_size := input_size;
     Encoder.hidden_size := 4;
     Encoder.num_layers := 1;
     Encoder.lstm_forward := λ packed,
       Ok {| sequences :=
               (λ sq : list (list Z), (λ _, replicate 8 1%Z) <$> sq)
                 <$> sequences packed;
             features := 8 |} |}.

Definition routed_encoder : Encoder.t (T:=Z) :=
  Encoder.mk routed_embeddings true (Some (recurrent_layer 5)) 8.

Definition mixed_encoder : Encoder.t (T:=Z) :=
  Encoder.mk mixed_embeddings true (Some (recurrent_layer 2)) 11.

(** One sequence with a zero timestep between two others. *)
Definition gap_in_the_middle : Tensor3 Z :=
  mkTensor [1; 3; 1] [[[1%Z]; [0%Z]; [2%Z]]].

(** A table of three rows of width 2, for a vocabulary of six symbols. *)
Definition pretrained_table : Tensor2 Z :=
  mkTensor [3; 2] [[7; 8]; [1; 2]; [3; 4]]%Z.

(** Indices of one sentence of two tokens. *)
Definition word_indices : Tensor2 nat := mkTensor [1; 2] [[2; 0]].

(** A character embedding of width 1 that holds the index itself, and a
    recurrent layer that doubles each feature vector. *)
Definition char_embedding : CharacterAsWordEmbedding.t (T:=Z) :=
  {| CharacterAsWordEmbedding.vocab_map := char_vocab;
     CharacterAsWordEmbedding.pass_to_bilstm := true;
     CharacterAsWordEmbedding.character_embedding := λ batch,
       Ok (mkTensor (shape batch ++ [1])
             ((λ row : list nat, (λ i, [Z.of_nat i]) <$> row)
                <$> tolist batch));
     CharacterAsWordEmbedding.char_bilstm := λ x,
       Ok (mkTensor (take 2 (shape x) ++ [2])
             ((λ token : list (list Z), (λ v, v ++ v) <$> token)
                <$> tolist x));
     CharacterAsWordEmbedding._output_dim := 2 |}.

(** Two sentences of one token slot, three character positions each:
    "ab" and "a" with their start and end symbols. *)
Definition char_indices : Tensor2 nat :=
  mkTensor [2; 4] [[2; 4; 5; 3]; [2; 4; 3; 0]].
End MoreExamples.

(** * Properties *)

(** ** The error monad and the comprehensions *)

Lemma bind_Ok {A B} (m : result A) (k : A → result B) (b : B) :
  bind m k = Ok b ↔ ∃ a, m = Ok a ∧ k a = Ok b.
Proof.
  destruct m as [a|e]; simpl.
  - split; [eauto | by intros (? & [= ->] & ?)].
  - split; [done | by intros (? & ? & ?)].
Qed.

Lemma for_each_Ok {A B} (f : A → result B) (g : A → B) (xs : list A) :
  (∀ x, x ∈ xs → f x = Ok (g x)) → for_each f xs = Ok (g <$> xs).
Proof.
  induction xs as [|x xs IH]; intros Hf; [done|].
  simpl. rewrite Hf by left. simpl.
  rewrite IH; [done|]. intros y Hy. apply Hf. by right.
Qed.

Lemma for_each_imap_gen {A B C} (p : nat → A → C) (f : C → result B)
    (g : nat → A → B) (xs : list A) :
  (∀ i x, xs !! i = Some x → f (p i x) = Ok (g i x)) →
  for_each f (imap p xs) = Ok (imap g xs).
Proof.
  revert p g. induction xs as [|x xs IH]; intros p g Hf; [done|].
  simpl. rewrite (Hf 0 x) by done. simpl.
  rewrite (IH (p ∘ S) (g ∘ S)); [done|].
  intros i y Hy. by apply (Hf (S i)).
Qed.

Lemma for_each_enumerate {A B} (f : nat * A → result B) (g : nat → A → B)
    (xs : list A) :
  (∀ i x, xs !! i = Some x → f (i, x) = Ok (g i x)) →
  for_each f (enumerate xs) = Ok (imap g xs).
Proof. apply for_each_imap_gen. Qed.

(** A comprehension whose condition keeps exactly the first [n] positions
    of an enumeration. *)
Lemma comprehension_prefix {A B C} (p : nat → A → C) (c : C → result bool)
    (f : C → result B) (g : A → B) (n : nat) (xs : list A) :
  (∀ i x, xs !! i = Some x → c (p i x) = Ok (bool_decide (i < n))) →
  (∀ i x, xs !! i = Some x → i < n → f (p i x) = Ok (g x)) →
  comprehension c f (imap p xs) = Ok (g <$> take n xs).
Proof.
  revert p n. induction xs as [|x xs IH]; intros p n Hc Hf.
  { by rewrite take_nil. }
  simpl. rewrite (Hc 0 x) by done. simpl.
  destruct n as [|n].
  - rewrite bool_decide_false by lia.
    rewrite (IH (p ∘ S) 0); [done| |].
    + intros i y Hy. unfold compose. rewrite (Hc (S i) y Hy).
      by rewrite !bool_decide_false by lia.
    + intros; lia.
  - rewrite bool_decide_true by lia.
    rewrite (Hf 0 x) by (done || lia). simpl.
    rewrite (IH (p ∘ S) n); [done| |].
    + intros i y Hy. unfold compose. rewrite (Hc (S i) y Hy).
      apply f_equal, bool_decide_ext. lia.
    + intros i y Hy Hi. apply (Hf (S i)); [done | lia].
Qed.

(** A comprehension whose condition and body never raise is a filter
    followed by a map. *)
Lemma comprehension_filter {A B} (c : A → result bool) (f : A → result B)
    (P : A → Prop) `{∀ x, Decision (P x)} (g : A → B) (xs : list A) :
  (∀ x, x ∈ xs → c x = Ok (bool_decide (P x))) →
  (∀ x, x ∈ xs → P x → f x = Ok (g x)) →
  comprehension c f xs = Ok (g <$> filter P xs).
Proof.
  induction xs as [|x xs IH]; intros Hc Hf; [done|].
  simpl. rewrite Hc by left. simpl.
  rewrite IH; cycle 1.
  { intros y Hy. apply Hc. by right. }
  { intros y Hy. apply Hf. by right. }
  destruct (decide (P x)) as [HP|HP].
  - rewrite bool_decide_true by done. rewrite Hf by (done || left).
    simpl. by rewrite filter_cons_True.
  - rewrite bool_decide_false by done. by rewrite filter_cons_False.
Qed.

(** ** Arg-max *)

Section argmax_facts.
Context {T : Type} `{Scalar T}.

Lemma argmax_from_bound (v : list T) (best_i : nat) (best : T) (i : nat) :
  best_i < i → argmax_from best_i best i v < i + length v.
Proof.
  revert best_i best i. induction v as [|x v IH]; intros best_i best i Hi.
  - simpl. lia.
  - simpl. destruct (sltb best x).
    + specialize (IH i x (S i)). lia.
    + specialize (IH best_i best (S i)). lia.
Qed.

Lemma argmax_bound (v : list T) : v ≠ [] → argmax v < length v.
Proof.
  destruct v as [|x v]; [done|]. intros _. simpl.
  pose proof (argmax_from_bound v 0 x 1). lia.
Qed.

Lemma argmax_dim2_shaped (t : Tensor3 T) (b s f : nat) :
  shaped3 b s f t → 0 < f →
  argmax_dim2 t = Ok (mkTensor [b; s] (map (map argmax) (tolist t))).
Proof.
  intros [Hs _] Hf. unfold argmax_dim2. rewrite Hs.
  by rewrite decide_False by lia.
Qed.
End argmax_facts.

(** ** Tagger.postprocess *)

Section tagger_facts.
Context {T : Type} `{Scalar T}.

(** The symbol of an index that is in the vocabulary. *)
Lemma i2w_total_lookup (vm : VocabMap) (i : nat) :
  i2w_total vm → i < vocab_len vm →
  dict_get (i2w vm) i = Ok (default EmptyString (i2w vm !! i))
  ∧ i2w vm !! i = Some (default EmptyString (i2w vm !! i)).
Proof.
  intros Htot Hi. destruct (Htot i Hi) as [w Hw].
  unfold dict_get. by rewrite Hw.
Qed.

Lemma sentence_tags_Ok (self : Tagger.t) (lengths : list nat) (i n : nat)
    (sent : list nat) :
  lengths !! i = Some n →
  i2w_total (Tagger.vocab_map self) →
  Forall (λ idx, idx < vocab_len (Tagger.vocab_map self)) sent →
  Tagger.sentence_tags self lengths i sent
  = Ok ((λ idx, default EmptyString (i2w (Tagger.vocab_map self) !! idx))
          <$> take n sent).
Proof.
  intros Hn Htot Hsent. unfold Tagger.sentence_tags, enumerate.
  apply comprehension_prefix.
  - intros j x _. unfold list_get. by rewrite Hn.
  - intros j x Hx _. apply i2w_total_lookup; [done|].
    rewrite Forall_lookup in Hsent. by eapply Hsent.
Qed.

(** C3: for a logits tensor of shape (b, s, V) over a vocabulary of V > 0
    entries, and one length per sentence with [lengths[i] <= s],
    [Tagger.postprocess] returns one tag sequence per sentence, in input
    order; the sequence of sentence [i] has exactly [lengths[i]] tags, and
    its [j]-th tag is [i2w] at the arg-max of the logits of token [j]. *)
Theorem Tagger_postprocess_tags (self : Tagger.t) (batch : Tensor3 T)
    (lengths : list nat) (b s V : nat) :
  shaped3 b s V batch →
  0 < V →
  vocab_len (Tagger.vocab_map self) = V →
  i2w_total (Tagger.vocab_map self) →
  length lengths = b →
  Forall (λ n, n ≤ s) lengths →
  ∃ tags : list (list string),
    Tagger.postprocess self batch lengths = Ok tags
    ∧ length tags = b
    ∧ ∀ i n sent,
        lengths !! i = Some n → tolist batch !! i = Some sent →
        ∃ tags_i,
          tags !! i = Some tags_i
          ∧ length tags_i = n
          ∧ ∀ j logits,
              j < n → sent !! j = Some logits →
              ∃ tag, tags_i !! j = Some tag
                     ∧ i2w (Tagger.vocab_map self) !! argmax logits = Some tag.
Proof.
  intros Hshape HV Hlen Htot Hlengths Hle.
  pose proof Hshape as (_ & Hb & Hrows).
  set (tag := λ idx, default EmptyString (i2w (Tagger.vocab_map self) !! idx)).
  set (idxs := map (map argmax) (tolist batch)).
  assert (Hidx : ∀ i sent, idxs !! i = Some sent →
            Forall (λ idx, idx < vocab_len (Tagger.vocab_map self)) sent).
  { intros i sent Hi. unfold idxs in Hi.
    apply list_lookup_fmap_Some in Hi as (m & -> & Hm).
    rewrite Forall_lookup in Hrows. destruct (Hrows i m Hm) as [_ Hm'].
    rewrite Forall_fmap. eapply Forall_impl; [exact Hm'|].
    intros v Hv. simpl. rewrite Hlen, <- Hv. apply argmax_bound.
    intros ->. simpl in Hv. lia. }
  exists (imap (λ i sent, tag <$> take (default 0 (lengths !! i)) sent) idxs).
  split; [|split].
  - unfold Tagger.postprocess.
    rewrite (argmax_dim2_shaped batch b s V) by done. simpl.
    apply for_each_enumerate. intros i sent Hi.
    assert (is_Some (lengths !! i)) as [n Hn].
    { apply lookup_lt_is_Some. apply lookup_lt_Some in Hi.
      unfold idxs in Hi. rewrite length_map in Hi. lia. }
    rewrite Hn. simpl. by eapply sentence_tags_Ok; eauto.
  - rewrite length_imap. unfold idxs. by rewrite length_map.
  - intros i n sent Hn Hsent.
    exists (tag <$> take n (map argmax sent)).
    rewrite list_lookup_imap. unfold idxs.
    rewrite list_lookup_fmap, Hsent. simpl. rewrite Hn. simpl.
    split; [done|].
    rewrite Forall_lookup in Hrows. destruct (Hrows i sent Hsent) as [Hs _].
    rewrite Forall_lookup in Hle. specialize (Hle i n Hn).
    split.
    { rewrite length_fmap, length_take, length_map. lia. }
    intros j logits Hj Hlogits.
    exists (tag (argmax logits)).
    rewrite list_lookup_fmap, lookup_take_lt by done.
    rewrite list_lookup_fmap, Hlogits. simpl. split; [done|].
    apply i2w_total_lookup; [done|].
    assert (Hin : map argmax sent !! j = Some (argmax logits)).
    { by rewrite list_lookup_fmap, Hlogits. }
    assert (Hsi : idxs !! i = Some (map argmax sent)).
    { unfold idxs. by rewrite list_lookup_fmap, Hsent. }
    specialize (Hidx i _ Hsi). rewrite Forall_lookup in Hidx.
    by eapply Hidx.
Qed.

(** Loops over steps that leave a store as it is leave it as it is, and
    return what the comprehension over the values returns. *)
Lemma call_for_each_reads {A B} (f : A → Tagger.Call B)
    (f' : A → result B) (xs : list A) (σ : Tagger.Store (T:=T)) :
  (∀ x, x ∈ xs → f x σ = (f' x, σ)) →
  Tagger.call_for_each f xs σ = (for_each f' xs, σ).
Proof.
  induction xs as [|x xs IH]; intros Hf; [done|].
  simpl. unfold Tagger.call_bind at 1. rewrite Hf by left.
  destruct (f' x) as [y|e]; [|done]. simpl.
  unfold Tagger.call_bind at 1. rewrite IH.
  - by destruct (for_each f' xs).
  - intros z Hz. apply Hf. by right.
Qed.

Lemma call_comprehension_reads {A B} (c : A → Tagger.Call bool)
    (f : A → Tagger.Call B) (c' : A → result bool) (f' : A → result B)
    (xs : list A) (σ : Tagger.Store (T:=T)) :
  (∀ x, x ∈ xs → c x σ = (c' x, σ)) →
  (∀ x, x ∈ xs → f x σ = (f' x, σ)) →
  Tagger.call_comprehension c f xs σ = (comprehension c' f' xs, σ).
Proof.
  induction xs as [|x xs IH]; intros Hc Hf; [done|].
  assert (Hrest : Tagger.call_comprehension c f xs σ
                  = (comprehension c' f' xs, σ)).
  { apply IH; intros z Hz; [apply Hc | apply Hf]; by right. }
  simpl. unfold Tagger.call_bind at 1. rewrite Hc by left.
  destruct (c' x) as [[|]|e]; simpl; [| done | done].
  unfold Tagger.call_bind at 1. rewrite Hf by left.
  destruct (f' x) as [y|e]; [|done]. simpl.
  unfold Tagger.call_bind at 1. rewrite Hrest.
  by destruct (comprehension c' f' xs).
Qed.

(** C9: a call of [Tagger.postprocess], followed step by step on the
    objects it can reach ([self], the logits, the lengths), leaves every
    one of them as it was and returns what the function of its arguments
    returns; so a second call on the same objects returns the same tag
    tuples (or raises the same exception) and leaves them unchanged
    again. *)
Theorem Tagger_postprocess_idempotent (σ : Tagger.Store (T:=T)) :
  ∃ first,
    Tagger.call_postprocess σ = (first, σ)
    ∧ first = Tagger.postprocess (Tagger.store_self σ)
                (Tagger.store_batch σ) (Tagger.store_lengths σ)
    ∧ Tagger.call_postprocess (Tagger.call_postprocess σ).2 = (first, σ).
Proof.
  assert (Hcall : Tagger.call_postprocess σ
                  = (Tagger.postprocess (Tagger.store_self σ)
                       (Tagger.store_batch σ) (Tagger.store_lengths σ), σ)).
  { unfold Tagger.call_postprocess, Tagger.postprocess.
    unfold Tagger.call_bind at 1, Tagger.call_argmax_tolist.
    destruct (argmax_dim2 (Tagger.store_batch σ)) as [idxs|e]; [|done].
    simpl. apply call_for_each_reads. intros [sent_idx sent] _.
    unfold Tagger.sentence_tags. apply call_comprehension_reads.
    - intros [token_count tag_idx] _.
      unfold Tagger.call_bind, Tagger.call_lengths_getitem.
      by destruct (list_get _ _).
    - by intros [token_count tag_idx] _. }
  eexists. split; [exact Hcall|]. split; [done|].
  rewrite Hcall. exact Hcall.
Qed.
End tagger_facts.

(** ** Regrouping *)

Lemma length_regroup {A} (count k : nat) (l : list A) :
  length (regroup count k l) = count.
Proof. unfold regroup. by rewrite length_fmap, length_seq. Qed.

Lemma regroup_lookup {A} (count k : nat) (l : list A) (i : nat) :
  i < count → regroup count k l !! i = Some (take k (drop (i * k) l)).
Proof.
  intros Hi. unfold regroup.
  by rewrite list_lookup_fmap, lookup_seq_lt.
Qed.

Lemma length_concat_rows {A} (c : nat) (rows : list (list A)) :
  Forall (λ r, length r = c) rows → length (concat rows) = length rows * c.
Proof.
  induction 1 as [|r rows Hr _ IH]; [done|].
  simpl. rewrite length_app, IH, Hr. lia.
Qed.

Lemma concat_rows_chunk {A} (c : nat) (rows : list (list A)) (i : nat)
    (r : list A) :
  Forall (λ r, length r = c) rows → rows !! i = Some r →
  take c (drop (i * c) (concat rows)) = r.
Proof.
  intros Hrows. revert i. induction Hrows as [|r0 rows Hr0 _ IH]; intros i Hi.
  { done. }
  destruct i as [|i].
  - injection Hi as ->. rewrite Nat.mul_0_l, drop_0.
    change (concat (r :: rows)) with (r ++ concat rows).
    by rewrite take_app_length'.
  - change (concat (r0 :: rows)) with (r0 ++ concat rows).
    rewrite drop_app_ge by lia.
    replace (S i * c - length r0) with (i * c) by lia. by apply IH.
Qed.

Lemma regroup_concat {A} (c : nat) (rows : list (list A)) :
  Forall (λ r, length r = c) rows →
  regroup (length rows) c (concat rows) = rows.
Proof.
  intros Hrows. apply list_eq. intros i.
  destruct (decide (i < length rows)) as [Hi|Hi].
  - rewrite regroup_lookup by lia.
    destruct (lookup_lt_is_Some_2 rows i Hi) as [r Hr].
    rewrite Hr. f_equal. by apply concat_rows_chunk.
  - rewrite !lookup_ge_None_2; [done | lia |].
    rewrite length_regroup. lia.
Qed.

Lemma regroup_lookup_lookup {A} (count s : nat) (l : list A) (i j : nat)
    (row : list A) :
  i < count → j < s →
  regroup count s l !! i = Some row → row !! j = l !! (i * s + j).
Proof.
  intros Hi Hj. rewrite regroup_lookup by done. intros [= <-].
  by rewrite lookup_take_lt, lookup_drop.
Qed.

(** ** GRUDecoder.postprocess *)

Lemma list_index_truncate (x : string) (chars : list string) :
  x ∈ chars →
  ∃ k, GRUDecoder.list_index x chars = Ok k ∧ take k chars = truncate_at x chars.
Proof.
  induction chars as [|c chars IH]; intros Hin.
  { by apply elem_of_nil in Hin. }
  simpl. destruct (decide (c = x)) as [->|Hne].
  - by exists 0.
  - apply elem_of_cons in Hin as [->|Hin]; [done|].
    destruct (IH Hin) as (k & -> & Hk). exists (S k). simpl. by rewrite Hk.
Qed.

Lemma truncate_at_notin (x : string) (chars : list string) :
  x ∉ chars → truncate_at x chars = chars.
Proof.
  induction chars as [|c chars IH]; intros Hin; [done|].
  apply not_elem_of_cons in Hin as [Hne Hin].
  simpl. rewrite decide_False by done. by rewrite IH.
Qed.

Lemma for_each_zip {A B C} (f : A * B → result C) (g : nat → A → B → C)
    (xs : list A) (ys : list B) :
  (∀ i x y, xs !! i = Some x → ys !! i = Some y → f (x, y) = Ok (g i x y)) →
  for_each f (zip xs ys) = Ok (imap (λ i p, g i p.1 p.2) (zip xs ys)).
Proof.
  intros Hf.
  rewrite <- (for_each_imap_gen (λ _ p, p) f (λ i p, g i p.1 p.2)).
  { f_equal. clear. generalize (zip xs ys). intros l.
    induction l as [|p l IH]; [done|]. simpl. f_equal.
    rewrite <- IH at 1. done. }
  intros i [x y] Hxy. simpl.
  apply lookup_zip_with_Some in Hxy as (x' & y' & [= -> ->] & Hx & Hy).
  by apply Hf.
Qed.

Section gru_postprocess.
Context {T : Type} `{Scalar T}.
Implicit Types self : GRUDecoder.t (T:=T).

Lemma illegal_chars_output_spec self (i : nat) :
  i ∉ GRUDecoder.illegal_chars_output self
  ↔ i ≠ PAD_ID (GRUDecoder.vocab_map self)
    ∧ i ≠ UNK_ID (GRUDecoder.vocab_map self)
    ∧ i ≠ SOS_ID (GRUDecoder.vocab_map self).
Proof.
  unfold GRUDecoder.illegal_chars_output.
  rewrite !not_elem_of_union, !not_elem_of_singleton. tauto.
Qed.

Lemma map_lemma_chars self (char_idxs : list nat) :
  i2w_total (GRUDecoder.vocab_map self) →
  Forall (λ i, i < vocab_len (GRUDecoder.vocab_map self)) char_idxs →
  comprehension
    (λ char_idx,
       Ok (bool_decide (char_idx ∉ GRUDecoder.illegal_chars_output self)))
    (λ char_idx, dict_get (i2w (GRUDecoder.vocab_map self)) char_idx)
    char_idxs
  = Ok (kept_symbols (GRUDecoder.vocab_map self) char_idxs).
Proof.
  intros Htot Hidx.
  rewrite (comprehension_filter _ _
             (λ i, i ∉ GRUDecoder.illegal_chars_output self)
             (symbol (GRUDecoder.vocab_map self))); cycle 1.
  { done. }
  { intros i Hi _. rewrite Forall_forall in Hidx.
    by apply i2w_total_lookup; auto. }
  unfold kept_symbols. do 2 f_equal.
  apply list_filter_iff. intros i. apply illegal_chars_output_spec.
Qed.

Lemma map_lemma_from_char_idx_Ok self (char_idxs : list nat) :
  i2w_total (GRUDecoder.vocab_map self) →
  Forall (λ i, i < vocab_len (GRUDecoder.vocab_map self)) char_idxs →
  GRUDecoder.map_lemma_from_char_idx self char_idxs
  = Ok (predicted_lemma (GRUDecoder.vocab_map self) char_idxs).
Proof.
  intros Htot Hidx. unfold GRUDecoder.map_lemma_from_char_idx.
  rewrite map_lemma_chars by done. simpl. unfold predicted_lemma.
  case_bool_decide as Hin.
  - destruct (list_index_truncate _ _ Hin) as (k & -> & Hk).
    simpl. by rewrite Hk.
  - simpl. by rewrite truncate_at_notin.
Qed.

Lemma GRUDecoder_map_sentence_chars_Ok self (sent : list (list nat)) (n : nat) :
  i2w_total (GRUDecoder.vocab_map self) →
  Forall (Forall (λ i, i < vocab_len (GRUDecoder.vocab_map self))) sent →
  n ≤ length sent →
  GRUDecoder.map_sentence_chars self sent n
  = Ok (predicted_lemma (GRUDecoder.vocab_map self) <$> take n sent).
Proof.
  intros Htot Hsent Hn. unfold GRUDecoder.map_sentence_chars.
  rewrite (for_each_Ok _
    (λ k, predicted_lemma (GRUDecoder.vocab_map self) (default [] (sent !! k)))).
  - f_equal. apply list_eq. intros j.
    rewrite !list_lookup_fmap.
    destruct (decide (j < n)) as [Hj|Hj].
    + rewrite lookup_seq_lt, lookup_take_lt by done. simpl.
      destruct (lookup_lt_is_Some_2 sent j) as [idxs ->]; [lia | done].
    + rewrite lookup_seq_ge, lookup_take_ge by lia. done.
  - intros k Hk. apply elem_of_seq in Hk.
    destruct (lookup_lt_is_Some_2 sent k) as [idxs Hidxs]; [lia|].
    unfold list_get. rewrite Hidxs. simpl.
    apply map_lemma_from_char_idx_Ok; [done|].
    rewrite Forall_lookup in Hsent. by eapply Hsent.
Qed.

(** C4: on character logits of shape (b * s, C, V) for [b = len(lengths)]
    sentences of [s] token slots, [GRUDecoder.postprocess] returns, for
    every sentence [i] and every token [j < lengths[i]], the predicted lemma
    of the arg-max character indices of that token: PAD, UNK and SOS
    indices dropped, the symbols cut at the first EOS (exclusive) and
    joined.  [map_lemma_from_char_idx] computes that lemma, and where no
    generated index stands for EOS it returns all kept symbols joined. *)
Theorem GRUDecoder_postprocess_lemmas self (batch : Tensor3 T)
    (lengths : list nat) (s C V : nat) :
  shaped3 (length lengths * s) C V batch →
  0 < C → 0 < V → lengths ≠ [] →
  vocab_len (GRUDecoder.vocab_map self) = V →
  i2w_total (GRUDecoder.vocab_map self) →
  Forall (λ n, n ≤ s) lengths →
  (∃ out : list (list string),
     GRUDecoder.postprocess self batch lengths = Ok out
     ∧ length out = length lengths
     ∧ ∀ i n,
         lengths !! i = Some n →
         ∃ lemmas,
           out !! i = Some lemmas
           ∧ length lemmas = n
           ∧ ∀ j, j < n →
               ∃ logits,
                 tolist batch !! (i * s + j) = Some logits
                 ∧ lemmas !! j
                   = Some (predicted_lemma (GRUDecoder.vocab_map self)
                             (argmax <$> logits)))
  ∧ (∀ char_idxs,
       Forall (λ i, i < V) char_idxs →
       GRUDecoder.map_lemma_from_char_idx self char_idxs
       = Ok (predicted_lemma (GRUDecoder.vocab_map self) char_idxs))
  ∧ (∀ char_idxs,
       Forall (λ i, i < V) char_idxs →
       (∀ i, i ∈ char_idxs →
             i2w (GRUDecoder.vocab_map self) !! i
             ≠ Some (EOS (GRUDecoder.vocab_map self))) →
       GRUDecoder.map_lemma_from_char_idx self char_idxs
       = Ok (String.concat EmptyString
               (kept_symbols (GRUDecoder.vocab_map self) char_idxs))).
Proof.
  intros Hshape HC HV Hne <- Htot Hle.
  set (vm := GRUDecoder.vocab_map self) in *.
  split; [|split].
  2: { intros char_idxs Hidx. by apply map_lemma_from_char_idx_Ok. }
  2: { intros char_idxs Hidx Hno.
       rewrite map_lemma_from_char_idx_Ok by done.
       unfold predicted_lemma. rewrite truncate_at_notin; [done|].
       unfold kept_symbols. intros Hin.
       apply list_elem_of_fmap in Hin as (i & Hi & Hin).
       apply list_elem_of_filter in Hin as [_ Hin].
       apply (Hno i Hin). rewrite Forall_forall in Hidx.
       destruct (Htot i) as [w Hw]; [by apply Hidx|].
       fold vm. rewrite Hw. f_equal. unfold symbol in Hi. fold vm in Hi.
       by rewrite Hw in Hi. }
  assert (Hb : 0 < length lengths) by (destruct lengths; [done | simpl; lia]).
  set (b := length lengths) in *.
  pose proof Hshape as (_ & HN & Hrows).
  set (idxs := map (map argmax) (tolist batch)).
  assert (Hidxs_len : length idxs = b * s).
  { unfold idxs. by rewrite length_map. }
  assert (Hidxs_rows : Forall (λ r, length r = C) idxs).
  { unfold idxs. rewrite Forall_fmap. eapply Forall_impl; [exact Hrows|].
    intros m [Hm _]. simpl. by rewrite length_map. }
  assert (Hidxs_vocab : Forall (Forall (λ i, i < vocab_len vm)) idxs).
  { unfold idxs. rewrite Forall_fmap. eapply Forall_impl; [exact Hrows|].
    intros m [_ Hm]. simpl. rewrite Forall_fmap.
    eapply Forall_impl; [exact Hm|]. intros v Hv. simpl.
    fold vm. rewrite <- Hv. apply argmax_bound. intros ->. simpl in Hv. lia. }
  set (sents := regroup b s idxs).
  assert (Hsents : ∀ i, i < b →
            sents !! i = Some (take s (drop (i * s) idxs))).
  { intros i Hi. by apply regroup_lookup. }
  assert (Hview : GRUDecoder.postprocess self batch lengths
            = for_each (λ '(sent, sent_length),
                          GRUDecoder.map_sentence_chars self sent sent_length)
                       (zip sents lengths)).
  { unfold GRUDecoder.postprocess.
    rewrite (argmax_dim2_shaped batch (b * s) C (vocab_len vm)) by done. simpl.
    unfold view_sentences, numel. simpl.
    rewrite decide_False by nia.
    replace (b * s * (C * 1)) with (s * (b * C)) by nia.
    rewrite Nat.Div0.mod_mul, decide_True by done.
    rewrite Nat.div_mul by nia. simpl.
    fold idxs b. rewrite <- Hidxs_len, regroup_concat by done.
    done. }
  set (sentence := λ i, predicted_lemma vm
                          <$> take (default 0 (lengths !! i))
                                (take s (drop (i * s) idxs))).
  exists (sentence <$> seq 0 b).
  split; [|split].
  - rewrite Hview.
    rewrite (for_each_zip _ (λ i _ _, sentence i)).
    + f_equal. apply list_eq. intros i.
      rewrite list_lookup_fmap.
      destruct (decide (i < b)) as [Hi|Hi].
      * rewrite lookup_seq_lt by done. simpl.
        rewrite list_lookup_imap.
        destruct (lookup_lt_is_Some_2 (zip sents lengths) i) as [p ->];
          [|done].
        rewrite length_zip. unfold sents. rewrite length_regroup. lia.
      * rewrite lookup_seq_ge by lia. simpl.
        rewrite lookup_ge_None_2; [done|].
        rewrite length_imap, length_zip. unfold sents.
        rewrite length_regroup. lia.
    + intros i sent n Hsent Hn.
      assert (Hi : i < b) by (by apply lookup_lt_Some in Hn).
      rewrite Hsents in Hsent by done. injection Hsent as <-.
      rewrite Forall_lookup in Hle. specialize (Hle i n Hn).
      rewrite GRUDecoder_map_sentence_chars_Ok; [|done| |].
      * unfold sentence. by rewrite Hn.
      * apply Forall_take, Forall_drop. exact Hidxs_vocab.
      * rewrite length_take, length_drop. nia.
  - by rewrite length_fmap, length_seq.
  - intros i n Hn.
    assert (Hi : i < b) by (by apply lookup_lt_Some in Hn).
    rewrite Forall_lookup in Hle. specialize (Hle i n Hn).
    exists (sentence i). rewrite list_lookup_fmap, lookup_seq_lt by done.
    split; [done|]. unfold sentence. rewrite Hn. simpl.
    split.
    { rewrite length_fmap, !length_take, length_drop. nia. }
    intros j Hj.
    destruct (lookup_lt_is_Some_2 (tolist batch) (i * s + j)) as [logits Hl].
    { rewrite HN. nia. }
    exists logits. split; [done|].
    rewrite list_lookup_fmap, !lookup_take_lt, lookup_drop by lia.
    unfold idxs. by rewrite list_lookup_fmap, Hl.
Qed.
End gru_postprocess.

(** ** Shapes of the tensor operations *)

Lemma for_each_total {A B} (f : A → result B) (xs : list A) :
  (∀ x, x ∈ xs → ∃ y, f x = Ok y) →
  ∃ ys, for_each f xs = Ok ys ∧ Forall2 (λ x y, f x = Ok y) xs ys.
Proof.
  induction xs as [|x xs IH]; intros Hf.
  { exists []. by split. }
  destruct (Hf x) as [y Hy]; [left|].
  destruct IH as (ys & Hys & Hall).
  { intros z Hz. apply Hf. by right. }
  exists (y :: ys). simpl. rewrite Hy. simpl. rewrite Hys. simpl.
  split; [done|]. by constructor.
Qed.

Lemma for_range_snoc {S} (n : nat) (body : S → result S) (s : S) :
  for_range (Datatypes.S n) body s
  = let! s' := for_range n body s in body s'.
Proof.
  revert s. induction n as [|n IH]; intros s.
  - cbn. unfold bind. by destruct (body s).
  - simpl. destruct (body s) as [s'|e]; simpl; [|done].
    specialize (IH s'). simpl in IH. exact IH.
Qed.

Lemma tensor_index_nat (k size : nat) :
  k < size → tensor_index (Z.of_nat k) size = Ok k.
Proof.
  intros Hk. unfold tensor_index.
  rewrite decide_True by lia. by rewrite Nat2Z.id.
Qed.

Section shapes.
Context {A : Type}.

Lemma column_shaped (t : Tensor2 A) (n m k : nat) :
  shaped2 n m t → k < m →
  ∃ c, column t (Z.of_nat k) = Ok c ∧ shaped1 n c
       ∧ Forall2 (λ row x, row !! k = Some x) (tolist t) (tolist c).
Proof.
  intros (Hs & Hn & Hrows) Hk. unfold column. rewrite Hs.
  rewrite tensor_index_nat by done. simpl.
  destruct (for_each_total (λ row : list A, list_get row k) (tolist t))
    as (col & -> & Hcol).
  { intros row Hrow. rewrite Forall_forall in Hrows.
    destruct (lookup_lt_is_Some_2 row k) as [x Hx].
    { rewrite (Hrows row Hrow). done. }
    exists x. unfold list_get. by rewrite Hx. }
  simpl. eexists. split; [done|]. split.
  - split; [done|]. simpl. apply Forall2_length in Hcol. lia.
  - simpl. eapply Forall2_impl; [exact Hcol|].
    intros row x. unfold list_get. by destruct (row !! k) as [y|]; intros [= ->].
Qed.

Lemma select_dim1_shaped (t : Tensor3 A) (n s f k : nat) :
  shaped3 n s f t → k < s →
  ∃ m, select_dim1 t (Z.of_nat k) = Ok m ∧ shaped2 n f m
       ∧ Forall2 (λ mat row, mat !! k = Some row) (tolist t) (tolist m).
Proof.
  intros (Hs & Hn & Hrows) Hk. unfold select_dim1. rewrite Hs.
  rewrite tensor_index_nat by done. simpl.
  destruct (for_each_total (λ m : list (list A), list_get m k) (tolist t))
    as (d & -> & Hd).
  { intros mat Hmat. rewrite Forall_forall in Hrows.
    destruct (Hrows mat Hmat) as [Hlen _].
    destruct (lookup_lt_is_Some_2 mat k) as [x Hx]; [lia|].
    exists x. unfold list_get. by rewrite Hx. }
  simpl. eexists. split; [done|].
  assert (Hd' : Forall2 (λ mat row, mat !! k = Some row) (tolist t) d).
  { eapply Forall2_impl; [exact Hd|].
    intros mat x. unfold list_get.
    by destruct (mat !! k) as [y|]; intros [= ->]. }
  split; [|done]. split; [done|]. simpl. split.
  - apply Forall2_length in Hd. lia.
  - apply Forall_forall. intros row Hrow.
    apply list_elem_of_lookup in Hrow as [i Hi].
    destruct (Forall2_lookup_r _ _ _ _ _ Hd' Hi) as (mat & Hmat & Hk').
    rewrite Forall_lookup in Hrows. destruct (Hrows i mat Hmat) as [_ Hf].
    rewrite Forall_lookup in Hf. by eapply Hf.
Qed.

Lemma Forall_zip_with_app (f f' : nat) (xs ys : list (list A)) :
  Forall (λ v, length v = f) xs → Forall (λ v, length v = f') ys →
  Forall (λ v, length v = f + f') (zip_with app xs ys).
Proof.
  intros Hx Hy. apply Forall_lookup. intros i v Hv.
  apply lookup_zip_with_Some in Hv as (x & y & -> & Hxi & Hyi).
  rewrite Forall_lookup in Hx. rewrite Forall_lookup in Hy.
  rewrite length_app. by rewrite (Hx i x Hxi), (Hy i y Hyi).
Qed.

Lemma cat2_dim1_shaped (a b : Tensor2 A) (n f f' : nat) :
  shaped2 n f a → shaped2 n f' b →
  ∃ c, cat2_dim1 a b = Ok c ∧ shaped2 n (f + f') c.
Proof.
  intros (Ha & Hna & Hra) (Hb & Hnb & Hrb). unfold cat2_dim1.
  rewrite Ha, Hb, decide_True by done.
  eexists. split; [done|]. split; [done|]. simpl. split.
  - rewrite length_zip_with. lia.
  - by apply Forall_zip_with_app.
Qed.

Lemma unsqueeze1_shaped (t : Tensor2 A) (n f : nat) :
  shaped2 n f t → ∃ c, unsqueeze1 t = Ok c ∧ shaped3 n 1 f c.
Proof.
  intros (Hs & Hn & Hr). unfold unsqueeze1. rewrite Hs.
  eexists. split; [done|]. split; [done|]. simpl. split.
  - by rewrite length_fmap.
  - rewrite Forall_fmap. eapply Forall_impl; [exact Hr|].
    intros v Hv. simpl. split; [done|]. by constructor.
Qed.

Lemma cat_pair_dim2_shaped (a b : Tensor3 A) (n s f f' : nat) :
  shaped3 n s f a → shaped3 n s f' b →
  ∃ c, cat_pair_dim2 a b = Ok c ∧ shaped3 n s (f + f') c.
Proof.
  intros (Ha & Hna & Hra) (Hb & Hnb & Hrb). unfold cat_pair_dim2.
  rewrite Ha, Hb, decide_True by done.
  eexists. split; [done|]. split; [done|]. simpl. split.
  - rewrite length_zip_with. lia.
  - apply Forall_lookup. intros i m Hm.
    apply lookup_zip_with_Some in Hm as (x & y & -> & Hx & Hy).
    rewrite Forall_lookup in Hra. rewrite Forall_lookup in Hrb.
    destruct (Hra i x Hx) as [Hxl Hxr]. destruct (Hrb i y Hy) as [Hyl Hyr].
    split; [rewrite length_zip_with; lia|].
    by apply Forall_zip_with_app.
Qed.

Lemma cat_dim1_shaped (a b : Tensor3 A) (n s s' f : nat) :
  shaped3 n s f a → shaped3 n s' f b →
  ∃ c, cat_dim1 a b = Ok c ∧ shaped3 n (s + s') f c.
Proof.
  intros (Ha & Hna & Hra) (Hb & Hnb & Hrb). unfold cat_dim1.
  rewrite Ha, Hb, decide_True by done.
  eexists. split; [done|]. split; [done|]. simpl. split.
  - rewrite length_zip_with. lia.
  - apply Forall_lookup. intros i m Hm.
    apply lookup_zip_with_Some in Hm as (x & y & -> & Hx & Hy).
    rewrite Forall_lookup in Hra. rewrite Forall_lookup in Hrb.
    destruct (Hra i x Hx) as [Hxl Hxr]. destruct (Hrb i y Hy) as [Hyl Hyr].
    split; [rewrite length_app; lia|]. by apply Forall_app.
Qed.

Lemma length_concat_concat (b s f : nat) (d : list (list (list A))) :
  rows3 b s f d → length (concat (concat d)) = b * s * f.
Proof.
  intros [Hb Hr].
  rewrite (length_concat_rows f).
  - rewrite (length_concat_rows s), Hb; [done|].
    eapply Forall_impl; [exact Hr|]. by intros m [? _].
  - apply Forall_concat. eapply Forall_impl; [exact Hr|]. by intros m [_ ?].
Qed.

Lemma regroup_rows2 (count k : nat) (l : list A) :
  count * k ≤ length l → rows2 count k (regroup count k l).
Proof.
  intros Hl. split; [apply length_regroup|].
  apply Forall_lookup. intros i row Hrow.
  assert (Hi : i < count).
  { apply lookup_lt_Some in Hrow. by rewrite length_regroup in Hrow. }
  rewrite regroup_lookup in Hrow by done. injection Hrow as <-.
  rewrite length_take, length_drop. nia.
Qed.

Lemma reshape_rows_shaped (t : Tensor3 A) (b s f : nat) :
  shaped3 b s f t → 0 < f →
  ∃ c, reshape_rows t f = Ok c ∧ shaped2 (b * s) f c.
Proof.
  intros (Hs & Hr) Hf. unfold reshape_rows, numel. rewrite Hs. simpl.
  rewrite decide_False by lia.
  replace (b * (s * (f * 1))) with (b * s * f) by lia.
  rewrite Nat.Div0.mod_mul, decide_True by done.
  rewrite Nat.div_mul by lia.
  eexists. split; [done|]. split; [done|]. simpl.
  apply regroup_rows2. by rewrite (length_concat_concat b s f).
Qed.

Lemma reshape_hidden_shaped (t : Tensor2 A) (n f : nat) :
  shaped2 n f t → ∃ c, reshape_hidden t = Ok c ∧ shaped3 1 n f c.
Proof.
  intros (Hs & Hr). unfold reshape_hidden. rewrite Hs.
  eexists. split; [done|]. split; [done|]. simpl. split; [done|].
  by constructor.
Qed.
End shapes.

Section argmax_shapes.
Context {T : Type} `{Scalar T}.

Lemma argmax_dim1_shaped (t : Tensor2 T) (n f : nat) :
  shaped2 n f t → 0 < f →
  argmax_dim1 t = Ok (mkTensor [n] (argmax <$> tolist t))
  ∧ shaped1 n (mkTensor [n] (argmax <$> tolist t))
  ∧ GRUDecoder.below f (mkTensor [n] (argmax <$> tolist t)).
Proof.
  intros (Hs & Hn & Hr) Hf. unfold argmax_dim1. rewrite Hs.
  rewrite decide_False by lia. split; [done|]. split.
  - split; [done|]. simpl. by rewrite length_fmap.
  - unfold GRUDecoder.below. simpl. rewrite Forall_fmap.
    eapply Forall_impl; [exact Hr|]. intros v Hv. simpl.
    rewrite <- Hv. apply argmax_bound. intros ->. simpl in Hv. lia.
Qed.
End argmax_shapes.

(** ** GRUDecoder.decode *)

Section gru_decode.
Context {T : Type} `{Scalar T}.
Variable map_to_chars_batch :
  Sentences → gmap string nat → option bool → result (Tensor2 nat).
Implicit Types self : GRUDecoder.t (T:=T).
Implicit Types g : GRUDecoder.Rng (T:=T).

Lemma column_below (t : Tensor2 nat) (n m k V : nat) :
  shaped2 n m t → k < m → GRUDecoder.rows_below V t →
  ∃ c, column t (Z.of_nat k) = Ok c ∧ shaped1 n c ∧ GRUDecoder.below V c.
Proof.
  intros Hs Hk Hbelow.
  destruct (column_shaped t n m k Hs Hk) as (c & Hc & Hsc & Hall).
  exists c. split; [done|]. split; [done|].
  unfold GRUDecoder.below. apply Forall_lookup. intros i x Hx.
  destruct (Forall2_lookup_r _ _ _ _ _ Hall Hx) as (row & Hrow & Hk').
  unfold GRUDecoder.rows_below in Hbelow.
  rewrite Forall_lookup in Hbelow. specialize (Hbelow i row Hrow).
  rewrite Forall_lookup in Hbelow. by eapply Hbelow.
Qed.

(** The first input: column 0 of the character matrix of the source
    tokens; no sample is drawn. *)
Lemma next_char_first self encoded batch target b s E V steps emb_dim g :
  GRUDecoder.training_batch map_to_chars_batch self encoded batch target
    b s E V steps emb_dim →
  ∃ first,
    GRUDecoder._get_char_input_next_timestep map_to_chars_batch
      (GRUDecoder.vocab_map self) batch None
      (GRUDecoder.teacher_forcing self) g = Ok (first, g)
    ∧ shaped1 (b * s) first ∧ GRUDecoder.below V first.
Proof.
  intros Htb.
  destruct (GRUDecoder.token_chars _ _ _ _ _ _ _ _ _ _ _ Htb)
    as (tokens & chars & C & Htok & Hchars & Hshape & HC & Hbelow).
  destruct (column_below chars (b * s) C 0 V Hshape HC Hbelow)
    as (first & Hfirst & Hs1 & Hb1).
  exists first. split; [|done].
  unfold GRUDecoder._get_char_input_next_timestep.
  rewrite Htok. simpl. rewrite Hchars. simpl.
  change 0%Z with (Z.of_nat 0). by rewrite Hfirst.
Qed.

(** A later input: a sample is drawn; below [teacher_forcing] the input
    is the target column of the previous timestep, otherwise the arg-max
    of the previous timestep's logits. *)
Lemma next_char_later self encoded batch target b s E V steps emb_dim g
    (p : Tensor3 T) (k : nat) :
  GRUDecoder.training_batch map_to_chars_batch self encoded batch target
    b s E V steps emb_dim →
  shaped3 (b * s) k V p → 0 < k → k ≤ steps →
  ∃ chars,
    GRUDecoder._get_char_input_next_timestep map_to_chars_batch
      (GRUDecoder.vocab_map self) batch (Some p)
      (GRUDecoder.teacher_forcing self) g
    = Ok (chars, (GRUDecoder.random g).2)
    ∧ shaped1 (b * s) chars ∧ GRUDecoder.below V chars
    ∧ Ok chars
      = if sltb (GRUDecoder.samples g (GRUDecoder.position g))
                (GRUDecoder.teacher_forcing self)
        then column target (Z.of_nat (k - 1))
        else let! last := select_dim1 p (Z.of_nat (k - 1)) in
             argmax_dim1 last.
Proof.
  intros Htb Hp Hk Hsteps.
  pose proof (GRUDecoder.target_present _ _ _ _ _ _ _ _ _ _ _ Htb) as Htgt.
  pose proof (GRUDecoder.target_shaped _ _ _ _ _ _ _ _ _ _ _ Htb) as Htshape.
  pose proof (GRUDecoder.target_below _ _ _ _ _ _ _ _ _ _ _ Htb) as Htbelow.
  pose proof (GRUDecoder.vocabulary_size _ _ _ _ _ _ _ _ _ _ _ Htb) as HV.
  unfold GRUDecoder._get_char_input_next_timestep.
  unfold shape_at. destruct Hp as [Hps Hpr] eqn:Hpeq. rewrite Hps. simpl.
  rewrite Htgt. simpl.
  replace (Z.of_nat k - 1)%Z with (Z.of_nat (k - 1)) by lia.
  destruct (sltb _ _).
  - destruct (column_below target (b * s) steps (k - 1) V)
      as (gold & Hgold & Hs1 & Hb1); [done | lia | done |].
    exists gold. rewrite Hgold. simpl. done.
  - destruct (select_dim1_shaped p (b * s) k V (k - 1))
      as (last & Hlast & Hs2 & _); [done | lia |].
    destruct (argmax_dim1_shaped last (b * s) V Hs2 HV) as (Hbest & Hs1 & Hb1).
    eexists. rewrite Hlast. simpl. rewrite Hbest. simpl. done.
Qed.

(** One iteration of the loop. *)
Lemma decode_step_after self encoded batch target b s E V steps emb_dim g
    (context : Tensor2 T) (k : nat) (st : GRUDecoder.Loop) :
  GRUDecoder.training_batch map_to_chars_batch self encoded batch target
    b s E V steps emb_dim →
  shaped2 (b * s) E context →
  GRUDecoder.after_iterations g (b * s) E V k st → k ≤ steps →
  ∃ st',
    GRUDecoder.decode_step map_to_chars_batch self batch context st = Ok st'
    ∧ GRUDecoder.after_iterations g (b * s) E V (S k) st'.
Proof.
  intros Htb Hctx (Hcalls & Hsamples & Hpos & Hhid & Hpred) Hk.
  assert (Hnone : GRUDecoder.predictions st = None → k = 0).
  { intros Hn. by rewrite Hn in Hpred. }
  pose proof (GRUDecoder.layers _ _ _ _ _ _ _ _ _ _ _ Htb) as Hlayers.
  assert (Hinput : ∃ chars g',
    GRUDecoder._get_char_input_next_timestep map_to_chars_batch
      (GRUDecoder.vocab_map self) batch (GRUDecoder.predictions st)
      (GRUDecoder.teacher_forcing self) (GRUDecoder.rng st) = Ok (chars, g')
    ∧ shaped1 (b * s) chars ∧ GRUDecoder.below V chars
    ∧ GRUDecoder.samples g' = GRUDecoder.samples g
    ∧ GRUDecoder.position g' = GRUDecoder.position g + k).
  { destruct (GRUDecoder.predictions st) as [p|].
    - destruct Hpred as [Hk0 Hp].
      destruct (next_char_later self encoded batch target b s E V steps
                  emb_dim (GRUDecoder.rng st) p k Htb Hp Hk0 Hk)
        as (chars & Hchars & Hs1 & Hb1 & _).
      exists chars, (GRUDecoder.random (GRUDecoder.rng st)).2.
      split; [done|]. split; [done|]. split; [done|]. simpl.
      split; [done | lia].
    - rewrite Hnone by done.
      destruct (next_char_first self encoded batch target b s E V steps
                  emb_dim (GRUDecoder.rng st) Htb) as (first & Hf & Hs1 & Hb1).
      exists first, (GRUDecoder.rng st).
      split; [done|]. split; [done|]. split; [done|]. split; [done | lia]. }
  destruct Hinput as (chars & g' & Hchars & Hs1 & Hb1 & Hsm & Hps).
  unfold GRUDecoder.decode_step. rewrite Hchars. simpl.
  destruct (GRUDecoder.embedding_shaped _ _ _ _ _ Hlayers chars Hs1 Hb1)
    as (e & -> & He). simpl.
  pose proof (GRUDecoder.dropout_shaped _ _ _ _ _ Hlayers
                (GRUDecoder.dropout_calls st) e He) as Hdrop.
  destruct (cat2_dim1_shaped _ context _ _ _ Hdrop Hctx) as (joined & -> & Hj).
  simpl.
  destruct (unsqueeze1_shaped joined _ _ Hj) as (gru_in & -> & Hin). simpl.
  destruct (GRUDecoder.rnn_shaped _ _ _ _ _ Hlayers gru_in
              (GRUDecoder.hidden st) Hin Hhid)
    as (o & h' & -> & Ho & Hh'). simpl.
  destruct (cat_pair_dim2_shaped gru_in o _ _ _ _ Hin Ho) as (fc_in & -> & Hfc).
  simpl.
  destruct (GRUDecoder.fc_out_shaped _ _ _ _ _ Hlayers fc_in Hfc)
    as (prediction & -> & Hpn). simpl.
  destruct (GRUDecoder.predictions st) as [p|].
  - destruct Hpred as [Hk0 Hp].
    destruct (cat_dim1_shaped p prediction _ _ _ _ Hp Hpn) as (p' & -> & Hp').
    simpl. eexists. split; [done|].
    unfold GRUDecoder.after_iterations. simpl.
    replace (S k) with (k + 1) by lia.
    split_and!; [lia | done | lia | done | lia | done].
  - rewrite Hnone in * by done. simpl. eexists. split; [done|].
    unfold GRUDecoder.after_iterations. simpl.
    split_and!; [lia | done | lia | done | lia | done].
Qed.

Lemma decode_start self (encoded : Tensor3 T) (b s E : nat) :
  shaped3 b s E encoded → 0 < E →
  ∃ context hidden,
    shape_at encoded 2 = Ok E
    ∧ reshape_rows encoded E = Ok context
    ∧ reshape_hidden context = Ok hidden
    ∧ shaped2 (b * s) E context ∧ shaped3 1 (b * s) E hidden.
Proof.
  intros Henc HE.
  destruct (reshape_rows_shaped encoded b s E Henc HE) as (context & Hc & Hcs).
  destruct (reshape_hidden_shaped context _ _ Hcs) as (hidden & Hh & Hhs).
  exists context, hidden. split_and!; try done.
  unfold shape_at. destruct Henc as [-> _]. done.
Qed.

Lemma decode_iterations_after self encoded batch target b s E V steps
    emb_dim g (k : nat) :
  GRUDecoder.training_batch map_to_chars_batch self encoded batch target
    b s E V steps emb_dim →
  k ≤ steps →
  ∃ st,
    GRUDecoder.decode_iterations map_to_chars_batch self encoded batch g k
    = Ok st
    ∧ GRUDecoder.after_iterations g (b * s) E V k st.
Proof.
  intros Htb Hk.
  pose proof (GRUDecoder.encoded_shaped _ _ _ _ _ _ _ _ _ _ _ Htb) as Henc.
  pose proof (GRUDecoder.context_width _ _ _ _ _ _ _ _ _ _ _ Htb) as HE.
  destruct (decode_start self encoded b s E Henc HE)
    as (context & hidden & Hw & Hc & Hh & Hcs & Hhs).
  unfold GRUDecoder.decode_iterations. rewrite Hw. simpl.
  rewrite Hc. simpl. rewrite Hh. simpl.
  induction k as [|k IH].
  - eexists. split; [done|].
    unfold GRUDecoder.after_iterations. simpl. split_and!; done || lia.
  - destruct IH as (st & Hst & Hafter); [lia|].
    rewrite for_range_snoc, Hst. simpl.
    eapply decode_step_after; eauto. lia.
Qed.

(** What an iteration of the loop that returns has computed, line by
    line. *)
Lemma decode_step_inv self (batch : Batch) (context : Tensor2 T)
    (st st' : GRUDecoder.Loop) :
  GRUDecoder.decode_step map_to_chars_batch self batch context st = Ok st' →
  ∃ chars g' embedded joined gru_in output hidden' fc_in prediction p',
    GRUDecoder._get_char_input_next_timestep map_to_chars_batch
      (GRUDecoder.vocab_map self) batch (GRUDecoder.predictions st)
      (GRUDecoder.teacher_forcing self) (GRUDecoder.rng st) = Ok (chars, g')
    ∧ GRUDecoder.embedding self chars = Ok embedded
    ∧ cat2_dim1 (GRUDecoder.dropout self (GRUDecoder.dropout_calls st)
                   embedded) context = Ok joined
    ∧ unsqueeze1 joined = Ok gru_in
    ∧ GRUDecoder.rnn self gru_in (GRUDecoder.hidden st) = Ok (output, hidden')
    ∧ cat_pair_dim2 gru_in output = Ok fc_in
    ∧ GRUDecoder.fc_out self fc_in = Ok prediction
    ∧ match GRUDecoder.predictions st with
      | None => Ok prediction
      | Some p => cat_dim1 p prediction
      end = Ok p'
    ∧ GRUDecoder.predictions st' = Some p'
    ∧ GRUDecoder.hidden st' = hidden'.
Proof.
  unfold GRUDecoder.decode_step.
  destruct (GRUDecoder._get_char_input_next_timestep _ _ _ _ _ _)
    as [[chars g']|] eqn:Hnext; simpl; [|done].
  destruct (GRUDecoder.embedding self chars) as [embedded|] eqn:Hemb; simpl;
    [|done].
  destruct (cat2_dim1 _ context) as [joined|] eqn:Hcat; simpl; [|done].
  destruct (unsqueeze1 joined) as [gru_in|] eqn:Huns; simpl; [|done].
  destruct (GRUDecoder.rnn self gru_in _) as [[output hidden']|] eqn:Hrnn;
    simpl; [|done].
  destruct (cat_pair_dim2 gru_in output) as [fc_in|] eqn:Hfc_in; simpl;
    [|done].
  destruct (GRUDecoder.fc_out self fc_in) as [prediction|] eqn:Hfc; simpl;
    [|done].
  destruct (match GRUDecoder.predictions st with
            | None => Ok prediction
            | Some p => cat_dim1 p prediction
            end) as [p'|] eqn:Hp'; simpl; [|done].
  intros [= <-].
  exists chars, g', embedded, joined, gru_in, output, hidden', fc_in,
    prediction, p'.
  split_and!; done.
Qed.

(** C5: on a training batch (gold target characters of shape
    [(b * s, steps)] in the batch) [decode] runs exactly [steps] iterations
    and returns [steps] logit vectors per token.  At every iteration
    [0 < k < steps] the input is decided by one sample of the random
    generator: below [teacher_forcing] it is the [k]-th target character
    (column [k - 1] of the targets), otherwise the arg-max of the logits
    the decoder emitted at iteration [k - 1].  That input is what the
    iteration feeds to the network: the logits it appends are the output
    layer's, computed from the embedding of this input (after dropout),
    the context vectors and the hidden state of iteration [k - 1]. *)
Theorem GRUDecoder_decode_training self encoded batch target b s E V steps
    emb_dim g :
  GRUDecoder.training_batch map_to_chars_batch self encoded batch target
    b s E V steps emb_dim →
  (∃ final,
     GRUDecoder.decode_loop map_to_chars_batch self encoded batch g = Ok final
     ∧ GRUDecoder.decode_iterations map_to_chars_batch self encoded batch g
         steps = Ok final
     ∧ GRUDecoder.dropout_calls final = steps
     ∧ GRUDecoder.decode map_to_chars_batch self encoded batch g
       = Ok (GRUDecoder.predictions final)
     ∧ match GRUDecoder.predictions final with
       | None => steps = 0
       | Some p => shaped3 (b * s) steps V p
       end)
  ∧ ∀ k, 0 < k < steps →
      ∃ st p chars,
        GRUDecoder.decode_iterations map_to_chars_batch self encoded batch g k
        = Ok st
        ∧ GRUDecoder.predictions st = Some p
        ∧ shaped3 (b * s) k V p
        ∧ GRUDecoder.next_input map_to_chars_batch self batch st = Ok chars
        ∧ Ok chars
          = (if sltb (GRUDecoder.samples g (GRUDecoder.position g + (k - 1)))
                     (GRUDecoder.teacher_forcing self)
             then column target (Z.of_nat (k - 1))
             else let! last := select_dim1 p (Z.of_nat (k - 1)) in
                  argmax_dim1 last)
        ∧ ∃ context embedded joined gru_in output hidden' fc_in prediction
            p' st',
            reshape_rows encoded E = Ok context
            ∧ GRUDecoder.embedding self chars = Ok embedded
            ∧ cat2_dim1 (GRUDecoder.dropout self k embedded) context
              = Ok joined
            ∧ unsqueeze1 joined = Ok gru_in
            ∧ GRUDecoder.rnn self gru_in (GRUDecoder.hidden st)
              = Ok (output, hidden')
            ∧ cat_pair_dim2 gru_in output = Ok fc_in
            ∧ GRUDecoder.fc_out self fc_in = Ok prediction
            ∧ cat_dim1 p prediction = Ok p'
            ∧ GRUDecoder.decode_iterations map_to_chars_batch self encoded
                batch g (S k) = Ok st'
            ∧ GRUDecoder.predictions st' = Some p'
            ∧ GRUDecoder.hidden st' = hidden'.
Proof.
  intros Htb. split.
  - destruct (decode_iterations_after self encoded batch target b s E V steps
                emb_dim g steps Htb) as (final & Hfinal & Hafter); [done|].
    pose proof (GRUDecoder.target_present _ _ _ _ _ _ _ _ _ _ _ Htb) as Htgt.
    pose proof (GRUDecoder.target_shaped _ _ _ _ _ _ _ _ _ _ _ Htb)
      as [Hts _].
    assert (Hloop : GRUDecoder.decode_loop map_to_chars_batch self encoded
                      batch g = Ok final).
    { unfold GRUDecoder.decode_loop. rewrite Htgt. simpl.
      unfold shape_at. rewrite Hts. simpl. done. }
    exists final. split; [done|]. split; [done|].
    destruct Hafter as (Hcalls & _ & _ & _ & Hpred).
    split; [done|]. split.
    { unfold GRUDecoder.decode. by rewrite Hloop. }
    destruct (GRUDecoder.predictions final); [by destruct Hpred | done].
  - intros k [Hk0 Hk].
    destruct (decode_iterations_after self encoded batch target b s E V steps
                emb_dim g k Htb) as (st & Hst & Hafter); [lia|].
    destruct Hafter as (Hcalls & Hsamples & Hpos & _ & Hpred).
    destruct (GRUDecoder.predictions st) as [p|] eqn:Hp; [|lia].
    destruct Hpred as [_ Hshape].
    destruct (next_char_later self encoded batch target b s E V steps emb_dim
                (GRUDecoder.rng st) p k Htb Hshape Hk0)
      as (chars & Hchars & _ & _ & Hrule); [lia|].
    exists st, p, chars. split; [done|]. split; [done|]. split; [done|].
    split.
    { unfold GRUDecoder.next_input. rewrite Hp, Hchars. done. }
    split.
    { rewrite Hrule, Hsamples, Hpos. done. }
    destruct (decode_iterations_after self encoded batch target b s E V steps
                emb_dim g (S k) Htb) as (st' & Hst' & _); [lia|].
    pose proof (GRUDecoder.encoded_shaped _ _ _ _ _ _ _ _ _ _ _ Htb) as Henc.
    pose proof (GRUDecoder.context_width _ _ _ _ _ _ _ _ _ _ _ Htb) as HE.
    destruct (decode_start self encoded b s E Henc HE)
      as (context & hidden0 & Hw & Hc & Hh & _).
    assert (Hstep : GRUDecoder.decode_step map_to_chars_batch self batch
                      context st = Ok st').
    { pose proof Hst as Hrun. pose proof Hst' as Hrun'.
      unfold GRUDecoder.decode_iterations in Hrun, Hrun'.
      rewrite Hw in Hrun, Hrun'. cbn [bind] in Hrun, Hrun'.
      rewrite Hc in Hrun, Hrun'. cbn [bind] in Hrun, Hrun'.
      rewrite Hh in Hrun, Hrun'. cbn [bind] in Hrun, Hrun'.
      rewrite for_range_snoc, Hrun in Hrun'. exact Hrun'. }
    destruct (decode_step_inv self batch context st st' Hstep)
      as (chars0 & g' & embedded & joined & gru_in & output & hidden' & fc_in
          & prediction & p' & Hnext & Hemb & Hcat & Huns & Hrnn & Hfc_in
          & Hfc & Hp' & Hpred' & Hhid').
    rewrite Hp, Hchars in Hnext. injection Hnext as <- <-.
    rewrite Hp in Hp'. rewrite Hcalls in Hcat.
    exists context, embedded, joined, gru_in, output, hidden', fc_in,
      prediction, p', st'.
    split_and!; done.
Qed.

(** C7: without target lemmas in the batch [decode] runs no iteration of
    its generation loop and returns no predictions: never a tensor, and
    [None] for every encoder output of positive width.  Without gold lemmas
    [forward] adds no targets, so the same holds of the whole decoder. *)
Theorem GRUDecoder_decode_inference self (encoded : Tensor3 T)
    (batch : Batch) g :
  TARGET_LEMMAS batch = None →
  GRUDecoder.decode_loop map_to_chars_batch self encoded batch g
  = GRUDecoder.decode_iterations map_to_chars_batch self encoded batch g 0
  ∧ (∀ p, GRUDecoder.decode map_to_chars_batch self encoded batch g
          ≠ Ok (Some p))
  ∧ (∀ b s E, shaped3 b s E encoded → 0 < E →
       GRUDecoder.decode map_to_chars_batch self encoded batch g = Ok None)
  ∧ (LEMMAS batch = None →
       GRUDecoder.forward map_to_chars_batch self encoded batch g
       = GRUDecoder.decode map_to_chars_batch self encoded batch g).
Proof.
  intros Hnone.
  assert (Hloop : GRUDecoder.decode_loop map_to_chars_batch self encoded
                    batch g
                  = GRUDecoder.decode_iterations map_to_chars_batch self
                      encoded batch g 0).
  { unfold GRUDecoder.decode_loop. by rewrite Hnone. }
  split; [done|]. split; [|split].
  - intros p. unfold GRUDecoder.decode. rewrite Hloop.
    unfold GRUDecoder.decode_iterations.
    destruct (shape_at encoded 2) as [w|]; simpl; [|done].
    destruct (reshape_rows encoded w) as [c|]; simpl; [|done].
    destruct (reshape_hidden c) as [h|]; simpl; done.
  - intros b s E Henc HE. unfold GRUDecoder.decode. rewrite Hloop.
    destruct (decode_start self encoded b s E Henc HE)
      as (context & hidden & Hw & Hc & Hh & _).
    unfold GRUDecoder.decode_iterations.
    rewrite Hw. simpl. rewrite Hc. simpl. rewrite Hh. done.
  - intros Hlem. unfold GRUDecoder.forward, GRUDecoder.add_targets.
    by rewrite Hlem.
Qed.
End gru_decode.

(** ** The first input of the character decoder *)

Lemma max_list_pos (ns : list nat) :
  0 < max_list ns → ∃ n, n ∈ ns ∧ 0 < n.
Proof.
  induction ns as [|n ns IH]; simpl; [lia|]. intros Hmax.
  destruct (decide (0 < n)) as [Hn|Hn].
  - exists n. split; [left | done].
  - destruct IH as (m & Hm & Hpos); [lia|]. exists m. split; [by right | done].
Qed.

Lemma elem_of_concat {A} (x : A) (ls : list (list A)) :
  x ∈ concat ls ↔ ∃ l, x ∈ l ∧ l ∈ ls.
Proof.
  induction ls as [|l ls IH]; simpl.
  - split; [by intros ?%elem_of_nil|]. by intros (l & _ & ?%elem_of_nil).
  - rewrite elem_of_app, IH. split.
    + intros [Hx|(l' & Hx & Hl')].
      * exists l. split; [done | left].
      * exists l'. split; [done | by right].
    + intros (l' & Hx & [->|Hl']%elem_of_cons); [by left|].
      right. by exists l'.
Qed.

Lemma concat_lookup_block {A} (w : nat) (blocks : list (list A)) (i j : nat)
    (blk : list A) :
  Forall (λ r, length r = w) blocks → blocks !! i = Some blk → j < w →
  concat blocks !! (i * w + j) = blk !! j.
Proof.
  intros Hall Hblk Hj.
  rewrite <- (concat_rows_chunk w blocks i blk Hall Hblk).
  by rewrite lookup_take_lt, lookup_drop.
Qed.

Section token_rows.
Variable w2i : gmap string nat.
Variables eos unk : nat.
Hypothesis Heos : w2i !! Data.EOS = Some eos.
Hypothesis Hunk : w2i !! Data.UNK = Some unk.

Lemma token_to_index_default (token : string) :
  Data.token_to_index w2i true false token
  = Ok (((λ c, default unk (w2i !! c)) <$> Data.chars_of token) ++ [eos]).
Proof using Heos Hunk.
  unfold Data.token_to_index, dict_get. rewrite Heos. simpl.
  rewrite (for_each_Ok _ (λ c, default unk (w2i !! c))); [done|].
  intros c _. destruct (w2i !! c); [done|]. by rewrite Hunk.
Qed.
End token_rows.

Section first_input.
Context {T : Type} `{Scalar T}.

(** C2: at iteration 0 the input of the character decoder is column 0 of
    the character matrix of the source tokens, whatever the targets, the
    teacher-forcing rate and the random generator, which is left as it
    was.  For a token of a sentence that is the index of the token's first
    character (the UNK index for a character the vocabulary does not
    have): a character of the token, not a start symbol.  A token without
    characters gives its end symbol, and a token slot past the end of a
    sentence the padding index 0. *)
Theorem GRUDecoder_first_input_first_character (vm : VocabMap)
    (batch : Batch) (tokens : Sentences) (teacher_forcing : T)
    (g : GRUDecoder.Rng) (eos unk : nat) :
  TOKENS batch = Some tokens →
  w2i vm !! Data.EOS = Some eos →
  w2i vm !! Data.UNK = Some unk →
  0 < max_list (length <$> tokens) →
  ∃ first,
    GRUDecoder._get_char_input_next_timestep Data.map_to_chars_batch vm batch
      None teacher_forcing g = Ok (first, g)
    ∧ shaped1 (length tokens * max_list (length <$> tokens)) first
    ∧ ∀ i sentence j,
        tokens !! i = Some sentence →
        j < max_list (length <$> tokens) →
        tolist first !! (i * max_list (length <$> tokens) + j)
        = Some match sentence !! j with
               | Some (String c _) =>
                   default unk (w2i vm !! String c EmptyString)
               | Some EmptyString => eos
               | None => 0
               end.
Proof.
  intros Htok Heos Hunk Hwords.
  set (row := λ token : string,
         ((λ c, default unk (w2i vm !! c)) <$> Data.chars_of token)
           ++ [eos]).
  set (rows := λ sentence : list string, row <$> sentence).
  set (sents := rows <$> tokens).
  set (max_words := max_list (length <$> tokens)) in *.
  set (max_chars := max_list (length <$> concat sents)).
  assert (Hsents_len : length <$> sents = length <$> tokens).
  { unfold sents. rewrite <- list_fmap_compose. apply list_fmap_ext.
    intros _ sentence _. simpl. unfold rows. by rewrite length_fmap. }
  assert (Hchars : 1 ≤ max_chars).
  { destruct (max_list_pos _ Hwords) as (n & Hn & Hpos).
    apply list_elem_of_fmap in Hn as (sentence & -> & Hin).
    destruct sentence as [|token sentence]; [simpl in Hpos; lia|].
    etrans; [|apply (max_list_elem_of_le (length (row token)))].
    { unfold row. rewrite length_app. simpl. lia. }
    apply list_elem_of_fmap. exists (row token). split; [done|].
    apply elem_of_concat. exists (rows (token :: sentence)).
    split; [left|]. unfold sents. apply list_elem_of_fmap. eauto. }
  set (block := λ sent : list (list nat),
         Data.pad_to max_words (replicate max_chars 0)
           (Data.pad_to max_chars 0 <$> sent)).
  set (chars := mkTensor [length sents * max_words; max_chars]
                  (concat (block <$> sents))).
  assert (Hmap : Data.map_to_chars_batch tokens (w2i vm) None = Ok chars).
  { unfold Data.map_to_chars_batch. simpl.
    rewrite (for_each_Ok _ rows).
    - simpl. fold sents. rewrite decide_False; [by rewrite Hsents_len|].
      intros Hnil. unfold sents in Hnil. apply fmap_nil_inv in Hnil.
      unfold max_words in Hwords. rewrite Hnil in Hwords.
      simpl in Hwords. lia.
    - intros sentence _. unfold rows. apply for_each_Ok. intros token _.
      by apply token_to_index_default. }
  assert (Hblock_len : ∀ sent, sent ∈ sents → length (block sent) = max_words).
  { intros sent Hsent. unfold block, Data.pad_to.
    rewrite length_app, length_replicate, length_fmap.
    assert (length sent ≤ max_words); [|lia].
    unfold max_words. rewrite <- Hsents_len.
    apply max_list_elem_of_le, list_elem_of_fmap. eauto. }
  assert (Hrow_len : ∀ sent r, sent ∈ sents → r ∈ block sent →
                               length r = max_chars).
  { intros sent r Hsent Hr. unfold block, Data.pad_to in Hr.
    apply elem_of_app in Hr as [Hr|Hr].
    - apply list_elem_of_fmap in Hr as (r0 & -> & Hr0).
      rewrite length_app, length_replicate.
      assert (length r0 ≤ max_chars); [|lia].
      apply max_list_elem_of_le, list_elem_of_fmap. exists r0.
      split; [done|]. apply elem_of_concat. eauto.
    - apply elem_of_replicate in Hr as [-> _]. by rewrite length_replicate. }
  assert (Hshape : shaped2 (length tokens * max_words) max_chars chars).
  { assert (Hlen : length sents = length tokens).
    { unfold sents. by rewrite length_fmap. }
    unfold chars. rewrite Hlen. split; [done|]. simpl. split.
    - rewrite (length_concat_rows max_words), length_fmap, Hlen; [done|].
      rewrite Forall_fmap. apply Forall_forall. intros sent Hin.
      by apply Hblock_len.
    - apply Forall_concat. rewrite Forall_fmap. apply Forall_forall.
      intros sent Hin. apply Forall_forall. intros r Hr.
      by eapply Hrow_len. }
  destruct (column_shaped chars _ _ 0 Hshape) as (first & Hfirst & Hs1 & Hall).
  { lia. }
  exists first. split; [|split; [done|]].
  { unfold GRUDecoder._get_char_input_next_timestep.
    rewrite Htok. simpl. rewrite Hmap. simpl.
    change 0%Z with (Z.of_nat 0). by rewrite Hfirst. }
  intros i sentence j Hi Hj.
  assert (Hsent : sents !! i = Some (row <$> sentence)).
  { unfold sents. by rewrite list_lookup_fmap, Hi. }
  assert (Hin : (row <$> sentence) ∈ sents).
  { by eapply list_elem_of_lookup_2. }
  assert (Hlookup : tolist chars !! (i * max_words + j)
                    = block (row <$> sentence) !! j).
  { unfold chars. simpl. apply concat_lookup_block; [| |done].
    - rewrite Forall_fmap. apply Forall_forall. intros sent Hs.
      by apply Hblock_len.
    - by rewrite list_lookup_fmap, Hsent. }
  destruct (lookup_lt_is_Some_2 (block (row <$> sentence)) j) as [r Hr].
  { rewrite Hblock_len by done. lia. }
  rewrite Hr in Hlookup.
  destruct (Forall2_lookup_l _ _ _ _ _ Hall Hlookup) as (x & Hx & Hr0).
  rewrite Hx. f_equal.
  unfold block, Data.pad_to in Hr.
  destruct (decide (j < length sentence)) as [Hjs|Hjs].
  - rewrite lookup_app_l in Hr by (by rewrite !length_fmap).
    rewrite !list_lookup_fmap in Hr.
    destruct (sentence !! j) as [token|]; [|done].
    simpl in Hr. injection Hr as <-. unfold row in Hr0.
    destruct token as [|c rest]; simpl in Hr0; by injection Hr0.
  - rewrite lookup_app_r in Hr by (rewrite !length_fmap; lia).
    apply lookup_replicate in Hr as [-> _].
    rewrite lookup_replicate in Hr0. destruct Hr0 as [-> _].
    by rewrite lookup_ge_None_2 by lia.
Qed.
End first_input.

(** ** Encoder.__init__ *)

Lemma contains_prefix (sub s : string) :
  String.prefix sub s = true → contains sub s = true.
Proof. intros Hp. destruct s; cbn [contains]; by rewrite Hp. Qed.

Lemma lstm_named_parameters_known (input_size hidden_size num_layers : nat)
    (name : string) (shape : list nat) :
  (name, shape) ∈ lstm_named_parameters input_size hidden_size num_layers →
  contains "bias" name = true
  ∨ (contains "weight" name = true ∧ ∃ c, shape = [4 * hidden_size; c]).
Proof.
  unfold lstm_named_parameters. intros Hin.
  apply list_elem_of_bind in Hin as (layer & Hin & _).
  apply list_elem_of_bind in Hin as (suffix & Hin & _).
  apply list_elem_of_fmap in Hin as ([kind sh] & [= -> ->] & Hkind).
  repeat (apply elem_of_cons in Hkind as [[= -> ->]|Hkind]);
    [right | right | left | left | by apply elem_of_nil in Hkind];
    try (split; [|by eexists]); by apply contains_prefix.
Qed.

Section encoder_init.
Context {T : Type} `{Scalar T}.
Variable nn_LSTM : nat → nat → nat → result (Encoder.LSTM (T:=T)).

(** With a hidden width the initialisation loop returns. *)
Lemma init_lstm_parameters_Ok (input_size hidden_size num_layers : nat) :
  0 < hidden_size →
  Encoder.init_lstm_parameters
    (lstm_named_parameters input_size hidden_size num_layers) = Ok tt.
Proof.
  intros Hh. unfold Encoder.init_lstm_parameters.
  rewrite (for_each_Ok _ (λ _, tt)); [done|].
  intros [name shape] Hname.
  destruct (lstm_named_parameters_known _ _ _ _ _ Hname)
    as [Hb|(Hw & c & ->)].
  - by rewrite Hb.
  - rewrite Hw. destruct (contains "bias" name); [done|].
    unfold xavier_uniform_fans. rewrite decide_False; [done|]. simpl. lia.
Qed.

(** Without one, the Xavier initialisation of the first recurrent weights
    (or of the first input weights, for an input of width 0) divides by
    zero. *)
Lemma init_lstm_parameters_hidden_0 (input_size num_layers : nat) :
  0 < num_layers →
  Encoder.init_lstm_parameters
    (lstm_named_parameters input_size 0 num_layers)
  = Raise ZeroDivisionError.
Proof.
  intros Hl. destruct num_layers as [|l]; [lia|].
  assert (Hlist : ∃ tail,
    lstm_named_parameters input_size 0 (S l)
    = ("weight_ih_l0", [0; input_size]) :: ("weight_hh_l0", [0; 0]) :: tail).
  { eexists. unfold lstm_named_parameters. simpl. reflexivity. }
  destruct Hlist as [tail ->]. unfold Encoder.init_lstm_parameters.
  cbn [for_each]. change (contains "bias" "weight_ih_l0") with false.
  change (contains "weight" "weight_ih_l0") with true.
  change (contains "bias" "weight_hh_l0") with false.
  change (contains "weight" "weight_hh_l0") with true.
  cbv iota. unfold xavier_uniform_fans at 1.
  destruct (decide _); [done|]. cbn [bind].
  unfold xavier_uniform_fans at 1. by rewrite decide_True.
Qed.

(** The loop raises nothing else. *)
Lemma init_lstm_parameters_raises (input_size hidden_size num_layers : nat)
    (e : PyError) :
  Encoder.init_lstm_parameters
    (lstm_named_parameters input_size hidden_size num_layers) = Raise e →
  hidden_size = 0 ∧ e = ZeroDivisionError.
Proof.
  intros Hraise. destruct hidden_size as [|h].
  - split; [done|]. destruct num_layers as [|l]; [done|].
    rewrite init_lstm_parameters_hidden_0 in Hraise by lia.
    by injection Hraise.
  - by rewrite init_lstm_parameters_Ok in Hraise by lia.
Qed.

(** C6, as the code has it: construction raises the encoder's
    configuration error exactly when the output widths of the embeddings
    routed to the recurrent layer sum to a non-zero value while
    [main_lstm_layers] is 0: a routed embedding of width 0 does not count.
    With a non-zero routed width construction fails whenever no recurrent
    layer is configured, that is with no layers or with a hidden width of
    0; in the latter case it fails in the constructor of the recurrent
    layer or, where that accepts the width, in the Xavier initialisation
    of its weights.  With no layers and nothing routed the encoder is
    built without a recurrent layer; with layers and a hidden width, what
    the constructor of the recurrent layer returns decides. *)
Theorem Encoder_init_configuration_error
    (embeddings : list (Modules * Encoder.Embedding))
    (main_lstm_dim main_lstm_layers : nat) :
  (∀ i h l, nn_LSTM i h l ≠ Raise (ValueError Encoder.not_using_bilstm)) →
  (∀ i h l lstm, nn_LSTM i h l = Ok lstm →
     Encoder.hidden_size lstm = h ∧ Encoder.num_layers lstm = l) →
  let routed :=
    sum_list (Encoder.output_dim <$>
                filter (λ emb, Encoder.to_bilstm emb = true)
                       (Encoder.values embeddings)) in
  let direct :=
    sum_list (Encoder.output_dim <$>
                filter (λ emb, Encoder.to_bilstm emb = false)
                       (Encoder.values embeddings)) in
  (Encoder.init nn_LSTM embeddings main_lstm_dim main_lstm_layers
   = Raise (ValueError Encoder.not_using_bilstm)
   ↔ routed ≠ 0 ∧ main_lstm_layers = 0)
  ∧ (routed ≠ 0 → main_lstm_layers = 0 ∨ main_lstm_dim = 0 →
     ∃ e, Encoder.init nn_LSTM embeddings main_lstm_dim main_lstm_layers
          = Raise e)
  ∧ (main_lstm_layers = 0 → routed = 0 →
     Encoder.init nn_LSTM embeddings main_lstm_dim main_lstm_layers
     = Ok (Encoder.mk embeddings false None direct))
  ∧ (main_lstm_layers ≠ 0 → 0 < main_lstm_dim →
     Encoder.init nn_LSTM embeddings main_lstm_dim main_lstm_layers
     = let! lstm := nn_LSTM routed main_lstm_dim main_lstm_layers in
       Ok (Encoder.mk embeddings true (Some lstm)
             (direct + main_lstm_dim * 2))).
Proof.
  intros Hlib Hctor routed direct.
  assert (Hlayers : main_lstm_layers ≠ 0 →
     Encoder.init nn_LSTM embeddings main_lstm_dim main_lstm_layers
     = let! lstm := nn_LSTM routed main_lstm_dim main_lstm_layers in
       let! _ :=
         Encoder.init_lstm_parameters
           (lstm_named_parameters (Encoder.input_size lstm)
              (Encoder.hidden_size lstm) (Encoder.num_layers lstm)) in
       Ok (Encoder.mk embeddings true (Some lstm)
             (direct + main_lstm_dim * 2))).
  { intros Hl. unfold Encoder.init. fold routed direct.
    apply Nat.eqb_neq in Hl. rewrite Hl. simpl.
    by rewrite andb_false_r. }
  assert (Hnone : main_lstm_layers = 0 → routed ≠ 0 →
     Encoder.init nn_LSTM embeddings main_lstm_dim main_lstm_layers
     = Raise (ValueError Encoder.not_using_bilstm)).
  { intros -> Hr. unfold Encoder.init. fold routed direct.
    cbn [Nat.eqb negb]. rewrite andb_true_r. unfold truthy.
    apply Nat.eqb_neq in Hr. by rewrite Hr. }
  assert (Hempty : main_lstm_layers = 0 → routed = 0 →
     Encoder.init nn_LSTM embeddings main_lstm_dim main_lstm_layers
     = Ok (Encoder.mk embeddings false None direct)).
  { intros -> Hr. unfold Encoder.init. fold routed direct.
    rewrite Hr. done. }
  split; [|split; [|split; [done|]]].
  - destruct (decide (main_lstm_layers = 0)) as [Hl|Hl].
    + destruct (decide (routed = 0)) as [Hr|Hr].
      * rewrite (Hempty Hl Hr). split; [done | by intros [? _]].
      * by rewrite (Hnone Hl Hr).
    + rewrite (Hlayers Hl). split; [|by intros [_ ?]].
      intros Herr. exfalso.
      destruct (nn_LSTM routed main_lstm_dim main_lstm_layers) as [lstm|e]
        eqn:Hlstm.
      * simpl in Herr.
        destruct (Encoder.init_lstm_parameters _) as [[]|e] eqn:Hloop;
          [done|].
        apply init_lstm_parameters_raises in Hloop as [_ ->]. done.
      * simpl in Herr. injection Herr as ->. by eapply Hlib.
  - intros Hr Hbad.
    destruct (decide (main_lstm_layers = 0)) as [Hl|Hl].
    { eexists. by apply Hnone. }
    destruct Hbad as [?| ->]; [done|]. rewrite (Hlayers Hl).
    destruct (nn_LSTM routed 0 main_lstm_layers) as [lstm|e] eqn:Hlstm;
      [|by eexists].
    destruct (Hctor _ _ _ _ Hlstm) as [Hh Hn]. simpl. rewrite Hh, Hn.
    rewrite init_lstm_parameters_hidden_0 by lia. by eexists.
  - intros Hl Hd. rewrite (Hlayers Hl).
    destruct (nn_LSTM routed main_lstm_dim main_lstm_layers) as [lstm|e]
      eqn:Hlstm; [|done].
    destruct (Hctor _ _ _ _ Hlstm) as [Hh _]. simpl. rewrite Hh.
    rewrite init_lstm_parameters_Ok by lia. done.
Qed.
End encoder_init.

(** ** Encoder.forward *)

Lemma comprehension_total {A B} (c : A → bool) (f : A → result B)
    (P : A → B → Prop) (xs : list A) :
  (∀ x, x ∈ xs → c x = true → ∃ y, f x = Ok y ∧ P x y) →
  ∃ ys, comprehension (λ x, Ok (c x)) f xs = Ok ys
        ∧ Forall2 P (filter (λ x, c x = true) xs) ys.
Proof.
  induction xs as [|x xs IH]; intros Hf.
  { exists []. by split. }
  destruct IH as (ys & Hys & Hall).
  { intros z Hz. apply Hf. by right. }
  simpl. destruct (c x) eqn:Hc.
  - destruct (Hf x) as (y & Hy & HP); [left | done |].
    exists (y :: ys). rewrite Hy. simpl. rewrite Hys. simpl.
    split; [done|]. rewrite filter_cons_True by done. by constructor.
  - exists ys. split; [done|].
    rewrite filter_cons_False; [done|]. by rewrite Hc.
Qed.

Section cat_shapes.
Context {A : Type}.

Lemma cat_dim2_onto_shaped (ts : list (Tensor3 A)) (ws : list nat)
    (acc : Tensor3 A) (b s w : nat) :
  shaped3 b s w acc →
  Forall2 (λ t w', shaped3 b s w' t) ts ws →
  ∃ c, cat_dim2_onto acc ts = Ok c ∧ shaped3 b s (w + sum_list ws) c.
Proof.
  intros Hacc Hts. revert acc w Hacc.
  induction Hts as [|t w' ts ws Ht _ IH]; intros acc w Hacc.
  - exists acc. split; [done|]. simpl. by rewrite Nat.add_0_r.
  - simpl. destruct (cat_pair_dim2_shaped acc t b s w w' Hacc Ht)
      as (acc' & -> & Hacc'). simpl.
    destruct (IH acc' (w + w') Hacc') as (c & Hc & Hshape).
    exists c. split; [done|]. by rewrite Nat.add_assoc.
Qed.

Lemma cat_if_any_shaped (ts : list (Tensor3 A)) (ws : list nat)
    (b s : nat) :
  Forall2 (λ t w, shaped3 b s w t) ts ws → ts ≠ [] →
  ∃ c, Encoder.cat_if_any ts = Ok (Some c) ∧ shaped3 b s (sum_list ws) c.
Proof.
  intros Hts Hne. destruct Hts as [|t w ts ws Ht Hts]; [done|].
  destruct (cat_dim2_onto_shaped ts ws t b s w Ht Hts) as (c & Hc & Hshape).
  exists c. split; [|done]. unfold Encoder.cat_if_any, cat_dim2.
  by rewrite Hc.
Qed.
End cat_shapes.

Section encoder_forward.
Context {T : Type} `{Scalar T}.
Variable nn_Dropout : Tensor3 T → Tensor3 T.
Implicit Types self : Encoder.t (T:=T).
Implicit Types emb : Encoder.Embedding (T:=T).

(** The features of the embeddings that pass [c], concatenated. *)
Lemma Encoder_embeddings_cat self (batch : Sentences) (lengths : list nat)
    (b s : nat) (c : Encoder.Embedding → bool) :
  (∀ emb, emb ∈ Encoder.values (Encoder.embeddings self) →
     ∃ t, Encoder.emb_forward emb batch lengths = Ok t
          ∧ shaped3 b s (Encoder.output_dim emb) t) →
  (∃ emb, emb ∈ Encoder.values (Encoder.embeddings self) ∧ c emb = true) →
  ∃ ts e,
    comprehension (λ emb, Ok (c emb))
      (λ emb, Encoder.emb_forward emb batch lengths)
      (Encoder.values (Encoder.embeddings self)) = Ok ts
    ∧ Encoder.cat_if_any ts = Ok (Some e)
    ∧ shaped3 b s
        (sum_list (Encoder.output_dim <$>
           filter (λ emb, c emb = true)
                  (Encoder.values (Encoder.embeddings self)))) e.
Proof.
  intros Hfwd (emb0 & Hin0 & Hc0).
  destruct (comprehension_total c
              (λ emb, Encoder.emb_forward emb batch lengths)
              (λ emb t, shaped3 b s (Encoder.output_dim emb) t)
              (Encoder.values (Encoder.embeddings self)))
    as (ts & Hts & Hall).
  { intros emb Hin _. by apply Hfwd. }
  destruct (cat_if_any_shaped ts
              (Encoder.output_dim <$>
                 filter (λ emb, c emb = true)
                        (Encoder.values (Encoder.embeddings self))) b s)
    as (e & He & Hshape).
  - apply Forall2_fmap_r, Forall2_flip. exact Hall.
  - intros ->. apply Forall2_nil_inv_r in Hall.
    assert (Hmem : emb0 ∈ filter (λ emb, c emb = true)
                     (Encoder.values (Encoder.embeddings self))).
    { by apply list_elem_of_filter. }
    rewrite Hall in Hmem. by apply elem_of_nil in Hmem.
  - by exists ts, e.
Qed.

(** The truth value of a tensor of more than one entry. *)
Lemma tensor_bool_ambiguous (e : Tensor3 T) (b s w : nat) :
  shaped3 b s w e → 1 < b * s * w → tensor_bool e = Raise RuntimeError.
Proof.
  intros [_ Hrows] Hnumel. unfold tensor_bool.
  pose proof (length_concat_concat b s w (tolist e) Hrows) as Hlen.
  destruct (concat (concat (tolist e))) as [|x [|y l]]; simpl in Hlen;
    [done | lia | done].
Qed.

(** X15: with the recurrent layer in use, an embedding routed to it and
    embeddings that are not, whose features have more than one entry,
    [forward] never returns: whatever the recurrent layer does, the truth
    value of the tensor [embs] is taken before the concatenation. *)
Lemma Encoder_forward_mixed_never_returns self (batch : Sentences)
    (lengths : list nat) (b s : nat) :
  Encoder.use_bilstm self = true →
  (∀ emb, emb ∈ Encoder.values (Encoder.embeddings self) →
     ∃ t, Encoder.emb_forward emb batch lengths = Ok t
          ∧ shaped3 b s (Encoder.output_dim emb) t) →
  (∃ emb, emb ∈ Encoder.values (Encoder.embeddings self)
          ∧ Encoder.to_bilstm emb = true) →
  1 < b * s * sum_list (Encoder.output_dim <$>
                          filter (λ emb, Encoder.to_bilstm emb = false)
                                 (Encoder.values (Encoder.embeddings self))) →
  ∃ err, Encoder.forward nn_Dropout self batch lengths = Raise err.
Proof.
  intros Huse Hfwd Hrouted Hnumel.
  assert (Hfilter :
    filter (λ emb, negb (Encoder.to_bilstm emb) = true)
           (Encoder.values (Encoder.embeddings self))
    = filter (λ emb, Encoder.to_bilstm emb = false)
             (Encoder.values (Encoder.embeddings self))).
  { apply list_filter_iff. intros emb. apply negb_true_iff. }
  destruct (Encoder_embeddings_cat self batch lengths b s Encoder.to_bilstm
              Hfwd Hrouted) as (ts_r & r & Hts_r & Hr & _).
  destruct (Encoder_embeddings_cat self batch lengths b s
              (λ emb, negb (Encoder.to_bilstm emb)) Hfwd)
    as (ts_d & e & Hts_d & He & Hshape).
  { destruct (filter (λ emb, Encoder.to_bilstm emb = false)
                (Encoder.values (Encoder.embeddings self)))
      as [|emb l] eqn:Hl; [simpl in Hnumel; lia|].
    assert (Hmem : emb ∈ filter (λ emb, Encoder.to_bilstm emb = false)
                     (Encoder.values (Encoder.embeddings self))).
    { rewrite Hl. left. }
    apply list_elem_of_filter in Hmem as [Hfalse Hin].
    exists emb. split; [done|]. by rewrite Hfalse. }
  rewrite Hfilter in Hshape.
  unfold Encoder.forward. rewrite Hts_r. simpl. rewrite Hr. simpl.
  rewrite Hts_d. simpl. rewrite He. simpl. rewrite Huse.
  destruct (pack_padded_sequence r lengths) as [packed|err]; simpl;
    [|by eexists].
  destruct (attribute (Encoder.bilstm self)) as [lstm|err]; simpl;
    [|by eexists].
  destruct (Encoder.lstm_forward lstm packed) as [packed_out|err]; simpl;
    [|by eexists].
  rewrite (tensor_bool_ambiguous e _ _ _ Hshape Hnumel). simpl. by eexists.
Qed.
End encoder_forward.

Section packed_shapes.
Context {T : Type} `{Scalar T}.

(** The sequences of a packed batch have the given lengths. *)
Lemma pack_padded_sequence_Ok (input : Tensor3 T) (lengths : list nat)
    (b s f : nat) :
  shaped3 b s f input → 0 < b * s * f → length lengths = b →
  Forall (λ n, 0 < n ∧ n ≤ s) lengths →
  ∃ packed,
    pack_padded_sequence input lengths = Ok packed
    ∧ length <$> sequences packed = lengths
    ∧ features packed = f.
Proof.
  intros (Hs & Hlen & Hrows) Hnumel Hlengths Hpos.
  unfold pack_padded_sequence. rewrite Hs.
  rewrite decide_True; cycle 1.
  { split; [|done]. unfold numel. rewrite Hs. simpl. lia. }
  eexists. split; [done|]. simpl. split; [|done].
  apply list_eq. intros i. rewrite list_lookup_fmap.
  destruct (lengths !! i) as [n|] eqn:Hn.
  - destruct (lookup_lt_is_Some_2 (tolist input) i) as [sq Hsq].
    { apply lookup_lt_Some in Hn. lia. }
    rewrite (proj2 (lookup_zip_with_Some take lengths (tolist input) i
                      (take n sq))); [|by exists n, sq].
    simpl. rewrite length_take. f_equal.
    rewrite Forall_lookup in Hrows. destruct (Hrows i sq Hsq) as [Hl _].
    rewrite Forall_lookup in Hpos. destruct (Hpos i n Hn). lia.
  - rewrite lookup_ge_None_2; [done|].
    rewrite length_zip_with. apply lookup_ge_None_1 in Hn. lia.
Qed.

(** Padding a packed batch gives one row per sequence, as long as the
    longest sequence. *)
Lemma pad_packed_sequence_shaped (packed : PackedSequence T) :
  Forall (Forall (λ v, length v = features packed)) (sequences packed) →
  shaped3 (length (sequences packed))
    (max_list (length <$> sequences packed)) (features packed)
    (pad_packed_sequence packed).1.
Proof.
  intros Hwidth. unfold pad_packed_sequence. simpl.
  split; [done|]. simpl. split; [by rewrite length_fmap|].
  rewrite Forall_fmap. apply Forall_forall. intros sq Hsq. simpl. split.
  - rewrite length_app, length_replicate.
    assert (length sq ≤ max_list (length <$> sequences packed)); [|lia].
    apply max_list_elem_of_le, list_elem_of_fmap. eauto.
  - apply Forall_app. split.
    + rewrite Forall_forall in Hwidth. by apply Hwidth.
    + apply Forall_replicate. by rewrite length_replicate.
Qed.
End packed_shapes.

Section encoder_forward_shapes.
Context {T : Type} `{Scalar T}.
Variable nn_Dropout : Tensor3 T → Tensor3 T.
Implicit Types self : Encoder.t (T:=T).
Implicit Types emb : Encoder.Embedding (T:=T).

(** No embedding passes [c]: the comprehension is empty. *)
Lemma Encoder_embeddings_none self (batch : Sentences) (lengths : list nat)
    (c : Encoder.Embedding → bool) :
  (∀ emb, emb ∈ Encoder.values (Encoder.embeddings self) → c emb = false) →
  comprehension (λ emb, Ok (c emb))
    (λ emb, Encoder.emb_forward emb batch lengths)
    (Encoder.values (Encoder.embeddings self)) = Ok [].
Proof.
  generalize (Encoder.values (Encoder.embeddings self)). intros embs.
  induction embs as [|emb embs IH]; intros Hc; [done|].
  simpl. rewrite (Hc emb) by left. apply IH. intros emb' Hin.
  apply Hc. by right.
Qed.

(** Embeddings that bypass the recurrent layer only: [forward] returns
    their features side by side. *)
Lemma Encoder_forward_direct_shape self (batch : Sentences)
    (lengths : list nat) (b s : nat) :
  (∀ emb, emb ∈ Encoder.values (Encoder.embeddings self) →
     Encoder.to_bilstm emb = false
     ∧ ∃ t, Encoder.emb_forward emb batch lengths = Ok t
            ∧ shaped3 b s (Encoder.output_dim emb) t) →
  Encoder.embeddings self ≠ [] →
  ∃ out,
    Encoder.forward nn_Dropout self batch lengths = Ok (Some out)
    ∧ shaped3 b s
        (sum_list (Encoder.output_dim <$>
           filter (λ emb, Encoder.to_bilstm emb = false)
                  (Encoder.values (Encoder.embeddings self)))) out.
Proof.
  intros Hembs Hne.
  assert (Hfilter :
    filter (λ emb, negb (Encoder.to_bilstm emb) = true)
           (Encoder.values (Encoder.embeddings self))
    = filter (λ emb, Encoder.to_bilstm emb = false)
             (Encoder.values (Encoder.embeddings self))).
  { apply list_filter_iff. intros emb. apply negb_true_iff. }
  destruct (Encoder_embeddings_cat self batch lengths b s
              (λ emb, negb (Encoder.to_bilstm emb)))
    as (ts & e & Hts & He & Hshape).
  { intros emb Hin. by apply Hembs. }
  { unfold Encoder.values.
    destruct (Encoder.embeddings self) as [|[name emb] embs]; [done|].
    exists emb. split; [left|].
    destruct (Hembs emb) as [-> _]; [left | done]. }
  rewrite Hfilter in Hshape. exists e. split; [|done].
  unfold Encoder.forward.
  rewrite (Encoder_embeddings_none self batch lengths Encoder.to_bilstm).
  - simpl. rewrite Hts. simpl. rewrite He. simpl.
    by destruct (Encoder.use_bilstm self).
  - intros emb Hin. by apply Hembs.
Qed.

(** X14: embeddings routed to the recurrent layer only: [forward] returns the
    padded output of the recurrent layer, as long as the longest sentence
    and twice the hidden width wide. *)
Lemma Encoder_forward_routed_shape self (lstm : Encoder.LSTM (T:=T))
    (batch : Sentences) (lengths : list nat) (b s hidden : nat) :
  Encoder.use_bilstm self = true →
  Encoder.bilstm self = Some lstm →
  (∀ emb, emb ∈ Encoder.values (Encoder.embeddings self) →
     Encoder.to_bilstm emb = true
     ∧ ∃ t, Encoder.emb_forward emb batch lengths = Ok t
            ∧ shaped3 b s (Encoder.output_dim emb) t) →
  0 < b * s * sum_list (Encoder.output_dim <$>
                          filter (λ emb, Encoder.to_bilstm emb = true)
                                 (Encoder.values (Encoder.embeddings self))) →
  length lengths = b →
  Forall (λ n, 0 < n ∧ n ≤ s) lengths →
  (∀ packed, ∃ packed_out,
     Encoder.lstm_forward lstm packed = Ok packed_out
     ∧ length <$> sequences packed_out = length <$> sequences packed
     ∧ features packed_out = 2 * hidden
     ∧ Forall (Forall (λ v, length v = 2 * hidden)) (sequences packed_out)) →
  (∀ t b s w, shaped3 b s w t → shaped3 b s w (nn_Dropout t)) →
  ∃ out,
    Encoder.forward nn_Dropout self batch lengths = Ok (Some out)
    ∧ shaped3 b (max_list lengths) (2 * hidden) out.
Proof.
  intros Huse Hlstm Hembs Hnumel Hlen Hpos Hrun Hdrop.
  destruct (Encoder_embeddings_cat self batch lengths b s Encoder.to_bilstm)
    as (ts & r & Hts & Hr & Hshape).
  { intros emb Hin. by apply Hembs. }
  { destruct (filter (λ emb, Encoder.to_bilstm emb = true)
                (Encoder.values (Encoder.embeddings self)))
      as [|emb l] eqn:Hl; [simpl in Hnumel; lia|].
    assert (Hmem : emb ∈ filter (λ emb, Encoder.to_bilstm emb = true)
                     (Encoder.values (Encoder.embeddings self))).
    { rewrite Hl. left. }
    apply list_elem_of_filter in Hmem as [Htrue Hin]. by exists emb. }
  destruct (pack_padded_sequence_Ok r lengths b s _ Hshape Hnumel Hlen Hpos)
    as (packed & Hpacked & Hseqs & _).
  destruct (Hrun packed) as (packed_out & Hout & Hseqs' & Hfeat & Hwidth).
  pose proof (pad_packed_sequence_shaped packed_out) as Hpad.
  rewrite Hfeat, Hseqs', Hseqs in Hpad. specialize (Hpad Hwidth).
  assert (Hcount : length (sequences packed_out) = b).
  { rewrite <- Hlen, <- Hseqs, <- Hseqs'. by rewrite length_fmap. }
  rewrite Hcount in Hpad.
  exists (nn_Dropout (pad_packed_sequence packed_out).1).
  split; [|by apply Hdrop].
  unfold Encoder.forward. rewrite Hts. simpl. rewrite Hr. simpl.
  rewrite (Encoder_embeddings_none self batch lengths
             (λ emb, negb (Encoder.to_bilstm emb))).
  - simpl. rewrite Huse, Hpacked. simpl. rewrite Hlstm. simpl.
    rewrite Hout. done.
  - intros emb Hin. destruct (Hembs emb Hin) as [-> _]. done.
Qed.
End encoder_forward_shapes.

(** ** ClassingWordEmbedding.__init__ *)

Lemma nn_Embedding_padding_0 (n d : nat) :
  0 < n →
  ClassingWordEmbedding.nn_Embedding n d 0
  = Ok (replicate d ClassingWordEmbedding.W_zero
        :: ((λ r, (λ c, ClassingWordEmbedding.W_normal (r * d + c))
                    <$> seq 0 d) <$> seq 1 (n - 1))).
Proof.
  intros Hn. unfold ClassingWordEmbedding.nn_Embedding.
  rewrite decide_False by lia. rewrite decide_True by done.
  destruct n as [|n]; [lia|]. simpl. by rewrite Nat.sub_0_r.
Qed.

(** C8: a trainable word embedding built with the default padding index 0
    over a vocabulary of [n >= 1] symbols has a table of [n] rows of the
    embedding width; row 0 holds zeros, and every entry of every other row
    is a draw of the Xavier uniform initialisation (with fan-in the width
    and fan-out [n - 1], the rows it is applied to). *)
Theorem ClassingWordEmbedding_init_weights (vm : VocabMap)
    (embedding_dim : nat) (pass_to_bilstm : bool) :
  0 < vocab_len vm →
  0 < embedding_dim + (vocab_len vm - 1) →
  ∃ emb,
    ClassingWordEmbedding.init vm embedding_dim 0 pass_to_bilstm = Ok emb
    ∧ length (ClassingWordEmbedding.weight emb) = vocab_len vm
    ∧ ClassingWordEmbedding.weight emb !! 0
      = Some (replicate embedding_dim ClassingWordEmbedding.W_zero)
    ∧ ∀ r row,
        0 < r → ClassingWordEmbedding.weight emb !! r = Some row →
        length row = embedding_dim
        ∧ ∀ c w, row !! c = Some w →
            w = ClassingWordEmbedding.W_xavier embedding_dim
                  (vocab_len vm - 1) ((r - 1) * embedding_dim + c).
Proof.
  intros Hn Hfan. unfold ClassingWordEmbedding.init.
  rewrite nn_Embedding_padding_0 by done. simpl.
  unfold ClassingWordEmbedding.xavier_uniform_.
  rewrite drop_0, length_fmap, length_seq.
  rewrite decide_False by lia. simpl.
  eexists. split; [done|]. simpl. split; [|split; [done|]].
  - rewrite length_imap, length_fmap, length_seq. lia.
  - intros r row Hr Hrow. destruct r as [|r]; [lia|]. simpl in Hrow.
    rewrite list_lookup_imap, list_lookup_fmap in Hrow.
    destruct (seq 1 (vocab_len vm - 1) !! r) as [k|]; [|done].
    simpl in Hrow. injection Hrow as <-.
    rewrite length_imap, length_fmap, length_seq. split; [done|].
    intros c w Hw. rewrite list_lookup_imap in Hw.
    destruct (_ !! c); [|done]. simpl in Hw. injection Hw as <-.
    f_equal. lia.
Qed.

(** ** pack_sequence and unpack_sequence *)

Lemma length_filter_prefix {A} (P : A → Prop) `{∀ x, Decision (P x)}
    (l : list A) (n : nat) :
  n ≤ length l →
  (∀ j x, l !! j = Some x → P x ↔ j < n) →
  length (filter P l) = n.
Proof.
  revert n. induction l as [|x l IH]; intros n Hn HP.
  { simpl in *. lia. }
  destruct n as [|n].
  - rewrite filter_cons_False.
    + apply IH; [simpl; lia|]. intros j y Hy.
      rewrite (HP (S j) y Hy). lia.
    + rewrite (HP 0 x) by done. lia.
  - rewrite filter_cons_True.
    + simpl. f_equal. apply IH; [simpl in Hn; lia|]. intros j y Hy.
      rewrite (HP (S j) y Hy). lia.
    + rewrite (HP 0 x) by done. lia.
Qed.

Section pack_facts.
Context {T : Type} `{Scalar T}.
Context {laws : ZeroLaws (T:=T)}.

Lemma sum_squares_zeros (f : nat) :
  sum_squares (replicate f szero) = szero.
Proof using laws.
  unfold sum_squares. induction f as [|f IH]; [done|].
  change (sadd (ssquare szero)
            (foldr sadd szero (ssquare <$> replicate f szero)) = szero).
  rewrite IH, square_zero. apply add_zero.
Qed.

(** The lengths [pack_sequence] computes on a right-padded tensor. *)
Lemma count_nonzero_right_padded (x : Tensor3 T) (lens : list nat)
    (b s f : nat) :
  shaped3 b s f x → length lens = b → Forall (λ n, n ≤ s) lens →
  right_padded counted f x lens →
  count_nonzero_dim1 (sum_pow2_dim2 x) = mkTensor [b] lens.
Proof using laws.
  intros (Hs & Hb & Hrows) Hlens Hle Hpad.
  unfold count_nonzero_dim1, sum_pow2_dim2. rewrite Hs. simpl. f_equal.
  apply list_eq. intros i. rewrite !list_lookup_fmap.
  destruct (tolist x !! i) as [sq|] eqn:Hsq.
  - destruct (lookup_lt_is_Some_2 lens i) as [n Hn].
    { apply lookup_lt_Some in Hsq. lia. }
    rewrite Hn. simpl. f_equal.
    rewrite Forall_lookup in Hrows. destruct (Hrows i sq Hsq) as [Hlen _].
    rewrite Forall_lookup in Hle. specialize (Hle i n Hn).
    apply length_filter_prefix.
    + rewrite length_map. lia.
    + intros j y Hy. apply list_lookup_fmap_Some in Hy as (v & -> & Hv).
      specialize (Hpad i sq n j v Hsq Hn Hv). destruct (decide (j < n)).
      * done.
      * rewrite Hpad, sum_squares_zeros, nonzero_zero. split; [done | lia].
  - simpl. symmetry. apply lookup_ge_None_2.
    apply lookup_ge_None_1 in Hsq. lia.
Qed.

(** C10, as the code has it: for a non-empty batch-first tensor whose
    sequences each have at least one true timestep, all of them counted
    (non-zero sum of squares), followed by zero vectors only, and whose
    longest sequence fills the whole time dimension, [pack_sequence]
    returns the numbers of true timesteps as lengths and
    [unpack_sequence] gives the tensor back. *)
Theorem pack_unpack_roundtrip (x : Tensor3 T) (lens : list nat)
    (b s f : nat) :
  shaped3 b s f x →
  0 < b →
  length lens = b →
  Forall (λ n, 0 < n ∧ n ≤ s) lens →
  max_list lens = s →
  right_padded counted f x lens →
  ∃ packed,
    pack_sequence x = Ok (packed, mkTensor [b] lens)
    ∧ unpack_sequence packed = x.
Proof using laws.
  intros Hshape Hb Hlens Hpos Hmax Hpad.
  pose proof Hshape as (Hs & Hlen & Hrows).
  assert (Hle : Forall (λ n, n ≤ s) lens).
  { eapply Forall_impl; [exact Hpos|]. by intros n [_ ?]. }
  unfold pack_sequence.
  rewrite (count_nonzero_right_padded x lens b s f) by done. simpl.
  assert (Hnumel : numel x ≠ 0).
  { destruct (lookup_lt_is_Some_2 lens 0) as [n Hn]; [lia|].
    destruct (lookup_lt_is_Some_2 (tolist x) 0) as [sq Hsq]; [lia|].
    pose proof (proj1 (Forall_lookup _ _) Hpos 0 n Hn) as [Hn0 Hns].
    pose proof (proj1 (Forall_lookup _ _) Hrows 0 sq Hsq) as [Hsql Hsqr].
    destruct (lookup_lt_is_Some_2 sq 0) as [v Hv]; [lia|].
    pose proof (proj1 (Forall_lookup _ _) Hsqr 0 v Hv) as Hvl.
    pose proof (Hpad 0 sq n 0 v Hsq Hn Hv) as Hc.
    rewrite decide_True in Hc by lia.
    unfold numel. rewrite Hs. simpl.
    destruct f as [|f]; [|nia]. destruct v; [|done].
    unfold counted, sum_squares in Hc. simpl in Hc.
    by rewrite nonzero_zero in Hc. }
  unfold pack_padded_sequence. rewrite Hs.
  rewrite decide_True by done. simpl.
  eexists. split; [done|].
  unfold unpack_sequence, pad_packed_sequence. simpl.
  assert (Hseqs : length <$> zip_with take lens (tolist x) = lens).
  { apply list_eq. intros i. rewrite list_lookup_fmap.
    destruct (lens !! i) as [n|] eqn:Hn.
    - destruct (lookup_lt_is_Some_2 (tolist x) i) as [sq Hsq].
      { apply lookup_lt_Some in Hn. lia. }
      rewrite (proj2 (lookup_zip_with_Some take lens (tolist x) i (take n sq))).
      + simpl. rewrite length_take. f_equal.
        rewrite Forall_lookup in Hrows. destruct (Hrows i sq Hsq) as [Hl _].
        rewrite Forall_lookup in Hle. specialize (Hle i n Hn). lia.
      + by exists n, sq.
    - rewrite lookup_ge_None_2; [done|].
      rewrite length_zip_with. apply lookup_ge_None_1 in Hn. lia. }
  rewrite Hseqs, Hmax, length_zip_with, Hlens, Hlen, Nat.min_id.
  destruct x as [xshape xdata]. simpl in *. subst xshape. f_equal.
  apply list_eq. intros i. rewrite list_lookup_fmap.
  destruct (xdata !! i) as [sq|] eqn:Hsq.
  - destruct (lookup_lt_is_Some_2 lens i) as [n Hn].
    { apply lookup_lt_Some in Hsq. lia. }
    rewrite (proj2 (lookup_zip_with_Some take lens xdata i (take n sq)));
      [|by exists n, sq].
    simpl. f_equal.
    rewrite Forall_lookup in Hrows. destruct (Hrows i sq Hsq) as [Hl _].
    rewrite Forall_lookup in Hle. specialize (Hle i n Hn).
    rewrite length_take, Nat.min_l by lia.
    rewrite <- (take_drop n sq) at 2. f_equal.
    apply list_eq. intros j.
    destruct (decide (j < s - n)) as [Hj|Hj].
    + rewrite lookup_replicate_2 by done.
      rewrite lookup_drop.
      destruct (lookup_lt_is_Some_2 sq (n + j)) as [v Hv]; [lia|].
      rewrite Hv. f_equal.
      specialize (Hpad i sq n (n + j) v Hsq Hn Hv).
      by rewrite decide_False in Hpad by lia.
    + rewrite !lookup_ge_None_2; [done | |].
      * rewrite length_drop. lia.
      * rewrite length_replicate. lia.
  - rewrite lookup_ge_None_2; [done|].
    rewrite length_zip_with. apply lookup_ge_None_1 in Hsq. lia.
Qed.
End pack_facts.

Lemma Z_sum_squares_nonneg (v : list Z) : (0 ≤ sum_squares v)%Z.
Proof.
  induction v as [|x v IH]; [done|].
  change (0 ≤ x * x + sum_squares v)%Z. nia.
Qed.

(** Over the integers a timestep is counted exactly when it is a non-zero
    vector. *)
Lemma Z_counted_nonzero (v : list Z) : counted v ↔ nonzero_vector v.
Proof.
  unfold counted, nonzero_vector. induction v as [|x v IH].
  - split; [done|]. by intros ?%Exists_nil.
  - rewrite Exists_cons, <- IH.
    change (sum_squares (x :: v)) with (x * x + sum_squares v)%Z.
    pose proof (Z_sum_squares_nonneg v) as Hv. simpl.
    rewrite !negb_true_iff, !Z.eqb_neq. nia.
Qed.


(** ** The theorems on the example inputs *)

Section examples.
Import Examples.

Lemma tag_vocab_total : i2w_total tag_vocab.
Proof.
  intros i Hi. do 7 (destruct i as [|i]; [by eexists|]).
  simpl in Hi. lia.
Qed.

Lemma char_vocab_total : i2w_total char_vocab.
Proof.
  intros i Hi. do 6 (destruct i as [|i]; [by eexists|]).
  simpl in Hi. lia.
Qed.

Lemma Tagger_postprocess_tags_witness :
  ∃ tags, Tagger.postprocess tagger tag_logits [3; 1] = Ok tags
          ∧ length tags = 2.
Proof.
  destruct (Tagger_postprocess_tags tagger tag_logits [3; 1] 2 3 7)
    as (tags & Hok & Hlen & _).
  - split; [reflexivity|]. repeat constructor.
  - lia.
  - reflexivity.
  - exact tag_vocab_total.
  - reflexivity.
  - repeat constructor.
  - exists tags. split; assumption.
Defined.

Lemma GRUDecoder_postprocess_lemmas_witness :
  ∃ out, GRUDecoder.postprocess decoder lemma_logits [1; 1] = Ok out
         ∧ length out = 2.
Proof.
  destruct (GRUDecoder_postprocess_lemmas decoder lemma_logits [1; 1] 1 2 6)
    as ((out & Hok & Hlen & _) & _).
  - split; [reflexivity|]. repeat constructor.
  - lia.
  - lia.
  - discriminate.
  - reflexivity.
  - exact char_vocab_total.
  - repeat constructor.
  - exists out. split; assumption.
Defined.

Lemma decoder_layers_shaped (N : nat) :
  GRUDecoder.layers_shaped decoder N 1 6 1.
Proof.
  split.
  - intros chars [Hs Hl] _. eexists. split; [reflexivity|].
    split; [by rewrite Hl|]. simpl. split; [by rewrite length_fmap|].
    rewrite Forall_fmap. by apply Forall_true.
  - done.
  - intros x h (Hs & Hl & _) Hh. eexists _, _. split; [reflexivity|].
    split; [|done]. split; [by rewrite Hl|]. simpl.
    split; [by rewrite length_fmap|].
    rewrite Forall_fmap. apply Forall_true. intros ?. simpl.
    split; [done|]. by constructor.
  - intros x (Hs & Hl & _). eexists. split; [reflexivity|].
    split; [by rewrite Hl|]. simpl.
    split; [by rewrite length_fmap|].
    rewrite Forall_fmap. apply Forall_true. intros ?. simpl.
    split; [done|]. by constructor.
Qed.

Lemma training_is_training_batch :
  GRUDecoder.training_batch Data.map_to_chars_batch decoder encoded training
    gold 1 1 1 6 3 1.
Proof.
  split.
  - split; [reflexivity|]. repeat constructor.
  - lia.
  - lia.
  - reflexivity.
  - split; [reflexivity|]. repeat constructor.
  - repeat constructor.
  - exists [["ab"]], (mkTensor [1; 3] [[4; 5; 3]]), 3.
    split; [reflexivity|]. split; [by vm_compute|].
    split; [split; [reflexivity|]; repeat constructor|].
    split; [lia|]. repeat constructor.
  - apply decoder_layers_shaped.
Qed.

Lemma GRUDecoder_decode_training_witness :
  ∃ final,
    GRUDecoder.decode_loop Data.map_to_chars_batch decoder encoded training
      coin = Ok final
    ∧ GRUDecoder.dropout_calls final = 3.
Proof.
  destruct (GRUDecoder_decode_training Data.map_to_chars_batch decoder encoded
              training gold 1 1 1 6 3 1 coin training_is_training_batch)
    as ((final & Hloop & _ & Hcalls & _) & _).
  exists final. split; assumption.
Defined.

Lemma GRUDecoder_decode_inference_witness :
  GRUDecoder.decode Data.map_to_chars_batch decoder encoded inference coin
  = Ok None.
Proof.
  destruct (GRUDecoder_decode_inference Data.map_to_chars_batch decoder
              encoded inference coin) as (_ & _ & Hnone & _).
  - reflexivity.
  - apply (Hnone 1 1 1); [|lia]. split; [reflexivity|]. repeat constructor.
Defined.

Lemma ClassingWordEmbedding_init_weights_witness :
  ∃ emb,
    ClassingWordEmbedding.init char_vocab 2 0 true = Ok emb
    ∧ length (ClassingWordEmbedding.weight emb) = 6
    ∧ ClassingWordEmbedding.weight emb !! 0
      = Some [ClassingWordEmbedding.W_zero; ClassingWordEmbedding.W_zero].
Proof.
  destruct (ClassingWordEmbedding_init_weights char_vocab 2 true)
    as (emb & Hok & Hlen & Hpad & _).
  - simpl. lia.
  - simpl. lia.
  - exists emb. split; [assumption|]. split; assumption.
Defined.

Lemma GRUDecoder_first_input_first_character_witness :
  ∃ first,
    GRUDecoder._get_char_input_next_timestep Data.map_to_chars_batch
      char_vocab training None 1%Z coin = Ok (first, coin)
    ∧ tolist first !! 0 = Some 4
    ∧ w2i char_vocab !! "a" = Some 4.
Proof.
  destruct (GRUDecoder_first_input_first_character char_vocab training
              [["ab"]] 1%Z coin 3 1) as (first & Hok & _ & Hall).
  - reflexivity.
  - reflexivity.
  - reflexivity.
  - simpl. lia.
  - exists first. split; [assumption|]. split; [|reflexivity].
    apply (Hall 0 ["ab"] 0); [reflexivity | simpl; lia].
Defined.

(** C6, as stated, fails: an embedding that asks for the recurrent layer
    but has output width 0, with no recurrent layer configured (no layers),
    and construction returns an encoder. *)
Lemma Encoder_init_routed_width_zero :
  ∃ enc,
    Encoder.init rejecting_LSTM empty_routed_embeddings 4 0 = Ok enc
    ∧ Encoder.use_bilstm enc = false
    ∧ Encoder.bilstm enc = None
    ∧ Encoder.to_bilstm <$> Encoder.values empty_routed_embeddings = [true].
Proof.
  eexists. split; [reflexivity|]. split; [reflexivity|].
  split; reflexivity.
Qed.

Lemma Encoder_init_configuration_error_witness :
  Encoder.init accepting_LSTM routed_embeddings 4 0
  = Raise (ValueError Encoder.not_using_bilstm)
  ∧ ∃ e, Encoder.init accepting_LSTM routed_embeddings 0 1 = Raise e.
Proof.
  destruct (Encoder_init_configuration_error accepting_LSTM
              routed_embeddings 4 0) as ([_ Hraise] & _).
  - discriminate.
  - intros i h l lstm [= <-]. split; reflexivity.
  - split; [apply Hraise; split; [simpl; lia | reflexivity]|].
    destruct (Encoder_init_configuration_error accepting_LSTM
                routed_embeddings 0 1) as (_ & Hfails & _).
    + discriminate.
    + intros i h l lstm [= <-]. split; reflexivity.
    + apply Hfails; [simpl; lia | by right].
Defined.

(** C1 fails on the code: with one embedding routed to the recurrent
    layer and one that is not, the encoder is constructed with output width
    3 + 2 * 4, and [forward] raises at [if embs:], the truth value of a
    tensor of more than one entry, before the concatenation. *)
Lemma Encoder_forward_mixed_raises :
  ∃ enc,
    Encoder.init accepting_LSTM mixed_embeddings 4 1 = Ok enc
    ∧ Encoder.encoder_output_dim enc = 11
    ∧ Encoder.forward no_dropout enc [["a"; "b"]] [2] = Raise RuntimeError.
Proof. eexists. split; [reflexivity|]. split; reflexivity. Qed.

(** With recurrent layers configured and no embedding routed to them,
    the output width counts the recurrent layer, and [forward] returns the
    features of the embeddings alone. *)
Lemma Encoder_forward_unrouted_width :
  ∃ enc out,
    Encoder.init accepting_LSTM direct_embeddings 4 1 = Ok enc
    ∧ Encoder.encoder_output_dim enc = 11
    ∧ Encoder.forward no_dropout enc [["a"; "b"]] [2] = Ok (Some out)
    ∧ shape out = [1; 2; 3].
Proof. eexists _, _. split; [reflexivity|]. split; [reflexivity|]. by split. Qed.

(** Without recurrent layers and with embeddings that are not routed,
    [forward] returns a tensor of the output width. *)
Lemma Encoder_forward_direct_width :
  ∃ enc out,
    Encoder.init rejecting_LSTM direct_embeddings 4 0 = Ok enc
    ∧ Encoder.encoder_output_dim enc = 3
    ∧ Encoder.forward no_dropout enc [["a"; "b"]] [2] = Ok (Some out)
    ∧ shape out = [1; 2; 3].
Proof. eexists _, _. split; [reflexivity|]. split; [reflexivity|]. by split. Qed.

Lemma Z_zero_laws : ZeroLaws (T:=Z).
Proof. by split. Qed.

(** C10, as stated, fails: a tensor whose only sequence has one true
    timestep and one padded timestep comes back without the padded
    timestep, and a sequence that is padding only cannot be packed. *)
Lemma pack_unpack_drops_common_padding :
  (shaped3 1 2 1 padded_everywhere
   ∧ right_padded nonzero_vector 1 padded_everywhere [1]
   ∧ ∃ packed,
       pack_sequence padded_everywhere = Ok (packed, mkTensor [1] [1])
       ∧ unpack_sequence packed = mkTensor [1; 1; 1] [[[1%Z]]]
       ∧ unpack_sequence packed ≠ padded_everywhere)
  ∧ (shaped3 1 1 1 all_padding
     ∧ right_padded nonzero_vector 1 all_padding [0]
     ∧ pack_sequence all_padding = Raise RuntimeError).
Proof.
  split.
  - split; [split; [reflexivity|]; repeat constructor|]. split.
    + intros i sq n j v Hsq Hn Hv.
      destruct i as [|i]; [|done]. injection Hsq as <-. injection Hn as <-.
      destruct j as [|[|j]]; [| |done]; injection Hv as <-.
      * by constructor.
      * done.
    + eexists. split; [reflexivity|]. split; [reflexivity|]. discriminate.
  - split; [split; [reflexivity|]; repeat constructor|]. split.
    + intros i sq n j v Hsq Hn Hv.
      destruct i as [|i]; [|done]. injection Hsq as <-. injection Hn as <-.
      destruct j as [|j]; [|done]. by injection Hv as <-.
    + reflexivity.
Qed.

Lemma padded_batch_right_padded :
  right_padded counted 1 padded_batch [1; 2].
Proof.
  intros i sq n j v Hsq Hn Hv.
  destruct i as [|[|i]]; [| |done];
    injection Hsq as <-; injection Hn as <-;
    (destruct j as [|[|j]]; [| |done]); injection Hv as <-; done.
Qed.

Lemma pack_unpack_roundtrip_witness :
  ∃ packed,
    pack_sequence padded_batch = Ok (packed, mkTensor [2] [1; 2])
    ∧ unpack_sequence packed = padded_batch.
Proof.
  apply (pack_unpack_roundtrip (laws:=Z_zero_laws) padded_batch [1; 2] 2 2 1).
  - split; [reflexivity|]. repeat constructor.
  - lia.
  - reflexivity.
  - repeat constructor.
  - reflexivity.
  - exact padded_batch_right_padded.
Defined.
End examples.

(** * Further properties of the model code *)

(** ** Exceptions in comprehensions and loops *)

(** A loop whose body either returns or raises [e], and raises at some
    element, raises [e]. *)
Lemma for_each_raises {A B} (f : A → result B) (e : PyError) (xs : list A) :
  (∀ x, x ∈ xs → (∃ y, f x = Ok y) ∨ f x = Raise e) →
  (∃ x, x ∈ xs ∧ f x = Raise e) →
  for_each f xs = Raise e.
Proof.
  induction xs as [|x xs IH]; intros Hf (x0 & Hin & Hx0).
  { by apply elem_of_nil in Hin. }
  simpl. destruct (Hf x) as [[y Hy]|Hr]; [left| |by rewrite Hr].
  rewrite Hy. simpl. rewrite IH; [done| |].
  - intros z Hz. apply Hf. by right.
  - apply elem_of_cons in Hin as [->|Hin]; [congruence|]. eauto.
Qed.

(** The same for a comprehension over an enumeration that keeps the
    positions below [n]. *)
Lemma comprehension_prefix_raises {A B C} (p : nat → A → C)
    (c : C → result bool) (f : C → result B) (e : PyError) (n : nat)
    (xs : list A) :
  (∀ i x, xs !! i = Some x → c (p i x) = Ok (bool_decide (i < n))) →
  (∀ i x, xs !! i = Some x → i < n →
          (∃ y, f (p i x) = Ok y) ∨ f (p i x) = Raise e) →
  (∃ i x, xs !! i = Some x ∧ i < n ∧ f (p i x) = Raise e) →
  comprehension c f (imap p xs) = Raise e.
Proof.
  revert p n. induction xs as [|x xs IH]; intros p n Hc Hf (i & x0 & Hi & Hn & Hr).
  { done. }
  simpl. rewrite (Hc 0 x) by done. simpl.
  destruct n as [|n]; [lia|]. rewrite bool_decide_true by lia.
  destruct (Hf 0 x) as [[y Hy]|Hr0]; [done | lia | |by rewrite Hr0].
  rewrite Hy. simpl.
  destruct i as [|i]; [simpl in Hi; congruence|].
  rewrite (IH (p ∘ S) n); [done| | |].
  - intros j z Hz. unfold compose. rewrite (Hc (S j) z Hz).
    apply f_equal, bool_decide_ext. lia.
  - intros j z Hz Hj. apply (Hf (S j)); [done | lia].
  - exists i, x0. split; [done|]. split; [lia | done].
Qed.

(** A comprehension whose condition returns and whose body returns or
    raises [e] returns or raises [e]. *)
Lemma comprehension_returns_or_raises {A B} (c : A → result bool)
    (f : A → result B) (e : PyError) (xs : list A) :
  (∀ x, x ∈ xs → ∃ keep, c x = Ok keep) →
  (∀ x, x ∈ xs → (∃ y, f x = Ok y) ∨ f x = Raise e) →
  (∃ ys, comprehension c f xs = Ok ys) ∨ comprehension c f xs = Raise e.
Proof.
  induction xs as [|x xs IH]; intros Hc Hf; [left; by eexists|].
  simpl. destruct (Hc x) as [keep ->]; [left|]. simpl.
  destruct IH as [[ys Hys]|Hr].
  { intros z Hz. apply Hc. by right. }
  { intros z Hz. apply Hf. by right. }
  - rewrite Hys. destruct keep; [|left; by eexists].
    destruct (Hf x) as [[y ->] | ->]; [left | left; by eexists | by right].
  - rewrite Hr. destruct keep; [|by right].
    destruct (Hf x) as [[y ->] | ->]; [left | by right | by right].
Qed.

(** A comprehension splits over an append. *)
Lemma comprehension_app {A B} (c : A → result bool) (f : A → result B)
    (xs ys : list A) :
  comprehension c f (xs ++ ys)
  = let! a := comprehension c f xs in
    let! b := comprehension c f ys in
    Ok (a ++ b).
Proof.
  induction xs as [|x xs IH]; simpl.
  { by destruct (comprehension c f ys). }
  destruct (c x) as [[|]|e]; simpl; [| |done].
  - destruct (f x) as [y|e]; simpl; [|done]. rewrite IH.
    destruct (comprehension c f xs) as [a|e]; simpl; [|done].
    by destruct (comprehension c f ys).
  - apply IH.
Qed.

(** ** Tagger.postprocess: lengths and vocabulary *)

Section tagger_more.
Context {T : Type} `{Scalar T}.

Lemma sentence_tags_clamped (self : Tagger.t) (lengths : list nat) (i n : nat)
    (sent : list nat) :
  lengths !! i = Some n →
  (∀ j idx, sent !! j = Some idx → j < n →
            is_Some (i2w (Tagger.vocab_map self) !! idx)) →
  Tagger.sentence_tags self lengths i sent
  = Ok (symbol (Tagger.vocab_map self) <$> take n sent).
Proof.
  intros Hn Hvocab. unfold Tagger.sentence_tags, enumerate.
  apply comprehension_prefix.
  - intros j x _. unfold list_get. by rewrite Hn.
  - intros j x Hx Hj. destruct (Hvocab j x Hx Hj) as [w Hw].
    unfold dict_get, symbol. by rewrite Hw.
Qed.

Lemma sentence_tags_KeyError (self : Tagger.t) (lengths : list nat) (i n : nat)
    (sent : list nat) :
  lengths !! i = Some n →
  (∃ j idx, sent !! j = Some idx ∧ j < n
            ∧ i2w (Tagger.vocab_map self) !! idx = None) →
  Tagger.sentence_tags self lengths i sent = Raise KeyError.
Proof.
  intros Hn (j & idx & Hidx & Hj & Hnone).
  unfold Tagger.sentence_tags, enumerate.
  apply (comprehension_prefix_raises _ _ _ _ n).
  - intros k x _. unfold list_get. by rewrite Hn.
  - intros k x _ _. unfold dict_get.
    destruct (i2w (Tagger.vocab_map self) !! x); eauto.
  - exists j, idx. split; [done|]. split; [done|].
    unfold dict_get. by rewrite Hnone.
Qed.

(** X1: the vocabulary is consulted for the tokens within the lengths only,
    lengths past the last sentence are ignored, and a length beyond the
    padded length is clamped: sentence [i] gets [min(lengths[i], s)]
    tags. *)
Theorem Tagger_postprocess_clamps (self : Tagger.t) (batch : Tensor3 T)
    (lengths : list nat) (b s V : nat) :
  shaped3 b s V batch →
  0 < V →
  b ≤ length lengths →
  (∀ i j sent logits n,
     tolist batch !! i = Some sent → lengths !! i = Some n →
     sent !! j = Some logits → j < n →
     is_Some (i2w (Tagger.vocab_map self) !! argmax logits)) →
  ∃ tags,
    Tagger.postprocess self batch lengths = Ok tags
    ∧ length tags = b
    ∧ ∀ i sent n,
        tolist batch !! i = Some sent → lengths !! i = Some n →
        ∃ tags_i,
          tags !! i = Some tags_i
          ∧ length tags_i = n `min` s
          ∧ tags_i = symbol (Tagger.vocab_map self)
                       <$> take n (argmax <$> sent).
Proof.
  intros Hshape HV Hlen Hvocab.
  pose proof Hshape as (_ & Hb & Hrows).
  set (idxs := map (map argmax) (tolist batch)).
  exists (imap (λ i sent, symbol (Tagger.vocab_map self)
                            <$> take (default 0 (lengths !! i)) sent) idxs).
  split; [|split].
  - unfold Tagger.postprocess.
    rewrite (argmax_dim2_shaped batch b s V) by done. simpl.
    apply for_each_enumerate. intros i sent Hi.
    unfold idxs in Hi. apply list_lookup_fmap_Some in Hi as (m & -> & Hm).
    destruct (lookup_lt_is_Some_2 lengths i) as [n Hn].
    { apply lookup_lt_Some in Hm. lia. }
    rewrite Hn. simpl. apply sentence_tags_clamped; [done|].
    intros j idx Hidx Hj.
    apply list_lookup_fmap_Some in Hidx as (logits & -> & Hlogits).
    by eapply Hvocab.
  - rewrite length_imap. unfold idxs. by rewrite length_map.
  - intros i sent n Hsent Hn. eexists.
    rewrite list_lookup_imap. unfold idxs.
    rewrite list_lookup_fmap, Hsent. simpl. rewrite Hn. simpl.
    split; [done|]. split; [|done].
    rewrite Forall_lookup in Hrows. destruct (Hrows i sent Hsent) as [Hs _].
    by rewrite length_fmap, length_take, length_map, Hs.
Qed.

(** X2: a token within the lengths whose arg-max has no symbol makes the call
    raise [KeyError]. *)
Theorem Tagger_postprocess_KeyError (self : Tagger.t) (batch : Tensor3 T)
    (lengths : list nat) (b s V : nat) :
  shaped3 b s V batch →
  0 < V →
  b ≤ length lengths →
  (∃ i j sent logits n,
     tolist batch !! i = Some sent ∧ lengths !! i = Some n
     ∧ sent !! j = Some logits ∧ j < n
     ∧ i2w (Tagger.vocab_map self) !! argmax logits = None) →
  Tagger.postprocess self batch lengths = Raise KeyError.
Proof.
  intros Hshape HV Hlen (i & j & sent & logits & n & Hsent & Hn & Hl & Hj & Hno).
  pose proof Hshape as (_ & Hb & Hrows).
  unfold Tagger.postprocess.
  rewrite (argmax_dim2_shaped batch b s V) by done. simpl.
  apply for_each_raises.
  - intros [k row] Hin. unfold enumerate in Hin.
    apply list_elem_of_lookup in Hin as [k' Hk'].
    rewrite list_lookup_imap in Hk'.
    destruct (map (map argmax) (tolist batch) !! k') as [row'|] eqn:Hrow;
      [|done].
    simpl in Hk'. injection Hk' as <- <-.
    destruct (lookup_lt_is_Some_2 lengths k') as [m Hm].
    { apply lookup_lt_Some in Hrow. rewrite length_map in Hrow. lia. }
    unfold Tagger.sentence_tags.
    apply comprehension_returns_or_raises.
    + intros [tc idx] _. unfold list_get. rewrite Hm. by eexists.
    + intros [tc idx] _. unfold dict_get.
      destruct (i2w (Tagger.vocab_map self) !! idx); eauto.
  - exists (i, argmax <$> sent). split.
    + unfold enumerate. apply list_elem_of_lookup. exists i.
      by rewrite list_lookup_imap, list_lookup_fmap, Hsent.
    + apply (sentence_tags_KeyError self lengths i n); [done|].
      exists j, (argmax logits). by rewrite list_lookup_fmap, Hl.
Qed.

(** X3: with fewer lengths than sentences (and at least one token slot) the
    call raises [IndexError]. *)
Theorem Tagger_postprocess_missing_length (self : Tagger.t)
    (batch : Tensor3 T) (lengths : list nat) (b s V : nat) :
  shaped3 b s V batch →
  0 < V → 0 < s →
  vocab_len (Tagger.vocab_map self) = V →
  i2w_total (Tagger.vocab_map self) →
  length lengths < b →
  Tagger.postprocess self batch lengths = Raise IndexError.
Proof.
  intros Hshape HV Hs HVlen Htot Hlen.
  pose proof Hshape as (_ & Hb & Hrows).
  unfold Tagger.postprocess.
  rewrite (argmax_dim2_shaped batch b s V) by done. simpl.
  assert (Hrow_len : ∀ k row, map (map argmax) (tolist batch) !! k = Some row →
            length row = s
            ∧ Forall (λ idx, idx < vocab_len (Tagger.vocab_map self)) row).
  { intros k row Hrow.
    apply list_lookup_fmap_Some in Hrow as (m & -> & Hm).
    rewrite Forall_lookup in Hrows. destruct (Hrows k m Hm) as [Hml Hmr].
    split; [by rewrite length_map|].
    rewrite Forall_fmap. eapply Forall_impl; [exact Hmr|].
    intros v Hv. simpl. rewrite HVlen, <- Hv. apply argmax_bound.
    intros ->. simpl in Hv. lia. }
  apply for_each_raises.
  - intros [k row] Hin. unfold enumerate in Hin.
    apply list_elem_of_lookup in Hin as [k' Hk'].
    rewrite list_lookup_imap in Hk'.
    destruct (map (map argmax) (tolist batch) !! k') as [row'|] eqn:Hrow;
      [|done].
    simpl in Hk'. injection Hk' as <- <-.
    destruct (Hrow_len k' row' Hrow) as [Hl Hv].
    destruct (lengths !! k') as [n|] eqn:Hn.
    + left. eexists. by apply sentence_tags_Ok.
    + right. unfold Tagger.sentence_tags, enumerate.
      destruct row' as [|idx row']; [simpl in Hl; lia|].
      simpl. unfold list_get. by rewrite Hn.
  - destruct (lookup_lt_is_Some_2 (map (map argmax) (tolist batch))
                (length lengths)) as [row Hrow].
    { rewrite length_map. lia. }
    exists (length lengths, row). split.
    + unfold enumerate. apply list_elem_of_lookup. exists (length lengths).
      by rewrite list_lookup_imap, Hrow.
    + destruct (Hrow_len _ row Hrow) as [Hl _].
      unfold Tagger.sentence_tags, enumerate.
      destruct row as [|idx row]; [simpl in Hl; lia|].
      simpl. unfold list_get. by rewrite lookup_ge_None_2.
Qed.
End tagger_more.

(** ** GRUDecoder.map_lemma_from_char_idx: symbols, EOS and exceptions *)

Lemma truncate_at_app_eos (eos : string) (xs ys : list string) :
  truncate_at eos (xs ++ eos :: ys) = truncate_at eos xs.
Proof.
  induction xs as [|x xs IH]; simpl.
  - by rewrite decide_True.
  - destruct (decide (x = eos)); [done|]. by rewrite IH.
Qed.

Section lemma_more.
Context {T : Type} `{Scalar T}.
Implicit Types self : GRUDecoder.t (T:=T).

(** The symbols are looked up for the kept indices only; where every kept
    index has a symbol the call returns the predicted lemma. *)
Lemma map_lemma_kept_Ok self (char_idxs : list nat) :
  Forall (λ i, i ∉ GRUDecoder.illegal_chars_output self →
               is_Some (i2w (GRUDecoder.vocab_map self) !! i)) char_idxs →
  GRUDecoder.map_lemma_from_char_idx self char_idxs
  = Ok (predicted_lemma (GRUDecoder.vocab_map self) char_idxs).
Proof.
  intros Hidx. unfold GRUDecoder.map_lemma_from_char_idx.
  rewrite (comprehension_filter _ _
             (λ i, i ∉ GRUDecoder.illegal_chars_output self)
             (symbol (GRUDecoder.vocab_map self))); cycle 1.
  { done. }
  { intros i Hi Hlegal. rewrite Forall_forall in Hidx.
    destruct (Hidx i Hi Hlegal) as [w Hw].
    unfold dict_get, symbol. by rewrite Hw. }
  assert (Hkept :
    symbol (GRUDecoder.vocab_map self)
      <$> filter (λ i, i ∉ GRUDecoder.illegal_chars_output self) char_idxs
    = kept_symbols (GRUDecoder.vocab_map self) char_idxs).
  { unfold kept_symbols. f_equal. apply list_filter_iff. intros i.
    apply illegal_chars_output_spec. }
  rewrite Hkept. simpl. unfold predicted_lemma.
  case_bool_decide as Hin.
  - destruct (list_index_truncate _ _ Hin) as (k & -> & Hk).
    simpl. by rewrite Hk.
  - simpl. by rewrite truncate_at_notin.
Qed.

(** X4: [map_lemma_from_char_idx] returns the predicted lemma when every kept
    index has a symbol, and raises [KeyError] when a kept index has none,
    wherever it stands: the symbols are looked up before the cut at
    EOS. *)
Theorem GRUDecoder_map_lemma_result self (char_idxs : list nat) :
  (Forall (λ i, i ∉ GRUDecoder.illegal_chars_output self →
                is_Some (i2w (GRUDecoder.vocab_map self) !! i)) char_idxs →
   GRUDecoder.map_lemma_from_char_idx self char_idxs
   = Ok (predicted_lemma (GRUDecoder.vocab_map self) char_idxs))
  ∧ (Exists (λ i, (i ∉ GRUDecoder.illegal_chars_output self)
                  ∧ i2w (GRUDecoder.vocab_map self) !! i = None) char_idxs →
     GRUDecoder.map_lemma_from_char_idx self char_idxs = Raise KeyError).
Proof.
  split; [apply map_lemma_kept_Ok|].
  intros Hex. unfold GRUDecoder.map_lemma_from_char_idx.
  assert (Hraise :
    comprehension
      (λ char_idx,
         Ok (bool_decide (char_idx ∉ GRUDecoder.illegal_chars_output self)))
      (λ char_idx, dict_get (i2w (GRUDecoder.vocab_map self)) char_idx)
      char_idxs = Raise KeyError); [|by rewrite Hraise].
  induction Hex as [i l [Hlegal Hnone]|i l Hex IH]; simpl.
  - rewrite bool_decide_true by done. unfold dict_get at 1.
    by rewrite Hnone.
  - rewrite IH. destruct (bool_decide _); [|done].
    unfold dict_get. by destruct (i2w (GRUDecoder.vocab_map self) !! i).
Qed.

(** X5: whatever follows an index that stands for EOS does not change the
    lemma. *)
Theorem GRUDecoder_map_lemma_stops_at_EOS self (before after : list nat)
    (eos_idx : nat) :
  i2w (GRUDecoder.vocab_map self) !! eos_idx
    = Some (EOS (GRUDecoder.vocab_map self)) →
  eos_idx ∉ GRUDecoder.illegal_chars_output self →
  Forall (λ i, i ∉ GRUDecoder.illegal_chars_output self →
               is_Some (i2w (GRUDecoder.vocab_map self) !! i))
         (before ++ after) →
  GRUDecoder.map_lemma_from_char_idx self (before ++ eos_idx :: after)
  = GRUDecoder.map_lemma_from_char_idx self before.
Proof.
  intros Heos Hlegal Hall. apply Forall_app in Hall as [Hb Ha].
  rewrite !map_lemma_kept_Ok; [|done|].
  - f_equal. unfold predicted_lemma, kept_symbols.
    rewrite filter_app, fmap_app, filter_cons_True.
    + rewrite fmap_cons. unfold symbol at 2. rewrite Heos. simpl.
      by rewrite truncate_at_app_eos.
    + by apply illegal_chars_output_spec.
  - apply Forall_app. split; [done|]. constructor; [|done].
    intros _. by rewrite Heos.
Qed.

(** X6: a PAD, UNK or SOS index changes nothing, wherever it stands: not the
    lemma and not the exception. *)
Theorem GRUDecoder_map_lemma_skips_illegal self (before after : list nat)
    (i : nat) :
  i ∈ GRUDecoder.illegal_chars_output self →
  GRUDecoder.map_lemma_from_char_idx self (before ++ i :: after)
  = GRUDecoder.map_lemma_from_char_idx self (before ++ after).
Proof.
  intros Hi. unfold GRUDecoder.map_lemma_from_char_idx.
  rewrite !comprehension_app. simpl.
  rewrite bool_decide_false; [done|]. by intros Hn.
Qed.
End lemma_more.

(** ** GRUDecoder.postprocess: lengths that do not fit *)

Section gru_postprocess_more.
Context {T : Type} `{Scalar T}.
Implicit Types self : GRUDecoder.t (T:=T).

(** X7: the token rows cannot be shared out among the sentences: no lengths,
    no characters, or a number of rows that is not a multiple of the
    number of sentences.  The view raises [RuntimeError]. *)
Theorem GRUDecoder_postprocess_view_error self (batch : Tensor3 T)
    (lengths : list nat) (N C V : nat) :
  shaped3 N C V batch →
  0 < V →
  lengths = [] ∨ C = 0 ∨ N mod length lengths ≠ 0 →
  GRUDecoder.postprocess self batch lengths = Raise RuntimeError.
Proof.
  intros Hshape HV Hbad. unfold GRUDecoder.postprocess.
  rewrite (argmax_dim2_shaped batch N C V) by done. simpl.
  unfold view_sentences, numel. simpl.
  destruct (decide (length lengths * C = 0)) as [|Hne]; [done|].
  rewrite decide_False; [done|].
  destruct Hbad as [->|[->|Hmod]]; [simpl in Hne; lia | lia |].
  replace (N * (C * 1)) with (N * C) by lia.
  rewrite Nat.Div0.mul_mod_distr_r. nia.
Qed.

Lemma map_sentence_chars_too_long self (sent : list (list nat)) (n : nat) :
  i2w_total (GRUDecoder.vocab_map self) →
  Forall (Forall (λ i, i < vocab_len (GRUDecoder.vocab_map self))) sent →
  length sent < n →
  GRUDecoder.map_sentence_chars self sent n = Raise IndexError.
Proof.
  intros Htot Hsent Hn. unfold GRUDecoder.map_sentence_chars.
  apply for_each_raises.
  - intros k _. unfold list_get.
    destruct (sent !! k) as [idxs|] eqn:Hk; [left | by right].
    simpl. eexists. apply map_lemma_from_char_idx_Ok; [done|].
    rewrite Forall_lookup in Hsent. by eapply Hsent.
  - exists (length sent). split; [apply elem_of_seq; lia|].
    unfold list_get. by rewrite lookup_ge_None_2.
Qed.

(** X8: a length beyond the token slots of a sentence is not clamped: the
    call raises [IndexError]. *)
Theorem GRUDecoder_postprocess_IndexError self (batch : Tensor3 T)
    (lengths : list nat) (s C V : nat) :
  shaped3 (length lengths * s) C V batch →
  0 < C → 0 < V →
  vocab_len (GRUDecoder.vocab_map self) = V →
  i2w_total (GRUDecoder.vocab_map self) →
  Exists (λ n, s < n) lengths →
  GRUDecoder.postprocess self batch lengths = Raise IndexError.
Proof.
  intros Hshape HC HV <- Htot Hex.
  set (vm := GRUDecoder.vocab_map self) in *.
  assert (Hb : 0 < length lengths).
  { destruct lengths; [by apply Exists_nil in Hex | simpl; lia]. }
  set (b := length lengths) in *.
  pose proof Hshape as (_ & HN & Hrows).
  set (idxs := map (map argmax) (tolist batch)).
  assert (Hidxs_len : length idxs = b * s).
  { unfold idxs. by rewrite length_map. }
  assert (Hidxs_rows : Forall (λ r, length r = C) idxs).
  { unfold idxs. rewrite Forall_fmap. eapply Forall_impl; [exact Hrows|].
    intros m [Hm _]. simpl. by rewrite length_map. }
  assert (Hidxs_vocab : Forall (Forall (λ i, i < vocab_len vm)) idxs).
  { unfold idxs. rewrite Forall_fmap. eapply Forall_impl; [exact Hrows|].
    intros m [_ Hm]. simpl. rewrite Forall_fmap.
    eapply Forall_impl; [exact Hm|]. intros v Hv. simpl.
    fold vm. rewrite <- Hv. apply argmax_bound. intros ->. simpl in Hv. lia. }
  set (sents := regroup b s idxs).
  assert (Hsents : ∀ i sent, sents !! i = Some sent →
            length sent = s ∧ Forall (Forall (λ i, i < vocab_len vm)) sent).
  { intros i sent Hi.
    assert (Hib : i < b).
    { apply lookup_lt_Some in Hi. unfold sents in Hi.
      by rewrite length_regroup in Hi. }
    unfold sents in Hi. rewrite regroup_lookup in Hi by done.
    injection Hi as <-. split.
    - rewrite length_take, length_drop. nia.
    - by apply Forall_take, Forall_drop. }
  unfold GRUDecoder.postprocess.
  rewrite (argmax_dim2_shaped batch (b * s) C (vocab_len vm)) by done. simpl.
  unfold view_sentences, numel. simpl.
  rewrite decide_False by nia.
  replace (b * s * (C * 1)) with (s * (b * C)) by nia.
  rewrite Nat.Div0.mod_mul, decide_True by done.
  rewrite Nat.div_mul by nia. simpl.
  fold idxs b. rewrite <- Hidxs_len, regroup_concat by done.
  fold sents.
  apply for_each_raises.
  - intros [sent n] Hin. apply list_elem_of_lookup in Hin as [i Hi].
    apply lookup_zip_with_Some in Hi as (sent' & n' & [= <- <-] & Hsent & Hn).
    destruct (Hsents i sent Hsent) as [Hl Hv].
    destruct (decide (n ≤ s)) as [Hle|Hgt].
    + left. eexists. apply GRUDecoder_map_sentence_chars_Ok; [done..|lia].
    + right. apply map_sentence_chars_too_long; [done..|lia].
  - apply Exists_exists in Hex as (n & Hin & Hn).
    apply list_elem_of_lookup in Hin as [i Hi].
    destruct (lookup_lt_is_Some_2 sents i) as [sent Hsent].
    { unfold sents. rewrite length_regroup. by apply lookup_lt_Some in Hi. }
    exists (sent, n). split.
    + apply list_elem_of_lookup. exists i.
      apply lookup_zip_with_Some. by exists sent, n.
    + destruct (Hsents i sent Hsent) as [Hl Hv].
      apply map_sentence_chars_too_long; [done..|lia].
Qed.
End gru_postprocess_more.

(** ** GRUDecoder.decode: the random generator, the gold characters and
    the source tokens *)

Section gru_decode_more.
Context {T : Type} `{Scalar T}.
Variable map_to_chars_batch :
  Sentences → gmap string nat → option bool → result (Tensor2 nat).
Implicit Types self : GRUDecoder.t (T:=T).
Implicit Types g : GRUDecoder.Rng (T:=T).

(** X9: on a training batch [decode] draws one sample per iteration after the
    first, [steps - 1] in all; the first iteration draws none. *)
Theorem GRUDecoder_decode_draws self encoded batch target b s E V steps
    emb_dim g :
  GRUDecoder.training_batch map_to_chars_batch self encoded batch target
    b s E V steps emb_dim →
  ∃ final,
    GRUDecoder.decode_loop map_to_chars_batch self encoded batch g = Ok final
    ∧ GRUDecoder.samples (GRUDecoder.rng final) = GRUDecoder.samples g
    ∧ GRUDecoder.position (GRUDecoder.rng final)
      = GRUDecoder.position g + (steps - 1).
Proof.
  intros Htb.
  destruct (decode_iterations_after map_to_chars_batch self encoded batch
              target b s E V steps emb_dim g steps Htb)
    as (final & Hfinal & _ & Hsamples & Hpos & _); [done|].
  pose proof (GRUDecoder.target_present _ _ _ _ _ _ _ _ _ _ _ Htb) as Htgt.
  pose proof (GRUDecoder.target_shaped _ _ _ _ _ _ _ _ _ _ _ Htb)
    as [Hts _].
  exists final. split; [|done].
  unfold GRUDecoder.decode_loop. rewrite Htgt. simpl.
  unfold shape_at. rewrite Hts. simpl. done.
Qed.

(** The generator keeps its samples through the choice of an input. *)
Lemma next_char_samples (vm : VocabMap) (batch : Batch)
    (previous : option (Tensor3 T)) (tf : T) g chars g' :
  GRUDecoder._get_char_input_next_timestep map_to_chars_batch vm batch
    previous tf g = Ok (chars, g') →
  GRUDecoder.samples g' = GRUDecoder.samples g.
Proof.
  unfold GRUDecoder._get_char_input_next_timestep.
  destruct previous as [p|].
  - destruct (shape_at p 1) as [steps|]; simpl; [|done].
    destruct (has_key (TARGET_LEMMAS batch)).
    + destruct (sltb _ _).
      * destruct (batch_get (TARGET_LEMMAS batch)) as [t|]; simpl; [|done].
        destruct (column t _) as [c|]; simpl; [|done]. by intros [= _ <-].
      * destruct (select_dim1 p _) as [l|]; simpl; [|done].
        destruct (argmax_dim1 l) as [c|]; simpl; [|done]. by intros [= _ <-].
    + destruct (select_dim1 p _) as [l|]; simpl; [|done].
      destruct (argmax_dim1 l) as [c|]; simpl; [|done]. by intros [= _ <-].
  - destruct (batch_get (TOKENS batch)) as [t|]; simpl; [|done].
    destruct (map_to_chars_batch t (w2i vm) None) as [c|]; simpl; [|done].
    destruct (column c 0) as [f|]; simpl; [|done]. by intros [= _ <-].
Qed.

Lemma decode_step_samples self (batch : Batch) (context : Tensor2 T)
    (st st' : GRUDecoder.Loop) :
  GRUDecoder.decode_step map_to_chars_batch self batch context st = Ok st' →
  GRUDecoder.samples (GRUDecoder.rng st')
  = GRUDecoder.samples (GRUDecoder.rng st).
Proof.
  unfold GRUDecoder.decode_step.
  destruct (GRUDecoder._get_char_input_next_timestep _ _ _ _ _ _)
    as [[chars g']|] eqn:Hnext; simpl; [|done].
  apply next_char_samples in Hnext.
  destruct (GRUDecoder.embedding self chars) as [e|]; simpl; [|done].
  destruct (cat2_dim1 _ context) as [j|]; simpl; [|done].
  destruct (unsqueeze1 j) as [gi|]; simpl; [|done].
  destruct (GRUDecoder.rnn self gi _) as [[o h']|]; simpl; [|done].
  destruct (cat_pair_dim2 gi o) as [fi|]; simpl; [|done].
  destruct (GRUDecoder.fc_out self fi) as [pr|]; simpl; [|done].
  destruct (GRUDecoder.predictions st) as [p|].
  - destruct (cat_dim1 p pr) as [p'|]; simpl; [|done]. by intros [= <-].
  - simpl. by intros [= <-].
Qed.

(** Where no sample falls below [teacher_forcing], an input never reads
    the gold characters. *)
Lemma next_char_without_forcing (vm : VocabMap) (batch1 batch2 : Batch)
    (previous : option (Tensor3 T)) (tf : T) g :
  TOKENS batch1 = TOKENS batch2 →
  has_key (TARGET_LEMMAS batch1) = has_key (TARGET_LEMMAS batch2) →
  sltb (GRUDecoder.samples g (GRUDecoder.position g)) tf = false →
  GRUDecoder._get_char_input_next_timestep map_to_chars_batch vm batch1
    previous tf g
  = GRUDecoder._get_char_input_next_timestep map_to_chars_batch vm batch2
      previous tf g.
Proof.
  intros Htok Hkey Hoff. unfold GRUDecoder._get_char_input_next_timestep.
  destruct previous as [p|]; [|by rewrite Htok].
  rewrite Hkey. destruct (shape_at p 1) as [steps|]; simpl; [|done].
  destruct (has_key (TARGET_LEMMAS batch2)); [|done]. by rewrite Hoff.
Qed.

(** X10: with teacher forcing off (no sample of the generator is below
    [teacher_forcing], as for the default 0.0), the result of [decode]
    depends on the gold characters through their number only: two batches
    with the same tokens and gold tensors of the same shape give the same
    logits, or the same exception. *)
Theorem GRUDecoder_decode_without_forcing self (encoded : Tensor3 T)
    (batch1 batch2 : Batch) (target1 target2 : Tensor2 nat) g :
  TOKENS batch1 = TOKENS batch2 →
  TARGET_LEMMAS batch1 = Some target1 →
  TARGET_LEMMAS batch2 = Some target2 →
  shape target1 = shape target2 →
  (∀ k, sltb (GRUDecoder.samples g k) (GRUDecoder.teacher_forcing self)
        = false) →
  GRUDecoder.decode map_to_chars_batch self encoded batch1 g
  = GRUDecoder.decode map_to_chars_batch self encoded batch2 g.
Proof.
  intros Htok Ht1 Ht2 Hshape Hoff.
  assert (Hloop : ∀ n context st,
    GRUDecoder.samples (GRUDecoder.rng st) = GRUDecoder.samples g →
    for_range n (GRUDecoder.decode_step map_to_chars_batch self batch1 context)
      st
    = for_range n (GRUDecoder.decode_step map_to_chars_batch self batch2
                     context) st).
  { intros n context. induction n as [|n IH]; intros st Hst; [done|].
    simpl.
    assert (Hstep :
      GRUDecoder.decode_step map_to_chars_batch self batch1 context st
      = GRUDecoder.decode_step map_to_chars_batch self batch2 context st).
    { unfold GRUDecoder.decode_step.
      assert (Hnext :
        GRUDecoder._get_char_input_next_timestep map_to_chars_batch
          (GRUDecoder.vocab_map self) batch1 (GRUDecoder.predictions st)
          (GRUDecoder.teacher_forcing self) (GRUDecoder.rng st)
        = GRUDecoder._get_char_input_next_timestep map_to_chars_batch
            (GRUDecoder.vocab_map self) batch2 (GRUDecoder.predictions st)
            (GRUDecoder.teacher_forcing self) (GRUDecoder.rng st)).
      { apply next_char_without_forcing; [done | by rewrite Ht1, Ht2 |].
        rewrite Hst. apply Hoff. }
      by rewrite Hnext. }
    rewrite Hstep.
    destruct (GRUDecoder.decode_step map_to_chars_batch self batch2 context st)
      as [st'|] eqn:Hst'; simpl; [|done].
    apply IH. rewrite <- Hst. by eapply decode_step_samples. }
  unfold GRUDecoder.decode, GRUDecoder.decode_loop.
  rewrite Ht1, Ht2. simpl. unfold shape_at. rewrite Hshape.
  destruct (list_get (shape target2) 1) as [steps|]; simpl; [|done].
  unfold GRUDecoder.decode_iterations.
  destruct (shape_at encoded 2) as [w|]; simpl; [|done].
  destruct (reshape_rows encoded w) as [context|]; simpl; [|done].
  destruct (reshape_hidden context) as [hidden|]; simpl; [|done].
  by rewrite Hloop.
Qed.

(** X11: the source tokens are read at the first iteration: with gold
    characters of at least one column and no tokens in the batch [decode]
    raises [KeyError]; with gold characters of no column it runs no
    iteration and returns [None]. *)
Theorem GRUDecoder_decode_needs_tokens self (encoded : Tensor3 T)
    (batch : Batch) (target : Tensor2 nat) (b s E N steps : nat) g :
  shaped3 b s E encoded → 0 < E →
  TARGET_LEMMAS batch = Some target →
  shape target = [N; steps] →
  (steps = 0 →
   GRUDecoder.decode map_to_chars_batch self encoded batch g = Ok None)
  ∧ (0 < steps → TOKENS batch = None →
     GRUDecoder.decode map_to_chars_batch self encoded batch g
     = Raise KeyError).
Proof.
  intros Henc HE Htgt Hshape.
  destruct (decode_start self encoded b s E Henc HE)
    as (context & hidden & Hw & Hc & Hh & _).
  assert (Hsteps : shape_at target 1 = Ok steps).
  { unfold shape_at. by rewrite Hshape. }
  unfold GRUDecoder.decode, GRUDecoder.decode_loop.
  rewrite Htgt. simpl. rewrite Hsteps. simpl.
  unfold GRUDecoder.decode_iterations.
  rewrite Hw. simpl. rewrite Hc. simpl. rewrite Hh. simpl.
  split.
  - by intros ->.
  - intros Hpos Htok. destruct steps as [|steps]; [lia|]. simpl.
    unfold GRUDecoder.decode_step. simpl. by rewrite Htok.
Qed.
End gru_decode_more.

(** ** Encoder: construction and forward pass together *)

Lemma filter_all {A} (P : A → Prop) `{∀ x, Decision (P x)} (l : list A) :
  (∀ x, x ∈ l → P x) → filter P l = l.
Proof.
  induction l as [|x l IH]; intros HP; [done|].
  rewrite filter_cons_True by (apply HP; left).
  f_equal. apply IH. intros y Hy. apply HP. by right.
Qed.

Lemma filter_none {A} (P : A → Prop) `{∀ x, Decision (P x)} (l : list A) :
  (∀ x, x ∈ l → ¬ P x) → filter P l = [].
Proof.
  induction l as [|x l IH]; intros HP; [done|].
  rewrite filter_cons_False by (apply HP; left).
  apply IH. intros y Hy. apply HP. by right.
Qed.

Section encoder_more.
Context {T : Type} `{Scalar T}.
Variable nn_LSTM : nat → nat → nat → result (Encoder.LSTM (T:=T)).
Variable nn_Dropout : Tensor3 T → Tensor3 T.
Implicit Types self : Encoder.t (T:=T).
Implicit Types emb : Encoder.Embedding (T:=T).

(** X12: construction raises in four ways only: the configuration error,
    with no layers and a non-zero routed width; what the constructor of the
    recurrent layer raises; [ZeroDivisionError] from the Xavier
    initialisation of a recurrent layer that was built with hidden width
    0; the error of [nn.Dropout] for an [input_dropouts] outside [0, 1].
    The branch [Unknown parameter] of the initialisation loop is never
    taken. *)
Theorem Encoder_init_errors (embeddings : list (Modules * Encoder.Embedding))
    (main_lstm_dim main_lstm_layers : nat) (input_dropouts : QArith_base.Q)
    (e : PyError) :
  Encoder.init_with_dropouts nn_LSTM embeddings main_lstm_dim
    main_lstm_layers input_dropouts = Raise e →
  let routed :=
    sum_list (Encoder.output_dim <$>
                filter (λ emb, Encoder.to_bilstm emb = true)
                       (Encoder.values embeddings)) in
  (main_lstm_layers = 0 ∧ routed ≠ 0
   ∧ e = ValueError Encoder.not_using_bilstm)
  ∨ (main_lstm_layers ≠ 0
     ∧ nn_LSTM routed main_lstm_dim main_lstm_layers = Raise e)
  ∨ (main_lstm_layers ≠ 0 ∧ e = ZeroDivisionError
     ∧ ∃ lstm, nn_LSTM routed main_lstm_dim main_lstm_layers = Ok lstm
               ∧ Encoder.hidden_size lstm = 0)
  ∨ (Encoder.nn_Dropout_init input_dropouts = Raise e
     ∧ (QArith_base.Qle_bool (QArith_base.Qmake 0 1) input_dropouts
        && QArith_base.Qle_bool input_dropouts (QArith_base.Qmake 1 1))
       = false).
Proof.
  intros Hinit routed. unfold Encoder.init_with_dropouts in Hinit.
  destruct (Encoder.init nn_LSTM embeddings main_lstm_dim main_lstm_layers)
    as [enc|e'] eqn:Hctor; simpl in Hinit.
  { right. right. right.
    destruct (Encoder.nn_Dropout_init input_dropouts) as [[]|e'] eqn:Hdrop;
      [done|].
    simpl in Hinit. injection Hinit as ->. split; [done|].
    unfold Encoder.nn_Dropout_init in Hdrop.
    by destruct (_ && _). }
  injection Hinit as ->. unfold Encoder.init in Hctor. fold routed in Hctor.
  destruct (decide (main_lstm_layers = 0)) as [->|Hl].
  - left. cbn [Nat.eqb negb] in Hctor. rewrite andb_true_r in Hctor.
    unfold truthy in Hctor.
    destruct (routed =? 0) eqn:Hr; [done|].
    apply Nat.eqb_neq in Hr. simpl in Hctor. by injection Hctor as <-.
  - right. apply Nat.eqb_neq in Hl as Hl'. rewrite Hl' in Hctor.
    simpl in Hctor. rewrite andb_false_r in Hctor.
    destruct (nn_LSTM routed main_lstm_dim main_lstm_layers) as [lstm|e'];
      simpl in Hctor.
    + right. left.
      destruct (Encoder.init_lstm_parameters _) as [[]|e'] eqn:Hloop;
        [done|].
      simpl in Hctor. injection Hctor as ->.
      apply init_lstm_parameters_raises in Hloop as [Hh ->].
      split; [done|]. split; [done|]. by exists lstm.
    + left. split; [done|]. by injection Hctor as <-.
Qed.

(** X13: an encoder built over embeddings none of which is routed to the
    recurrent layer returns their features side by side, whether or not
    recurrent layers were configured; when they were ([main_lstm_layers]
    not 0), its [output_dim] still counts [2 * main_lstm_dim] for the
    recurrent layer that [forward] does not run. *)
Theorem Encoder_init_forward_direct
    (embeddings : list (Modules * Encoder.Embedding))
    (main_lstm_dim main_lstm_layers : nat) (enc : Encoder.t)
    (batch : Sentences) (lengths : list nat) (b s : nat) :
  Encoder.init nn_LSTM embeddings main_lstm_dim main_lstm_layers = Ok enc →
  embeddings ≠ [] →
  (∀ emb, emb ∈ Encoder.values embeddings →
     Encoder.to_bilstm emb = false
     ∧ ∃ t, Encoder.emb_forward emb batch lengths = Ok t
            ∧ shaped3 b s (Encoder.output_dim emb) t) →
  let direct := sum_list (Encoder.output_dim <$> Encoder.values embeddings) in
  (∃ out,
     Encoder.forward nn_Dropout enc batch lengths = Ok (Some out)
     ∧ shaped3 b s direct out)
  ∧ Encoder.encoder_output_dim enc
    = direct + (if decide (main_lstm_layers = 0) then 0
                else main_lstm_dim * 2).
Proof.
  intros Hinit Hne Hembs direct.
  assert (Hfilter :
    filter (λ emb, Encoder.to_bilstm emb = false) (Encoder.values embeddings)
    = Encoder.values embeddings).
  { apply filter_all. intros emb Hin. by apply Hembs. }
  assert (Hrouted :
    filter (λ emb, Encoder.to_bilstm emb = true) (Encoder.values embeddings)
    = []).
  { apply filter_none. intros emb Hin.
    destruct (Hembs emb Hin) as [-> _]. done. }
  assert (Henc : Encoder.embeddings enc = embeddings
                 ∧ Encoder.encoder_output_dim enc
                   = direct + (if decide (main_lstm_layers = 0) then 0
                               else main_lstm_dim * 2)).
  { unfold Encoder.init in Hinit. rewrite Hfilter, Hrouted in Hinit.
    simpl in Hinit. fold direct in Hinit.
    destruct (decide (main_lstm_layers = 0)) as [->|Hl].
    - simpl in Hinit. injection Hinit as <-. simpl. split; [done | lia].
    - apply Nat.eqb_neq in Hl as Hl'. rewrite Hl' in Hinit. simpl in Hinit.
      destruct (nn_LSTM 0 main_lstm_dim main_lstm_layers) as [lstm|];
        [|done].
      simpl in Hinit.
      destruct (Encoder.init_lstm_parameters _) as [[]|]; [|done].
      simpl in Hinit. by injection Hinit as <-. }
  destruct Henc as [Hsame Hdim]. split; [|done].
  destruct (Encoder_forward_direct_shape nn_Dropout enc batch lengths b s)
    as (out & Hout & Hshape).
  - by rewrite Hsame.
  - by rewrite Hsame.
  - exists out. split; [done|]. by rewrite Hsame, Hfilter in Hshape.
Qed.

(** The two lists of features of [forward], when every embedding returns
    a tensor of the batch's shape. *)
Lemma Encoder_embeddings_cat_any self (batch : Sentences)
    (lengths : list nat) (b s : nat) (c : Encoder.Embedding → bool) :
  (∀ emb, emb ∈ Encoder.values (Encoder.embeddings self) →
     ∃ t, Encoder.emb_forward emb batch lengths = Ok t
          ∧ shaped3 b s (Encoder.output_dim emb) t) →
  ∃ ts o,
    comprehension (λ emb, Ok (c emb))
      (λ emb, Encoder.emb_forward emb batch lengths)
      (Encoder.values (Encoder.embeddings self)) = Ok ts
    ∧ Encoder.cat_if_any ts = Ok o.
Proof.
  intros Hfwd.
  destruct (decide (Exists (λ emb, c emb = true)
                      (Encoder.values (Encoder.embeddings self))))
    as [Hex|Hex].
  - apply Exists_exists in Hex.
    destruct (Encoder_embeddings_cat self batch lengths b s c Hfwd Hex)
      as (ts & e & Hts & He & _).
    by exists ts, (Some e).
  - exists [], None. split; [|done].
    apply Encoder_embeddings_none. intros emb Hin.
    destruct (c emb) eqn:Hc; [|done]. exfalso. apply Hex.
    apply Exists_exists. by exists emb.
Qed.

(** X16: with the recurrent layer in use and an embedding routed to it,
    [forward] raises a [RuntimeError] on a batch with an empty sentence
    (one length per sentence, one of them 0): the lengths are handed to
    [pack_padded_sequence] as they are. *)
Theorem Encoder_forward_rejected_lengths self (batch : Sentences)
    (lengths : list nat) (b s : nat) :
  Encoder.use_bilstm self = true →
  (∀ emb, emb ∈ Encoder.values (Encoder.embeddings self) →
     ∃ t, Encoder.emb_forward emb batch lengths = Ok t
          ∧ shaped3 b s (Encoder.output_dim emb) t) →
  (∃ emb, emb ∈ Encoder.values (Encoder.embeddings self)
          ∧ Encoder.to_bilstm emb = true) →
  length lengths = b →
  0 ∈ lengths →
  Encoder.forward nn_Dropout self batch lengths = Raise RuntimeError.
Proof.
  intros Huse Hfwd Hrouted Hcount Hbad.
  destruct (Encoder_embeddings_cat self batch lengths b s Encoder.to_bilstm
              Hfwd Hrouted) as (ts_r & r & Hts_r & Hr & [Hshape _]).
  destruct (Encoder_embeddings_cat_any self batch lengths b s
              (λ emb, negb (Encoder.to_bilstm emb)) Hfwd)
    as (ts_d & o & Hts_d & Ho).
  unfold Encoder.forward. rewrite Hts_r. simpl. rewrite Hr. simpl.
  rewrite Hts_d. simpl. rewrite Ho. simpl. rewrite Huse.
  unfold pack_padded_sequence. rewrite Hshape.
  rewrite decide_False; [done|].
  intros (_ & _ & Hall).
  rewrite Forall_forall in Hall. specialize (Hall 0 Hbad). lia.
Qed.
End encoder_more.

(** ** pack_sequence on any tensor *)

Lemma length_filter_map {A B} (f : A → B) (P : B → Prop)
    `{∀ y, Decision (P y)} `{∀ x, Decision (P (f x))} (l : list A) :
  length (filter P (map f l)) = length (filter (λ x, P (f x)) l).
Proof.
  induction l as [|x l IH]; [done|]. simpl.
  destruct (decide (P (f x))) as [HP|HP].
  - rewrite !filter_cons_True by done. simpl. by rewrite IH.
  - by rewrite !filter_cons_False.
Qed.

Lemma length_filter_pos {A} (P : A → Prop) `{∀ x, Decision (P x)}
    (l : list A) :
  0 < length (filter P l) ↔ Exists P l.
Proof.
  induction l as [|x l IH].
  - simpl. rewrite Exists_nil. lia.
  - rewrite Exists_cons. destruct (decide (P x)) as [HP|HP].
    + rewrite filter_cons_True by done. simpl. split; [by left | lia].
    + rewrite filter_cons_False by done. rewrite IH. tauto.
Qed.

Section pack_more.
Context {T : Type} `{Scalar T}.

(** The lengths [pack_sequence] computes: per sequence, the number of
    timesteps whose sum of squares is not zero, wherever they are. *)
Lemma count_nonzero_counted (x : Tensor3 T) (b s f : nat) :
  shaped3 b s f x →
  count_nonzero_dim1 (sum_pow2_dim2 x)
  = mkTensor [b]
      ((λ sq, length (filter (λ v, snonzero (sum_squares v) = true) sq))
         <$> tolist x).
Proof.
  intros (Hs & _). unfold count_nonzero_dim1, sum_pow2_dim2.
  rewrite Hs. simpl. f_equal.
  rewrite <- list_fmap_compose. apply list_fmap_ext. intros i sq _. simpl.
  apply (length_filter_map sum_squares (λ y, snonzero y = true)).
Qed.

Lemma counted_bounds (x : Tensor3 T) (b s f : nat) :
  shaped3 b s f x →
  let lens := (λ sq, length (filter (λ v, snonzero (sum_squares v) = true)
                               sq)) <$> tolist x in
  length lens = b ∧ Forall (λ n, n ≤ s) lens.
Proof.
  intros (_ & Hb & Hrows) lens. unfold lens. split.
  - by rewrite length_fmap.
  - rewrite Forall_fmap. eapply Forall_impl; [exact Hrows|].
    intros sq [Hl _]. simpl. rewrite <- Hl. apply length_filter.
Qed.

(** X17: [pack_sequence] returns exactly on the tensors that are not empty and
    whose every sequence has a timestep with a non-zero sum of squares;
    on every other tensor it raises a [RuntimeError]: a sequence of
    padding only cannot be packed. *)
Theorem pack_sequence_succeeds (x : Tensor3 T) (b s f : nat) :
  shaped3 b s f x →
  ((∃ r, pack_sequence x = Ok r)
   ↔ 0 < b * s * f ∧ Forall (Exists counted) (tolist x))
  ∧ ∀ e, pack_sequence x = Raise e → e = RuntimeError.
Proof.
  intros Hshape. pose proof Hshape as (Hs & Hb & Hrows).
  destruct (counted_bounds x b s f Hshape) as [Hlen Hle].
  unfold pack_sequence. rewrite (count_nonzero_counted x b s f Hshape).
  simpl. unfold pack_padded_sequence. rewrite Hs.
  assert (Hnumel : numel x ≠ 0 ↔ 0 < b * s * f).
  { unfold numel. rewrite Hs. simpl. lia. }
  destruct (decide _) as [(Hne & _ & Hall)|Hno]; simpl.
  - split; [|done]. split; [|by eexists]. intros _. split; [tauto|].
    rewrite Forall_fmap in Hall. eapply Forall_impl; [exact Hall|].
    intros sq [Hpos _]. simpl in Hpos. by apply length_filter_pos in Hpos.
  - split; [|by intros e [= <-]]. split; [by intros [r ?]|].
    intros [Hpos Hall]. exfalso. apply Hno. split; [tauto|].
    split; [done|]. rewrite Forall_fmap.
    rewrite Forall_fmap in Hle.
    apply Forall_forall. intros sq Hsq. simpl. split.
    + apply length_filter_pos. rewrite Forall_forall in Hall.
      by apply Hall.
    + rewrite Forall_forall in Hle. by apply Hle.
Qed.

(** X18: what comes back from [unpack_sequence(pack_sequence(x)[0])]: the
    lengths count the timesteps with a non-zero sum of squares, each
    sequence comes back as its first [n] timesteps ([n] its length)
    followed by zero vectors, and the time dimension shrinks to the
    longest length, never beyond the one of [x]. *)
Theorem pack_unpack_prefixes (x : Tensor3 T) (b s f : nat)
    (packed : PackedSequence T) (lens : Tensor1 nat) :
  shaped3 b s f x →
  pack_sequence x = Ok (packed, lens) →
  let longest := max_list (tolist lens) in
  shaped1 b lens
  ∧ longest ≤ s
  ∧ shape (unpack_sequence packed) = [b; longest; f]
  ∧ length (tolist (unpack_sequence packed)) = b
  ∧ ∀ i sq, tolist x !! i = Some sq →
      ∃ n, tolist lens !! i = Some n
           ∧ n = length (filter (λ v, snonzero (sum_squares v) = true) sq)
           ∧ 0 < n
           ∧ tolist (unpack_sequence packed) !! i
             = Some (take n sq
                     ++ replicate (longest - n) (replicate f szero)).
Proof.
  intros Hshape Hpack longest. pose proof Hshape as (Hs & Hb & Hrows).
  destruct (counted_bounds x b s f Hshape) as [Hlen Hle].
  unfold pack_sequence in Hpack.
  rewrite (count_nonzero_counted x b s f Hshape) in Hpack.
  simpl in Hpack. unfold pack_padded_sequence in Hpack. rewrite Hs in Hpack.
  destruct (decide _) as [(Hne & _ & Hall)|Hno]; [|done].
  simpl in Hpack. injection Hpack as <- <-.
  set (count := λ sq : list (list T),
         length (filter (λ v, snonzero (sum_squares v) = true) sq)) in *.
  assert (Hseqs : length <$> zip_with take (count <$> tolist x) (tolist x)
                  = count <$> tolist x).
  { apply list_eq. intros i. rewrite !list_lookup_fmap, lookup_zip_with.
    rewrite list_lookup_fmap.
    destruct (tolist x !! i) as [sq|] eqn:Hsq; [|done]. simpl.
    rewrite length_take. f_equal. unfold count.
    pose proof (length_filter (λ v, snonzero (sum_squares v) = true) sq).
    lia. }
  subst longest. simpl.
  split; [by split|].
  split.
  { destruct (decide (count <$> tolist x = [])) as [->|Hnil]; [simpl; lia|].
    pose proof (max_list_elem_of _ Hnil) as Hin.
    rewrite Forall_forall in Hle. by apply Hle. }
  unfold unpack_sequence, pad_packed_sequence. simpl.
  rewrite Hseqs. rewrite length_zip_with, length_fmap, Nat.min_id, Hb.
  split; [done|]. split.
  { by rewrite length_fmap, length_zip_with, length_fmap, Nat.min_id. }
  intros i sq Hsq. exists (count sq).
  split; [by rewrite list_lookup_fmap, Hsq|]. split; [done|].
  split.
  { rewrite Forall_fmap, Forall_forall in Hall.
    apply (Hall sq). by eapply list_elem_of_lookup_2. }
  rewrite list_lookup_fmap, lookup_zip_with, list_lookup_fmap, Hsq. simpl.
  rewrite length_take. do 3 f_equal.
  pose proof (length_filter (λ v, snonzero (sum_squares v) = true) sq).
  unfold count. lia.
Qed.
End pack_more.

(** ** The embeddings: tables and their lookup *)

Section embedding_lookup.
Context {W : Type}.

(** Looking up indices that are all within the table. *)
Lemma nn_Embedding_forward_Ok (weight : list (list W)) (d b s : nat)
    (input : Tensor2 nat) :
  shaped2 b s input →
  Forall (λ row, length row = d) weight →
  Forall (Forall (λ k, k < length weight)) (tolist input) →
  ∃ out,
    ClassingWordEmbedding.nn_Embedding_forward weight d input = Ok out
    ∧ shaped3 b s d out
    ∧ tolist out = map (map (λ k, default [] (weight !! k))) (tolist input).
Proof.
  intros (Hs & Hb & Hrows) Hwidth Hin.
  unfold ClassingWordEmbedding.nn_Embedding_forward.
  rewrite (for_each_Ok _ (map (λ k, default [] (weight !! k)))).
  - simpl. eexists. split; [done|]. split; [|done].
    split; [by rewrite Hs|]. simpl. split; [by rewrite length_map|].
    rewrite Forall_fmap. rewrite Forall_forall in Hin.
    apply Forall_forall. intros row Hrow. simpl. split.
    + rewrite length_map. rewrite Forall_forall in Hrows. by apply Hrows.
    + rewrite Forall_fmap. specialize (Hin row Hrow).
      eapply Forall_impl; [exact Hin|]. intros k Hk. simpl.
      destruct (lookup_lt_is_Some_2 weight k Hk) as [r Hr]. rewrite Hr. simpl.
      rewrite Forall_lookup in Hwidth. by eapply Hwidth.
  - intros row Hrow. apply for_each_Ok. intros k Hk.
    rewrite Forall_forall in Hin. specialize (Hin row Hrow).
    rewrite Forall_forall in Hin. specialize (Hin k Hk).
    destruct (lookup_lt_is_Some_2 weight k Hin) as [r Hr].
    unfold list_get. by rewrite Hr.
Qed.

(** Looking up an index beyond the table. *)
Lemma nn_Embedding_forward_IndexError (weight : list (list W)) (d : nat)
    (input : Tensor2 nat) :
  Exists (Exists (λ k, length weight ≤ k)) (tolist input) →
  ClassingWordEmbedding.nn_Embedding_forward weight d input
  = Raise IndexError.
Proof.
  intros Hex. unfold ClassingWordEmbedding.nn_Embedding_forward.
  assert (Hone : ∀ k, (∃ r, list_get weight k = Ok r)
                      ∨ list_get weight k = Raise IndexError).
  { intros k. unfold list_get. destruct (weight !! k); eauto. }
  assert (Hrow : ∀ row, (∃ rs, for_each (list_get weight) row = Ok rs)
                        ∨ for_each (list_get weight) row = Raise IndexError).
  { intros row. induction row as [|k row IH]; [left; by eexists|].
    simpl. destruct (Hone k) as [[r ->]| ->]; [|by right]. simpl.
    destruct IH as [[rs ->]| ->]; [left; by eexists | by right]. }
  rewrite (for_each_raises _ IndexError); [done| |].
  - intros row _. apply Hrow.
  - apply Exists_exists in Hex as (row & Hin & Hk).
    exists row. split; [done|].
    apply for_each_raises; [intros k _; apply Hone|].
    apply Exists_exists in Hk as (k & Hkin & Hk).
    exists k. split; [done|]. unfold list_get.
    by rewrite lookup_ge_None_2.
Qed.
End embedding_lookup.

(** The table of a trainable word embedding built with the default
    padding index. *)
Lemma ClassingWordEmbedding_init_table (vm : VocabMap) (d : nat) (p : bool)
    (emb : ClassingWordEmbedding.t) :
  ClassingWordEmbedding.init vm d 0 p = Ok emb →
  0 < vocab_len vm
  ∧ ClassingWordEmbedding.weight emb
    = replicate d ClassingWordEmbedding.W_zero
      :: ((λ r, (λ c, ClassingWordEmbedding.W_xavier d (vocab_len vm - 1)
                        (r * d + c)) <$> seq 0 d)
            <$> seq 0 (vocab_len vm - 1)).
Proof.
  intros Hinit.
  destruct (decide (0 < vocab_len vm)) as [Hn|Hn]; cycle 1.
  { unfold ClassingWordEmbedding.init, ClassingWordEmbedding.nn_Embedding
      in Hinit.
    rewrite decide_False in Hinit by lia.
    by rewrite decide_False in Hinit by lia. }
  split; [done|]. unfold ClassingWordEmbedding.init in Hinit.
  rewrite nn_Embedding_padding_0 in Hinit by done. simpl in Hinit.
  unfold ClassingWordEmbedding.xavier_uniform_ in Hinit.
  rewrite drop_0, length_fmap, length_seq in Hinit.
  destruct (decide _); [done|]. simpl in Hinit. injection Hinit as <-.
  simpl. f_equal. apply list_eq. intros r.
  rewrite list_lookup_imap, !list_lookup_fmap.
  destruct (decide (r < vocab_len vm - 1)) as [Hr|Hr].
  - rewrite !lookup_seq_lt by done. simpl. f_equal.
    apply list_eq. intros c. rewrite list_lookup_imap, !list_lookup_fmap.
    destruct (decide (c < d)) as [Hc|Hc].
    + by rewrite lookup_seq_lt by done.
    + by rewrite lookup_seq_ge by lia.
  - by rewrite !lookup_seq_ge by lia.
Qed.

Lemma ClassingWordEmbedding_init_Ok (vm : VocabMap) (d : nat) (p : bool) :
  0 < vocab_len vm → 0 < d + (vocab_len vm - 1) →
  ∃ emb,
    ClassingWordEmbedding.init vm d 0 p = Ok emb
    ∧ ClassingWordEmbedding.vocab_map emb = vm
    ∧ ClassingWordEmbedding.pass_to_bilstm emb = p.
Proof.
  intros Hn Hfan. unfold ClassingWordEmbedding.init.
  rewrite nn_Embedding_padding_0 by done. simpl.
  unfold ClassingWordEmbedding.xavier_uniform_.
  rewrite drop_0, length_fmap, length_seq.
  rewrite decide_False by lia. simpl. by eexists.
Qed.

(** X19: a trainable word embedding, right after its construction with the
    default padding index: [output_dim] is the embedding width; an index
    tensor within the vocabulary embeds to a tensor with one more
    dimension, the padding index 0 to the zero vector and every other
    index to its row of Xavier draws; an index beyond the vocabulary
    raises [IndexError]. *)
Theorem ClassingWordEmbedding_embed_after_init (vm : VocabMap) (d : nat)
    (p : bool) (emb : ClassingWordEmbedding.t) (batch : Tensor2 nat)
    (lengths : list nat) (b s : nat) :
  ClassingWordEmbedding.init vm d 0 p = Ok emb →
  shaped2 b s batch →
  ClassingWordEmbedding.output_dim emb = d
  ∧ (Forall (Forall (λ k, k < vocab_len vm)) (tolist batch) →
     ∃ out,
       ClassingWordEmbedding.embed emb batch lengths = Ok out
       ∧ shaped3 b s d out
       ∧ tolist out
         = map (map (λ k,
                  match k with
                  | 0 => replicate d ClassingWordEmbedding.W_zero
                  | S r => (λ c, ClassingWordEmbedding.W_xavier d
                                   (vocab_len vm - 1) (r * d + c))
                             <$> seq 0 d
                  end)) (tolist batch))
  ∧ (Exists (Exists (λ k, vocab_len vm ≤ k)) (tolist batch) →
     ClassingWordEmbedding.embed emb batch lengths = Raise IndexError).
Proof.
  intros Hinit Hshape.
  destruct (ClassingWordEmbedding_init_table vm d p emb Hinit) as [Hn Hw].
  assert (Hlen : length (ClassingWordEmbedding.weight emb) = vocab_len vm).
  { rewrite Hw. simpl. rewrite length_fmap, length_seq. lia. }
  assert (Hdim : ClassingWordEmbedding.output_dim emb = d).
  { unfold ClassingWordEmbedding.output_dim. rewrite Hw.
    by rewrite length_replicate. }
  split; [done|]. unfold ClassingWordEmbedding.embed. rewrite Hdim. split.
  - intros Hin.
    destruct (nn_Embedding_forward_Ok (ClassingWordEmbedding.weight emb) d b s
                batch Hshape) as (out & Hout & Hs & Hrows).
    { rewrite Hw. constructor; [by rewrite length_replicate|].
      rewrite Forall_fmap. apply Forall_true. intros r. simpl.
      by rewrite length_fmap, length_seq. }
    { by rewrite Hlen. }
    exists out. split; [done|]. split; [done|]. rewrite Hrows.
    apply list_eq. intros i. rewrite !list_lookup_fmap.
    destruct (tolist batch !! i) as [row|] eqn:Hrow; [|done]. simpl. f_equal.
    apply list_eq. intros j. rewrite !list_lookup_fmap.
    destruct (row !! j) as [k|] eqn:Hk; [|done]. simpl. f_equal.
    rewrite Hw. destruct k as [|r]; [done|]. simpl.
    rewrite list_lookup_fmap.
    assert (Hr : S r < vocab_len vm).
    { rewrite Forall_lookup in Hin. specialize (Hin i row Hrow).
      rewrite Forall_lookup in Hin. by apply (Hin j). }
    by rewrite lookup_seq_lt by lia.
  - intros Hex. apply nn_Embedding_forward_IndexError. by rewrite Hlen.
Qed.

(** ** PretrainedEmbedding *)

Section pretrained_more.
Context {T : Type}.

(** X20: a word embedding over a given table, built with the default padding
    index: construction fails exactly on an empty vocabulary, through the
    parent's table that is thrown away; otherwise the table is the given
    one, whatever the size of the vocabulary, trainable unless frozen, and
    [output_dim] is its width.  An index within the table embeds to its
    row, the padding index 0 included (no row is zeroed); an index beyond
    the table raises [IndexError], even below the vocabulary size. *)
Theorem PretrainedEmbedding_init_embed (vm : VocabMap)
    (embeddings : Tensor2 T) (freeze p : bool) (rows cols : nat) :
  shaped2 rows cols embeddings →
  (vocab_len vm = 0 →
   PretrainedEmbedding.init vm embeddings freeze 0 p = Raise IndexError)
  ∧ (0 < vocab_len vm →
     ∃ emb,
       PretrainedEmbedding.init vm embeddings freeze 0 p = Ok emb
       ∧ PretrainedEmbedding.weight emb = embeddings
       ∧ PretrainedEmbedding.requires_grad emb = negb freeze
       ∧ PretrainedEmbedding.output_dim emb = Ok cols
       ∧ ∀ (batch : Tensor2 nat) (lengths : list nat) (b s : nat),
           shaped2 b s batch →
           (Forall (Forall (λ k, k < rows)) (tolist batch) →
            ∃ out,
              PretrainedEmbedding.embed emb batch lengths = Ok out
              ∧ shaped3 b s cols out
              ∧ tolist out
                = map (map (λ k, default [] (tolist embeddings !! k)))
                      (tolist batch))
           ∧ (Exists (Exists (λ k, rows ≤ k)) (tolist batch) →
              PretrainedEmbedding.embed emb batch lengths
              = Raise IndexError)).
Proof.
  intros (Hs & Hrows & Hwidth). split.
  - intros Hn. unfold PretrainedEmbedding.init, ClassingWordEmbedding.init,
      ClassingWordEmbedding.nn_Embedding.
    rewrite Hn. rewrite decide_False by lia. by rewrite decide_False by lia.
  - intros Hn. unfold PretrainedEmbedding.init.
    destruct (ClassingWordEmbedding_init_Ok vm 1 p Hn) as (parent & -> & _);
      [lia|].
    simpl. unfold PretrainedEmbedding.from_pretrained. rewrite Hs.
    rewrite decide_False by lia. simpl.
    eexists. split; [done|]. simpl. split; [done|]. split; [done|].
    split.
    { unfold PretrainedEmbedding.output_dim, shape_at. simpl.
      by rewrite Hs. }
    intros batch lengths b s Hshape.
    unfold PretrainedEmbedding.embed, shape_at. simpl. rewrite Hs. simpl.
    split.
    + intros Hin. apply nn_Embedding_forward_Ok; [done..|].
      by rewrite Hrows.
    + intros Hex. apply nn_Embedding_forward_IndexError. by rewrite Hrows.
Qed.
End pretrained_more.

(** ** CharacterAsWordEmbedding.embed *)

Lemma tensor_index_last (size : nat) :
  0 < size → tensor_index (-1)%Z size = Ok (size - 1).
Proof.
  intros Hsize. unfold tensor_index.
  rewrite decide_False by lia. rewrite decide_True by lia.
  f_equal. lia.
Qed.

Section character_embedding.
Context {T : Type}.
Implicit Types self : CharacterAsWordEmbedding.t (T:=T).

(** X21: the features of a token are the output of the character-level
    recurrent layer at the last character position of the padded batch,
    whatever the number of characters of the token; the tokens are shared
    out among the sentences in order. *)
Theorem CharacterAsWordEmbedding_embed_last_position self
    (batch : Tensor2 nat) (lengths : list nat) (char_embs out : Tensor3 T)
    (s C F : nat) :
  CharacterAsWordEmbedding.character_embedding self batch = Ok char_embs →
  CharacterAsWordEmbedding.char_bilstm self char_embs = Ok out →
  shaped3 (length lengths * s) C F out →
  0 < C → 0 < F → lengths ≠ [] →
  ∃ r,
    CharacterAsWordEmbedding.embed self batch lengths = Ok r
    ∧ shaped3 (length lengths) s F r
    ∧ ∀ i j, i < length lengths → j < s →
        ∃ token v,
          tolist out !! (i * s + j) = Some token
          ∧ token !! (C - 1) = Some v
          ∧ tolist r !! i ≫= (λ sent, sent !! j) = Some v.
Proof.
  intros Hemb Hlstm Hshape HC HF Hne.
  assert (Hb : 0 < length lengths) by (destruct lengths; [done | simpl; lia]).
  set (b := length lengths) in *.
  pose proof Hshape as (Hs & HN & Hrows).
  destruct (select_dim1_shaped out (b * s) C F (C - 1) Hshape)
    as (last & Hlast & (Hls & Hll & Hlr) & Hsel); [lia|].
  unfold CharacterAsWordEmbedding.embed.
  rewrite Hemb. simpl. rewrite Hlstm. simpl.
  assert (Hlast' : select_dim1 out (-1)%Z = Ok last).
  { rewrite <- Hlast. unfold select_dim1. rewrite Hs.
    rewrite tensor_index_last by done.
    by rewrite tensor_index_nat by lia. }
  rewrite Hlast'. simpl. rewrite Hs. simpl.
  unfold shape_at. rewrite Hs. simpl.
  unfold reshape_sentences, view_sentences, numel. rewrite Hls. simpl.
  rewrite decide_False by nia.
  replace (b * s * (F * 1)) with (s * (b * F)) by nia.
  rewrite Nat.Div0.mod_mul, decide_True by done.
  rewrite Nat.div_mul by nia.
  assert (Hflat : regroup (length lengths * s) F (concat (tolist last))
                  = tolist last).
  { fold b. rewrite <- Hll. by apply regroup_concat. }
  rewrite Hflat. fold b.
  eexists. split; [done|]. split.
  - split; [done|]. simpl. split; [apply length_regroup|].
    apply Forall_lookup. intros i sent Hsent.
    assert (Hi : i < b).
    { apply lookup_lt_Some in Hsent. by rewrite length_regroup in Hsent. }
    rewrite regroup_lookup in Hsent by done. injection Hsent as <-.
    split.
    + rewrite length_take, length_drop. nia.
    + by apply Forall_take, Forall_drop.
  - intros i j Hi Hj. simpl.
    destruct (lookup_lt_is_Some_2 (tolist out) (i * s + j)) as [token Htoken].
    { nia. }
    destruct (Forall2_lookup_l _ _ _ _ _ Hsel Htoken) as (v & Hv & Htv).
    exists token, v. split; [done|]. split; [done|].
    rewrite regroup_lookup by done. simpl.
    by rewrite lookup_take_lt, lookup_drop.
Qed.

(** X22: [embed] raises [RuntimeError] (from [reshape]) where the token
    rows cannot be shared out among the sentences: no lengths, or a number
    of rows that is not a multiple of the number of sentences. *)
Theorem CharacterAsWordEmbedding_embed_errors self (batch : Tensor2 nat)
    (lengths : list nat) (char_embs out : Tensor3 T) (N C F : nat) :
  CharacterAsWordEmbedding.character_embedding self batch = Ok char_embs →
  CharacterAsWordEmbedding.char_bilstm self char_embs = Ok out →
  shaped3 N C F out →
  0 < C → 0 < F →
  lengths = [] ∨ N mod length lengths ≠ 0 →
  CharacterAsWordEmbedding.embed self batch lengths = Raise RuntimeError.
Proof.
  intros Hemb Hlstm Hshape HC HF Hbad. pose proof Hshape as (Hs & HN & Hrows).
  unfold CharacterAsWordEmbedding.embed.
  rewrite Hemb. simpl. rewrite Hlstm. simpl.
  destruct (select_dim1_shaped out N C F (C - 1) Hshape)
    as (last & Hlast & (Hls & Hll & Hlr) & Hsel); [lia|].
  assert (Hlast' : select_dim1 out (-1)%Z = Ok last).
  { rewrite <- Hlast. unfold select_dim1. rewrite Hs.
    rewrite tensor_index_last by done.
    by rewrite tensor_index_nat by lia. }
  rewrite Hlast'. simpl. rewrite Hs. simpl.
  unfold shape_at. rewrite Hs. simpl.
  unfold reshape_sentences, view_sentences, numel. rewrite Hls. simpl.
  destruct (decide (length lengths * F = 0)) as [|Hnz]; [done|].
  rewrite decide_False; [done|].
  destruct Hbad as [->|Hmod]; [simpl in Hnz; lia|].
  replace (N * (F * 1)) with (N * F) by lia.
  rewrite Nat.Div0.mul_mod_distr_r. nia.
Qed.
End character_embedding.

(** ** The further theorems on example inputs *)

Section more_examples.
Import Examples MoreExamples.

Lemma Tagger_postprocess_clamps_witness :
  ∃ tags, Tagger.postprocess tagger stray_logits [1; 7] = Ok tags
          ∧ length tags = 1.
Proof.
  destruct (Tagger_postprocess_clamps tagger stray_logits [1; 7] 1 3 10)
    as (tags & Hok & Hlen & _).
  - split; [reflexivity|]. repeat constructor.
  - lia.
  - simpl. lia.
  - intros [|i] j sent logits n Hsent Hn Hl Hj; [|discriminate].
    injection Hsent as <-. injection Hn as <-.
    destruct j as [|j]; [|lia]. injection Hl as <-. by eexists.
  - exists tags. split; assumption.
Defined.

Lemma Tagger_postprocess_KeyError_witness :
  Tagger.postprocess tagger stray_logits [2] = Raise KeyError.
Proof.
  apply (Tagger_postprocess_KeyError tagger stray_logits [2] 1 3 10).
  - split; [reflexivity|]. repeat constructor.
  - lia.
  - simpl. lia.
  - exists 0, 1, [one_hot 10 4; one_hot 10 9; one_hot 10 9], (one_hot 10 9), 2.
    split; [reflexivity|]. split; [reflexivity|]. split; [reflexivity|].
    split; [lia | reflexivity].
Defined.

Lemma Tagger_postprocess_missing_length_witness :
  Tagger.postprocess tagger tag_logits [3] = Raise IndexError.
Proof.
  apply (Tagger_postprocess_missing_length tagger tag_logits [3] 2 3 7).
  - split; [reflexivity|]. repeat constructor.
  - lia.
  - lia.
  - reflexivity.
  - exact tag_vocab_total.
  - simpl. lia.
Defined.

Lemma GRUDecoder_map_lemma_result_witness :
  GRUDecoder.map_lemma_from_char_idx gappy_decoder [4; 3; 5] = Raise KeyError.
Proof.
  apply (GRUDecoder_map_lemma_result gappy_decoder [4; 3; 5]).
  apply Exists_cons_tl, Exists_cons_tl, Exists_cons_hd.
  split; [|reflexivity]. apply illegal_chars_output_spec. simpl. lia.
Defined.

Lemma GRUDecoder_map_lemma_stops_at_EOS_witness :
  GRUDecoder.map_lemma_from_char_idx decoder ([4] ++ 3 :: [5; 5])
  = GRUDecoder.map_lemma_from_char_idx decoder [4].
Proof.
  apply (GRUDecoder_map_lemma_stops_at_EOS decoder [4] [5; 5] 3).
  - reflexivity.
  - apply illegal_chars_output_spec. simpl. lia.
  - repeat constructor; intros _; by eexists.
Defined.

Lemma GRUDecoder_map_lemma_skips_illegal_witness :
  GRUDecoder.map_lemma_from_char_idx decoder ([4] ++ 0 :: [5])
  = GRUDecoder.map_lemma_from_char_idx decoder ([4] ++ [5]).
Proof.
  apply (GRUDecoder_map_lemma_skips_illegal decoder [4] [5] 0).
  destruct (decide (0 ∈ GRUDecoder.illegal_chars_output decoder))
    as [Hin|Hout]; [exact Hin|].
  apply illegal_chars_output_spec in Hout. simpl in Hout. lia.
Defined.

Lemma GRUDecoder_postprocess_view_error_witness :
  GRUDecoder.postprocess decoder lemma_logits [1; 1; 1] = Raise RuntimeError.
Proof.
  apply (GRUDecoder_postprocess_view_error decoder lemma_logits [1; 1; 1]
           2 2 6).
  - split; [reflexivity|]. repeat constructor.
  - lia.
  - right. right. simpl. lia.
Defined.

Lemma GRUDecoder_postprocess_IndexError_witness :
  GRUDecoder.postprocess decoder lemma_logits [1; 2] = Raise IndexError.
Proof.
  apply (GRUDecoder_postprocess_IndexError decoder lemma_logits [1; 2] 1 2 6).
  - split; [reflexivity|]. repeat constructor.
  - lia.
  - lia.
  - reflexivity.
  - exact char_vocab_total.
  - apply Exists_cons_tl, Exists_cons_hd. lia.
Defined.

Lemma GRUDecoder_decode_draws_witness :
  ∃ final,
    GRUDecoder.decode_loop Data.map_to_chars_batch decoder encoded training
      coin = Ok final
    ∧ GRUDecoder.position (GRUDecoder.rng final) = 2.
Proof.
  destruct (GRUDecoder_decode_draws Data.map_to_chars_batch decoder encoded
              training gold 1 1 1 6 3 1 coin training_is_training_batch)
    as (final & Hloop & _ & Hpos).
  exists final. split; assumption.
Defined.

Lemma GRUDecoder_decode_without_forcing_witness :
  GRUDecoder.decode Data.map_to_chars_batch free_decoder encoded training coin
  = GRUDecoder.decode Data.map_to_chars_batch free_decoder encoded
      other_training coin.
Proof.
  apply (GRUDecoder_decode_without_forcing Data.map_to_chars_batch
           free_decoder encoded training other_training gold other_gold coin).
  - reflexivity.
  - reflexivity.
  - reflexivity.
  - reflexivity.
  - intros k. simpl. destruct (Nat.even k); reflexivity.
Defined.

Lemma GRUDecoder_decode_needs_tokens_witness :
  GRUDecoder.decode Data.map_to_chars_batch decoder encoded tokenless coin
  = Raise KeyError.
Proof.
  destruct (GRUDecoder_decode_needs_tokens Data.map_to_chars_batch decoder
              encoded tokenless gold 1 1 1 1 3 coin) as [_ Hraise].
  - split; [reflexivity|]. repeat constructor.
  - lia.
  - reflexivity.
  - reflexivity.
  - apply Hraise; [lia | reflexivity].
Defined.

Lemma Encoder_init_errors_witness :
  Encoder.nn_Dropout_init (QArith_base.Qmake 3 2)
  = Raise (ValueError Encoder.dropout_out_of_range).
Proof.
  destruct (Encoder_init_errors accepting_LSTM routed_embeddings 4 1
              (QArith_base.Qmake 3 2)
              (ValueError Encoder.dropout_out_of_range))
    as [(Hl & _)|[(_ & Hctor)|[(_ & He & _)|(Hdrop & _)]]].
  - reflexivity.
  - discriminate.
  - discriminate.
  - discriminate.
  - exact Hdrop.
Defined.

Lemma Encoder_init_forward_direct_witness :
  ∃ enc out,
    Encoder.init accepting_LSTM direct_embeddings 4 1 = Ok enc
    ∧ Encoder.forward no_dropout enc [["a"; "b"]] [2] = Ok (Some out)
    ∧ shaped3 1 2 3 out
    ∧ Encoder.encoder_output_dim enc = 11.
Proof.
  eexists.
  destruct (Encoder_init_forward_direct accepting_LSTM no_dropout
              direct_embeddings 4 1 _ [["a"; "b"]] [2] 1 2 eq_refl)
    as [(out & Hout & Hshape) Hdim].
  - discriminate.
  - intros emb Hin. apply list_elem_of_singleton in Hin as ->.
    split; [reflexivity|]. eexists. split; [reflexivity|].
    split; [reflexivity|]. repeat constructor.
  - exists out. split; [reflexivity|]. split; [exact Hout|].
    split; [exact Hshape | exact Hdim].
Defined.

Lemma Encoder_forward_routed_shape_witness :
  ∃ out,
    Encoder.forward no_dropout routed_encoder [["a"; "b"]] [2] = Ok (Some out)
    ∧ shaped3 1 2 8 out.
Proof.
  apply (Encoder_forward_routed_shape no_dropout routed_encoder
           (recurrent_layer 5) [["a"; "b"]] [2] 1 2 4).
  - reflexivity.
  - reflexivity.
  - intros emb Hin. apply list_elem_of_singleton in Hin as ->.
    split; [reflexivity|]. eexists. split; [reflexivity|].
    split; [reflexivity|]. repeat constructor.
  - simpl. lia.
  - reflexivity.
  - repeat constructor.
  - intros packed. eexists. split; [reflexivity|]. simpl.
    split; [|split; [reflexivity|]].
    + rewrite <- list_fmap_compose. apply list_fmap_ext.
      intros i sq _. simpl. by rewrite length_fmap.
    + rewrite Forall_fmap. apply Forall_true. intros sq. simpl.
      rewrite Forall_fmap. by apply Forall_true.
  - intros t b s w Ht. exact Ht.
Defined.

Lemma Encoder_forward_mixed_never_returns_witness :
  ∃ err,
    Encoder.forward no_dropout mixed_encoder [["a"; "b"]] [2] = Raise err.
Proof.
  apply (Encoder_forward_mixed_never_returns no_dropout mixed_encoder
           [["a"; "b"]] [2] 1 2).
  - reflexivity.
  - intros emb Hin.
    apply elem_of_cons in Hin as [->|Hin];
      [|apply list_elem_of_singleton in Hin as ->];
      (eexists; split; [reflexivity|]; split; [reflexivity|];
       repeat constructor).
  - exists (embedding_of 2 true). split; [left | reflexivity].
  - simpl. lia.
Defined.

Lemma Encoder_forward_rejected_lengths_witness :
  Encoder.forward no_dropout routed_encoder [["a"; "b"]] [0]
  = Raise RuntimeError.
Proof.
  apply (Encoder_forward_rejected_lengths no_dropout routed_encoder
           [["a"; "b"]] [0] 1 2).
  - reflexivity.
  - intros emb Hin. apply list_elem_of_singleton in Hin as ->.
    eexists. split; [reflexivity|]. split; [reflexivity|].
    repeat constructor.
  - exists (embedding_of 5 true). split; [left | reflexivity].
  - reflexivity.
  - left.
Defined.

Lemma pack_sequence_succeeds_witness :
  ∃ r, pack_sequence gap_in_the_middle = Ok r.
Proof.
  destruct (pack_sequence_succeeds gap_in_the_middle 1 3 1) as [[_ Hok] _].
  - split; [reflexivity|]. repeat constructor.
  - apply Hok. split; [lia|]. constructor; [|constructor].
    apply Exists_cons_hd. reflexivity.
Defined.

Lemma pack_unpack_prefixes_witness :
  ∃ n,
    n = 2
    ∧ tolist (unpack_sequence
                {| sequences := [[[1%Z]; [0%Z]]]; features := 1 |}) !! 0
      = Some (take n [[1%Z]; [0%Z]; [2%Z]]
              ++ replicate (2 - n) (replicate 1 0%Z)).
Proof.
  destruct (pack_unpack_prefixes gap_in_the_middle 1 3 1
              {| sequences := [[[1%Z]; [0%Z]]]; features := 1 |}
              (mkTensor [1] [2]))
    as (_ & _ & _ & _ & Hrows).
  - split; [reflexivity|]. repeat constructor.
  - reflexivity.
  - destruct (Hrows 0 [[1%Z]; [0%Z]; [2%Z]] eq_refl)
      as (n & _ & Hn & _ & Hrow).
    exists n. split; [exact Hn | exact Hrow].
Defined.

Lemma ClassingWordEmbedding_embed_after_init_witness :
  ∃ emb out,
    ClassingWordEmbedding.init char_vocab 2 0 true = Ok emb
    ∧ ClassingWordEmbedding.embed emb word_indices [2] = Ok out
    ∧ tolist out
      = [[[ClassingWordEmbedding.W_xavier 2 5 2;
           ClassingWordEmbedding.W_xavier 2 5 3];
          [ClassingWordEmbedding.W_zero; ClassingWordEmbedding.W_zero]]].
Proof.
  eexists.
  destruct (ClassingWordEmbedding_embed_after_init char_vocab 2 true _
              word_indices [2] 1 2 eq_refl) as (_ & Hok & _).
  - split; [reflexivity|]. repeat constructor.
  - destruct Hok as (out & Hout & _ & Hrows).
    + repeat constructor.
    + exists out. split; [reflexivity|]. split; [exact Hout | exact Hrows].
Defined.

Lemma PretrainedEmbedding_init_embed_witness :
  ∃ emb out,
    PretrainedEmbedding.init char_vocab pretrained_table false 0 true = Ok emb
    ∧ PretrainedEmbedding.output_dim emb = Ok 2
    ∧ PretrainedEmbedding.embed emb word_indices [2] = Ok out
    ∧ tolist out = [[[3; 4]; [7; 8]]]%Z.
Proof.
  destruct (PretrainedEmbedding_init_embed char_vocab pretrained_table false
              true 3 2) as [_ Hok].
  - split; [reflexivity|]. repeat constructor.
  - destruct Hok as (emb & Hinit & _ & _ & Hdim & Hembed); [simpl; lia|].
    destruct (Hembed word_indices [2] 1 2) as [Hin _].
    + split; [reflexivity|]. repeat constructor.
    + destruct Hin as (out & Hout & _ & Hrows).
      * repeat constructor.
      * exists emb, out. split; [exact Hinit|]. split; [exact Hdim|].
        split; [exact Hout | exact Hrows].
Defined.

Lemma CharacterAsWordEmbedding_embed_last_position_witness :
  ∃ r,
    CharacterAsWordEmbedding.embed char_embedding char_indices [1; 1] = Ok r
    ∧ shaped3 2 1 2 r.
Proof.
  destruct (CharacterAsWordEmbedding_embed_last_position char_embedding
              char_indices [1; 1] _ _ 1 4 2 eq_refl eq_refl)
    as (r & Hr & Hshape & _).
  - split; [reflexivity|]. repeat constructor.
  - lia.
  - lia.
  - discriminate.
  - exists r. split; [exact Hr | exact Hshape].
Defined.

Lemma CharacterAsWordEmbedding_embed_errors_witness :
  CharacterAsWordEmbedding.embed char_embedding char_indices [1; 1; 1]
  = Raise RuntimeError.
Proof.
  apply (CharacterAsWordEmbedding_embed_errors char_embedding char_indices
           [1; 1; 1] _ _ 2 4 2 eq_refl eq_refl).
  - split; [reflexivity|]. repeat constructor.
  - lia.
  - lia.
  - right. simpl. lia.
Defined.
End more_examples.
